(** * Neighbor-query core of freud: a shallow embedding and its properties

    The development follows the source files, one module per file:
    - [NeighborList_cc]: the bond list (construction from flat arrays,
      filtering, resizing);
    - [NeighborQuery_h]: query arguments, mode inference, bounds-checked
      point access, materialisation of a query iterator into a bond list;
    - [NeighborComputeFunctional_h]: the serial-or-parallel loop wrapper,
      the per-pair and the per-point driver;
    - [AABBQuery_cc]: image vectors, the ball iterator and the k-nearest
      neighbor iterator over an AABB tree;
    - [HexaticTranslational_cc]: the order parameters.
    The modules [ListSpec], [ImageSpec], [BallSpec], [IndexSpec],
    [TraversalSpec] and [OrderSpec] hold what the properties are stated
    against, [Scenes] the concrete scenarios, and the modules named
    [..._facts] the proofs.

    Numbers.  A C++ [float] value is the rational number ([Q]) it
    denotes, and comparisons between floats are the comparisons of these
    rationals.  The arithmetic of the two iterators of AABBQuery.cc (the
    squared cut-off, the squared distance, the shifted query point, the
    growing radius) is a parameter [FloatOps] of the embedding, with the
    instances [binary32] (every operation rounds to the nearest
    binary32 number) and [exact] (no rounding).  The image vectors and
    the order parameters are computed without rounding.  [unsigned int]
    indices and sizes are natural numbers; where the source relies on
    wrap-around it is written out on [Z] modulo 2^32.

    Control.  A C++ call either returns, throws, or has undefined behaviour
    (reading outside an array, leaving a non-void function without a
    [return]); [outcome] keeps the three apart.  Loops whose termination is
    not structural carry a fuel argument and report [None] when it runs out.
    A [tbb::parallel_for] splits its range into blocks and runs the body
    on each; the split and the order are a parameter [schedule]. *)

From Stdlib Require Import QArith Qabs Qround Lqa ZArith Lia List Bool.
From Stdlib Require Import Permutation String Sorted.
From stdpp Require Import base list.

Local Open Scope string_scope.
Local Open Scope list_scope.

(** ** Outcomes of a call *)

Inductive exn : Type :=
| runtime_error (what : string).

Inductive outcome (A : Type) : Type :=
| Returns (a : A)
| Throws (e : exn)
| Undefined.

Arguments Returns {A} a.
Arguments Throws {A} e.
Arguments Undefined {A}.

Definition obind {A B : Type} (c : outcome A) (k : A -> outcome B) : outcome B :=
  match c with
  | Returns a => k a
  | Throws e => Throws e
  | Undefined => Undefined
  end.

Notation "x <-- c ;; k" := (obind c (fun x => k))
  (at level 100, c at next level, right associativity).

Definition is_throw {A : Type} (c : outcome A) : bool :=
  match c with Throws _ => true | _ => false end.

(** ** Numbers *)

Definition float : Type := Q.

Bind Scope Q_scope with float.

Definition Qltb (x y : Q) : bool := negb (Qle_bool y x).

(** The arithmetic of the type [float]: the sum, difference, product
    and quotient of two floats, each a float again.  The code that
    computes with floats takes these operations as a parameter. *)
Record FloatOps : Type := mkFloatOps {
  fadd : float -> float -> float;
  fsub : float -> float -> float;
  fmul : float -> float -> float;
  fdiv : float -> float -> float
}.

(** Arithmetic without rounding. *)
Definition exact : FloatOps := mkFloatOps Qplus Qminus Qmult Qdiv.

(** [floor (log2 x)] for a positive [x]. *)
Definition Qlog2 (x : Q) : Z :=
  let e := (Z.log2 (Qnum x) - Z.log2 (Z.pos (Qden x)))%Z in
  if Qle_bool (2 ^ e) x then e else (e - 1)%Z.

(** The integer nearest to [m], the even one of two that are equally
    near. *)
Definition round_even (m : Q) : Z :=
  let f := Qfloor m in
  match (2 * (m - inject_Z f) ?= 1)%Q with
  | Lt => f
  | Gt => (f + 1)%Z
  | Eq => if Z.even f then f else (f + 1)%Z
  end.

(** The IEEE-754 binary32 number nearest to [x] (round to nearest, ties
    to even): a multiple of [2 ^ (e - 23)] for the binary exponent [e]
    of [x], [e] being at least -126.  The infinities are left out: a
    result beyond the largest finite number is the rounded rational. *)
Definition round32 (x : Q) : Q :=
  if Qeq_bool x 0 then 0%Q
  else
    let e := Z.max (Qlog2 (Qabs x)) (-126) in
    let ulp := (2 ^ (e - 23))%Q in
    Qred (inject_Z (round_even (x / ulp)) * ulp).

(** The arithmetic of binary32: every operation rounds its exact
    result. *)
Definition binary32 : FloatOps :=
  mkFloatOps (fun a b => round32 (a + b)) (fun a b => round32 (a - b))
    (fun a b => round32 (a * b)) (fun a b => round32 (a / b)).

Definition UINT_MAX : Z := 4294967295.

(** Conversion of an [int] to [unsigned int]. *)
Definition to_unsigned (n : Z) : nat := Z.to_nat (n mod (UINT_MAX + 1)).

(** Arithmetic on [unsigned int], reduced modulo 2^32. *)
Definition uadd (a b : nat) : nat := Z.to_nat ((Z.of_nat a + Z.of_nat b) mod (UINT_MAX + 1)).
Definition usub (a b : nat) : nat := Z.to_nat ((Z.of_nat a - Z.of_nat b) mod (UINT_MAX + 1)).

(** ** VectorMath: [vec3<float>] *)

Record vec3 : Type := mkvec3 { vx : float; vy : float; vz : float }.

Arguments mkvec3 (vx vy vz)%_Q.

Definition vzero : vec3 := mkvec3 0 0 0.
Definition vadd (a b : vec3) : vec3 :=
  mkvec3 (vx a + vx b) (vy a + vy b) (vz a + vz b).
Definition vsub (a b : vec3) : vec3 :=
  mkvec3 (vx a - vx b) (vy a - vy b) (vz a - vz b).
Definition vscale (s : float) (a : vec3) : vec3 :=
  mkvec3 (s * vx a) (s * vy a) (s * vz a).
Definition dot (a b : vec3) : float :=
  (vx a * vx b + vy a * vy b + vz a * vz b)%Q.
Definition set_z (a : vec3) (z : float) : vec3 := mkvec3 (vx a) (vy a) z.

(** The same operators over a float arithmetic [F]. *)
Definition fvadd (F : FloatOps) (a b : vec3) : vec3 :=
  mkvec3 (fadd F (vx a) (vx b)) (fadd F (vy a) (vy b)) (fadd F (vz a) (vz b)).
Definition fvsub (F : FloatOps) (a b : vec3) : vec3 :=
  mkvec3 (fsub F (vx a) (vx b)) (fsub F (vy a) (vy b)) (fsub F (vz a) (vz b)).
Definition fdot (F : FloatOps) (a b : vec3) : float :=
  fadd F (fadd F (fmul F (vx a) (vx b)) (fmul F (vy a) (vy b))) (fmul F (vz a) (vz b)).

Arguments set_z a z%_Q.

(** ** Box

    Box.h is not part of the sources at hand; the iterators only read the
    accessors below, so a box is the record of what they return. *)

Record Box : Type := mkBox {
  getLatticeVector : nat -> vec3;
  getNearestPlaneDistance : vec3;
  periodic_x : bool;
  periodic_y : bool;
  periodic_z : bool;
  is2D : bool
}.

(** ** NeighborBond

    NeighborBond.h is not part of the sources at hand; the fields are the
    ones the callers read ([id], [ref_id], [distance], [weight]). *)

Record NeighborBond : Type := mkNeighborBond {
  id : nat;
  ref_id : nat;
  distance : float;
  weight : float
}.

Arguments mkNeighborBond (id ref_id)%_nat (distance weight)%_Q.

(** Modelled from the spec: [NeighborBond::less_as_tuple], whose header is
    missing; the spec orders bonds lexicographically by
    (query_idx, distance, point_idx). *)
Definition less_as_tuple (l r : NeighborBond) : bool :=
  (id l <? id r)%nat
  || ((id l =? id r)%nat
      && (Qltb (distance l) (distance r)
          || (Qeq_bool (distance l) (distance r) && (ref_id l <? ref_id r)%nat))).

(** [std::sort] and [tbb::parallel_sort] with a comparator, as insertion
    into an ordered list. *)
Fixpoint insert_by {A : Type} (lt : A -> A -> bool) (x : A) (l : list A) : list A :=
  match l with
  | [] => [x]
  | y :: l' => if lt y x then y :: insert_by lt x l' else x :: l
  end.

Fixpoint sort_by {A : Type} (lt : A -> A -> bool) (l : list A) : list A :=
  match l with
  | [] => []
  | x :: l' => insert_by lt x (sort_by lt l')
  end.

(** A bounded [for (i = start; i < start + n; ++i)] loop whose body may
    throw. *)
Fixpoint for_range {St : Type} (body : nat -> St -> outcome St)
    (start n : nat) (st : St) : outcome St :=
  match n with
  | O => Returns st
  | S n' => st' <-- body start st ;; for_range body (S start) n' st'
  end.

(** A read through a raw pointer that views the elements of [arr]. *)
Definition read {A : Type} (arr : list A) (i : nat) : outcome A :=
  match arr !! i with
  | Some a => Returns a
  | None => Undefined
  end.

(** The value of the IEEE-754 binary32 bit pattern [w] (finite patterns):
    sign bit 31, exponent bits 30..23, fraction bits 22..0. *)
Definition float_of_bits (w : Z) : float :=
  let e := Z.land (Z.shiftr w 23) 255 in
  let m := Z.land w 8388607 in
  let mag := if (e =? 0)%Z
             then (inject_Z m * 2 ^ (-149))%Q
             else (inject_Z (8388608 + m) * 2 ^ (e - 150))%Q in
  if Z.testbit w 31 then (- mag)%Q else mag.

(** What a [float] holds after [memset] has filled its four bytes with
    [byte]. *)
Definition memset_float (byte : Z) : float :=
  float_of_bits (byte + Z.shiftl byte 8 + Z.shiftl byte 16 + Z.shiftl byte 24).

(** * NeighborList.cc *)

Module NeighborList_cc.

(** Modelled from the spec: [ManagedArray::prepare], whose header is
    missing.  The array takes the requested size; [reset] controls whether
    the existing content is zeroed. *)
Definition prepare {A : Type} (zero : A) (n : nat) (reset : bool) (arr : list A) : list A :=
  if reset then replicate n zero
  else take n arr ++ replicate (n - length arr) zero.

(** [m_neighbors] has shape (num_bonds, 2) and is kept row by row. *)
Record NeighborList : Type := mkNeighborList {
  m_num_points : nat;
  m_num_query_points : nat;
  m_neighbors : list (nat * nat);
  m_weights : list float;
  m_distances : list float;
  m_counts : list nat;
  m_segments : list nat
}.

Definition get2 (arr : list (nat * nat)) (i c : nat) : nat :=
  let row := nth i arr (0, 0)%nat in
  if (c =? 0)%nat then row.1 else row.2.

Definition set2 (arr : list (nat * nat)) (i c v : nat) : list (nat * nat) :=
  let row := nth i arr (0, 0)%nat in
  <[i := if (c =? 0)%nat then (v, row.2) else (row.1, v)]> arr.

Definition set_neighbors (nl : NeighborList) (a : list (nat * nat)) : NeighborList :=
  mkNeighborList (m_num_points nl) (m_num_query_points nl) a
    (m_weights nl) (m_distances nl) (m_counts nl) (m_segments nl).
Definition set_weights (nl : NeighborList) (a : list float) : NeighborList :=
  mkNeighborList (m_num_points nl) (m_num_query_points nl) (m_neighbors nl)
    a (m_distances nl) (m_counts nl) (m_segments nl).
Definition set_distances (nl : NeighborList) (a : list float) : NeighborList :=
  mkNeighborList (m_num_points nl) (m_num_query_points nl) (m_neighbors nl)
    (m_weights nl) a (m_counts nl) (m_segments nl).

(** [NeighborList::NeighborList()] *)
Definition NeighborList_default : NeighborList :=
  mkNeighborList 0 0 [] [] [] [] [].

Definition getNumBonds (nl : NeighborList) : nat := length (m_neighbors nl).
Definition getNumPoints (nl : NeighborList) : nat := m_num_points nl.
Definition getNumQueryPoints (nl : NeighborList) : nat := m_num_query_points nl.

(** The body of the loop of the constructor from flat arrays; the loop
    state is [last_index] and the list under construction. *)
Definition ctor_body (query_point_index point_index : list nat)
    (distances weights : list float) (i : nat) (st : nat * NeighborList)
    : outcome (nat * NeighborList) :=
  let '(last_index, nl) := st in
  index <-- read query_point_index i ;;
  if (index <? last_index)%nat
  then Throws (runtime_error "NeighborList query_point_index must be sorted.")
  else if (m_num_query_points nl <=? index)%nat
  then Throws (runtime_error
    "NeighborList query_point_index values must be less than num_query_points.")
  else
    p <-- read point_index i ;;
    if (m_num_points nl <=? p)%nat
    then Throws (runtime_error
      "NeighborList point_index values must be less than num_points.")
    else
      w <-- read weights i ;;
      d <-- read distances i ;;
      let nl := set_neighbors nl (set2 (m_neighbors nl) i 0 last_index) in
      let nl := set_neighbors nl (set2 (m_neighbors nl) i 1 p) in
      let nl := set_weights nl (<[i := w]> (m_weights nl)) in
      let nl := set_distances nl (<[i := d]> (m_distances nl)) in
      Returns (index, nl).

(** [NeighborList::NeighborList(num_bonds, query_point_index,
    num_query_points, point_index, num_points, distances, weights)].
    The arrays of the new object are prepared from nothing, which gives
    zeros whatever the default of [prepare]'s second argument is. *)
Definition NeighborList_from_arrays (num_bonds : nat) (query_point_index : list nat)
    (num_query_points : nat) (point_index : list nat) (num_points : nat)
    (distances weights : list float) : outcome NeighborList :=
  let nl := mkNeighborList num_points num_query_points
              (prepare (0, 0)%nat num_bonds true [])
              (prepare 0%Q num_bonds true [])
              (prepare 0%Q num_bonds true [])
              (prepare 0%nat num_query_points true [])
              (prepare 0%nat num_query_points true []) in
  st <-- for_range (ctor_body query_point_index point_index distances weights)
           0 num_bonds (0%nat, nl) ;;
  Returns st.2.

(** [NeighborList::resize(num_bonds, reset)] *)
Definition resize (nl : NeighborList) (num_bonds : nat) (reset : bool) : NeighborList :=
  if negb (num_bonds =? getNumBonds nl)%nat
  then mkNeighborList (m_num_points nl) (m_num_query_points nl)
         (prepare (0, 0)%nat num_bonds reset (m_neighbors nl))
         (prepare 0%Q num_bonds reset (m_weights nl))
         (prepare 0%Q num_bonds reset (m_distances nl))
         (m_counts nl) (m_segments nl)
  else nl.

(** [NeighborList::setNumBonds(num_bonds, num_points, num_query_points)];
    [reset] is the default argument of [resize], declared in the missing
    header. *)
Definition setNumBonds (reset : bool) (nl : NeighborList)
    (num_bonds num_points num_query_points : nat) : NeighborList :=
  let nl := resize nl num_bonds reset in
  mkNeighborList num_points num_query_points (m_neighbors nl)
    (m_weights nl) (m_distances nl) (m_counts nl) (m_segments nl).

(** Moving bond [i] to slot [num_good], as the bodies of [filter] and
    [filter_r] do. *)
Definition move_bond (nl : NeighborList) (num_good i : nat) : NeighborList :=
  let nl := set_neighbors nl
              (set2 (m_neighbors nl) num_good 0 (get2 (m_neighbors nl) i 0)) in
  let nl := set_neighbors nl
              (set2 (m_neighbors nl) num_good 1 (get2 (m_neighbors nl) i 1)) in
  let nl := set_weights nl (<[num_good := nth i (m_weights nl) 0%Q]> (m_weights nl)) in
  set_distances nl (<[num_good := nth i (m_distances nl) 0%Q]> (m_distances nl)).

(** The loop of [filter_r]: [n] iterations remain, [i] is the loop index. *)
Fixpoint filter_r_loop (r_max r_min : float) (n i num_good : nat) (nl : NeighborList)
    : nat * NeighborList :=
  match n with
  | O => (num_good, nl)
  | S n' =>
      let d := nth i (m_distances nl) 0%Q in
      if Qltb r_min d && Qltb d r_max
      then filter_r_loop r_max r_min n' (S i) (S num_good) (move_bond nl num_good i)
      else filter_r_loop r_max r_min n' (S i) num_good nl
  end.

(** [NeighborList::filter_r(r_max, r_min)]: the filtered list and the
    returned [unsigned int]. *)
Definition filter_r (nl : NeighborList) (r_max r_min : float) : NeighborList * nat :=
  let '(num_good, nl') := filter_r_loop r_max r_min (getNumBonds nl) 0 0 nl in
  let old_size := getNumBonds nl' in
  (resize nl' num_good false, usub num_good old_size).

(** The loop of [filter]. *)
Fixpoint filter_loop (filt : list bool) (n i num_good : nat) (nl : NeighborList)
    : nat * NeighborList :=
  match n with
  | O => (num_good, nl)
  | S n' =>
      if nth i filt false
      then filter_loop filt n' (S i) (S num_good) (move_bond nl num_good i)
      else filter_loop filt n' (S i) num_good nl
  end.

(** [NeighborList::filter(filt)] *)
Definition filter (nl : NeighborList) (filt : list bool) : NeighborList * nat :=
  let '(num_good, nl') := filter_loop filt (getNumBonds nl) 0 0 nl in
  let old_size := getNumBonds nl' in
  (resize nl' num_good false, usub num_good old_size).

(** [bool compareNeighborBond(left, right)] *)
Definition compareNeighborBond (left right : NeighborBond) : bool :=
  less_as_tuple left right.

(** The bonds a list holds, row by row. *)
Definition bond_at (nl : NeighborList) (b : nat) : NeighborBond :=
  mkNeighborBond (get2 (m_neighbors nl) b 0) (get2 (m_neighbors nl) b 1)
    (nth b (m_distances nl) 0%Q) (nth b (m_weights nl) 0%Q).

Definition bonds (nl : NeighborList) : list NeighborBond :=
  map (bond_at nl) (seq 0 (getNumBonds nl)).

(** ** Checked and unchecked access

    ManagedArray.h is not part of the sources at hand.  What an access
    outside an array does (a checked accessor throws, an unchecked one
    is undefined) is the parameter [outside] of the functions below. *)

Section ManagedArray.
Variable outside : forall A : Type, outcome A.

(** [arr[i]] and [arr(i, c)] as a read. *)
Definition at_ {A : Type} (arr : list A) (i : nat) : outcome A :=
  match arr !! i with
  | Some a => Returns a
  | None => outside A
  end.

Definition at2 (arr : list (nat * nat)) (i c : nat) : outcome nat :=
  match arr !! i with
  | Some row => Returns (if (c =? 0)%nat then row.1 else row.2)
  | None => outside nat
  end.

(** [arr[i] = v]. *)
Definition put {A : Type} (arr : list A) (i : nat) (v : A) : outcome (list A) :=
  if (i <? length arr)%nat then Returns (<[i := v]> arr) else outside (list A).

(** [arr[z] = v] for an [int] index: a negative [int] converts to an
    index beyond any array. *)
Definition put_int {A : Type} (arr : list A) (z : Z) (v : A) : outcome (list A) :=
  if (z <? 0)%Z then outside (list A) else put arr (Z.to_nat z) v.

(** Conversion of an index ([size_t]) to [int]. *)
Definition to_int (n : nat) : Z :=
  let m := (Z.of_nat n mod (UINT_MAX + 1))%Z in
  if (m <=? 2147483647)%Z then m else (m - (UINT_MAX + 1))%Z.

(** The state of the loop of [updateSegmentCounts]: [last_index],
    [counter] and the two arrays it writes. *)
Record segment_state : Type := mksegment_state {
  ss_last_index : Z;
  ss_counter : nat;
  ss_counts : list nat;
  ss_segments : list nat
}.

Definition segment_body (neighbors : list (nat * nat)) (i : nat) (st : segment_state)
    : outcome segment_state :=
  q <-- at2 neighbors i 0 ;;
  let index := to_int q in
  st <-- (if negb (index =? ss_last_index st)%Z
          then
            segments <-- put_int (ss_segments st) index i ;;
            if (0 <? index)%Z
            then
              counts <-- (if (0 <=? ss_last_index st)%Z
                          then put_int (ss_counts st) (ss_last_index st) (ss_counter st)
                          else Returns (ss_counts st)) ;;
              Returns (mksegment_state (ss_last_index st) 0 counts segments)
            else
              Returns (mksegment_state (ss_last_index st) (ss_counter st)
                         (ss_counts st) segments)
          else Returns st) ;;
  Returns (mksegment_state index (S (ss_counter st)) (ss_counts st) (ss_segments st)).

(** [NeighborList::updateSegmentCounts()]: the list with its (mutable)
    [m_counts] and [m_segments] rewritten. *)
Definition updateSegmentCounts (nl : NeighborList) : outcome NeighborList :=
  st <-- for_range (segment_body (m_neighbors nl)) 0 (getNumBonds nl)
           (mksegment_state (-1) 0 (m_counts nl) (m_segments nl)) ;;
  counts <-- (if (0 <=? ss_last_index st)%Z
              then put_int (ss_counts st) (ss_last_index st) (ss_counter st)
              else Returns (ss_counts st)) ;;
  Returns (mkNeighborList (m_num_points nl) (m_num_query_points nl) (m_neighbors nl)
             (m_weights nl) (m_distances nl) counts (ss_segments st)).

(** [NeighborList::bisection_search(val, left, right)]; [fuel] bounds
    the depth of the recursion. *)
Fixpoint bisection_search (fuel : nat) (nl : NeighborList) (val left right : nat)
    : option (outcome nat) :=
  match fuel with
  | O => None
  | S fuel' =>
      if (right <=? uadd left 1)%nat then Some (Returns left)
      else
        let middle := (uadd left right / 2)%nat in
        match at2 (m_neighbors nl) middle 0 with
        | Returns q =>
            if (q <? val)%nat
            then bisection_search fuel' nl val middle right
            else bisection_search fuel' nl val left middle
        | Throws e => Some (Throws e)
        | Undefined => Some Undefined
        end
  end.

(** [NeighborList::find_first_index(i)] *)
Definition find_first_index (fuel : nat) (nl : NeighborList) (i : nat)
    : option (outcome nat) :=
  if negb (getNumBonds nl =? 0)%nat
  then
    match bisection_search fuel nl i 0 (getNumBonds nl) with
    | Some (Returns b) =>
        Some (first <-- at2 (m_neighbors nl) 0 0 ;;
              Returns (uadd b (if (first <? i)%nat then 1 else 0)))
    | r => r
    end
  else Some (Returns 0%nat).

End ManagedArray.

(** [NeighborList::NeighborList(num_bonds)] *)
Definition NeighborList_sized (num_bonds : nat) : NeighborList :=
  mkNeighborList 0 0
    (prepare (0, 0)%nat num_bonds true [])
    (prepare 0%Q num_bonds true [])
    (prepare 0%Q num_bonds true [])
    (prepare 0%nat 0 true [])
    (prepare 0%nat 0 true []).

(** [NeighborList::NeighborList(const NeighborList& other)]: the arrays
    of [other]; the two sizes are initialised to 0 and not copied. *)
Definition NeighborList_copy_of (other : NeighborList) : NeighborList :=
  mkNeighborList 0 0 (m_neighbors other) (m_weights other) (m_distances other)
    (m_counts other) (m_segments other).

(** [NeighborList::copy(other)] *)
Definition copy (nl other : NeighborList) : NeighborList :=
  mkNeighborList (getNumPoints other) (getNumQueryPoints other)
    (m_neighbors other) (m_weights other) (m_distances other)
    (m_counts nl) (m_segments nl).

(** [NeighborList::validate(num_points, num_query_points)] *)
Definition validate (nl : NeighborList) (num_points num_query_points : nat)
    : outcome unit :=
  if negb (num_points =? m_num_points nl)%nat
  then Throws (runtime_error "NeighborList found inconsistent array sizes.")
  else if negb (num_query_points =? m_num_query_points nl)%nat
  then Throws (runtime_error "NeighborList found inconsistent array sizes.")
  else Returns tt.

(** [bool compareFirstNeighborPairs(left, right)] *)
Definition compareFirstNeighborPairs (left right : list NeighborBond) : bool :=
  match left, right with
  | l0 :: _, r0 :: _ => compareNeighborBond l0 r0
  | _, _ => (length left <? length right)%nat
  end.

End NeighborList_cc.

(** * NeighborQuery.h *)

Module NeighborQuery_h.

Inductive QueryType : Type := none | ball | nearest.

Record QueryArgs : Type := mkQueryArgs {
  mode : QueryType;
  num_neigh : Z;
  r_max : float;
  scale : float;
  exclude_ii : bool
}.

Arguments mkQueryArgs mode num_neigh%_Z (r_max scale)%_Q exclude_ii.

Definition set_mode (m : QueryType) (args : QueryArgs) : QueryArgs :=
  mkQueryArgs m (num_neigh args) (r_max args) (scale args) (exclude_ii args).

(** The pure virtual [query] and [queryBall] of the class [NeighborQuery];
    [I] is the type of the iterators they hand out. *)
Class NeighborQueryOps (I : Type) : Type := {
  query : list vec3 -> nat -> nat -> bool -> outcome I;
  queryBall : list vec3 -> nat -> float -> bool -> outcome I
}.

(** [RawPoints]: carries box and points, answers no query. *)
Definition RawPoints (I : Type) : NeighborQueryOps I := {|
  query := fun _ _ _ _ =>
    Throws (runtime_error "The query method is not implemented for RawPoints.");
  queryBall := fun _ _ _ _ =>
    Throws (runtime_error "The queryBall method is not implemented for RawPoints.")
|}.

Definition inferMode (args : QueryArgs) : QueryArgs :=
  match mode args with
  | none =>
      if negb (num_neigh args =? -1)%Z then set_mode nearest args
      else if negb (Qeq_bool (r_max args) (-1)) then set_mode ball args
      else args
  | _ => args
  end.

(** [args] is passed by reference: the validated record is returned. *)
Definition validateQueryArgs (args : QueryArgs) : outcome QueryArgs :=
  let args := inferMode args in
  match mode args with
  | ball =>
      if Qeq_bool (r_max args) (-1)
      then Throws (runtime_error
        "You must set r_max in the query arguments when performing ball queries.")
      else Returns args
  | nearest =>
      if (num_neigh args =? -1)%Z
      then Throws (runtime_error
        "You must set num_neigh in the query arguments when performing number of neighbor queries.")
      else Returns args
  | none => Returns args
  end.

Definition queryWithArgs {I : Type} `{NeighborQueryOps I}
    (query_points : list vec3) (n_query_points : nat) (args : QueryArgs) : outcome I :=
  args <-- validateQueryArgs args ;;
  match mode args with
  | ball => queryBall query_points n_query_points (r_max args) (exclude_ii args)
  | nearest =>
      query query_points n_query_points (to_unsigned (num_neigh args)) (exclude_ii args)
  | none =>
      Throws (runtime_error "Invalid query mode provided to generic query function.")
  end.

(** The data members of [NeighborQuery]: a box and a non-owning view of
    [m_n_points] points. *)
Record NeighborQuery : Type := mkNeighborQuery {
  m_box : Box;
  m_points : list vec3;
  m_n_points : nat
}.

Definition getNPoints (nq : NeighborQuery) : nat := m_n_points nq.

(** [operator[]]: a read of [m_points[index]] outside the storage behind
    the pointer is undefined behaviour. *)
Definition index_op (nq : NeighborQuery) (index : nat) : outcome vec3 :=
  if (m_n_points nq <=? index)%nat
  then Throws (runtime_error
    "NeighborQuery attempted to access a point with index >= n_points.")
  else match m_points nq !! index with
       | Some p => Returns p
       | None => Undefined
       end.

(** The interface of an iterator over the neighbors of one query point:
    the virtual [end()] and [next()]; [next] hands back the iterator in
    its new state. *)
Class NeighborIterator (S : Type) : Type := {
  end_ : S -> bool;
  next : S -> outcome (NeighborBond * S)
}.

(** [std::vector::pop_back]; undefined on an empty vector. *)
Definition pop_back {A : Type} (v : list A) : outcome (list A) :=
  match v with
  | [] => Undefined
  | _ => Returns (removelast v)
  end.

Section toNeighborList.
Context {S : Type} `{NeighborIterator S}.

(** The weight a bond gets from the three-argument constructor of
    [NeighborBond] (declared in the missing header). *)
Variable default_weight : float.
(** The default of the [reset] argument of [NeighborList::resize]. *)
Variable default_reset : bool.

(** The data members of a [NeighborQueryIterator] that
    [toNeighborList] reads, and the virtual [query(idx)]. *)
Variable m_neighbor_query : NeighborQuery.
Variable m_n_query_points : nat.
Variable m_exclude_ii : bool.
Variable query_idx : nat -> outcome S.

(** [while (!it->end()) { np = it->next(); ... }] for query point [i]. *)
Fixpoint collect (fuel : nat) (i : nat) (it : S) (local_bonds : list NeighborBond)
    : option (outcome (list NeighborBond)) :=
  match fuel with
  | O => None
  | Datatypes.S fuel =>
      if end_ it then Some (Returns local_bonds)
      else match next it with
           | Returns (np, it) =>
               collect fuel i it
                 (if negb m_exclude_ii || negb (i =? ref_id np)%nat
                  then local_bonds ++
                       [mkNeighborBond i (ref_id np) (distance np) default_weight]
                  else local_bonds)
           | Throws e => Some (Throws e)
           | Undefined => Some Undefined
           end
  end.

(** The first [parallel_for], run as one task over all query points in
    ascending order, with its single thread-local vector. *)
Fixpoint collect_all (fuel : nat) (i n : nat) (local_bonds : list NeighborBond)
    : option (outcome (list NeighborBond)) :=
  match n with
  | O => Some (Returns local_bonds)
  | Datatypes.S n' =>
      match query_idx i with
      | Returns it =>
          match collect fuel i it local_bonds with
          | Some (Returns local_bonds) =>
              match pop_back local_bonds with
              | Returns local_bonds => collect_all fuel (Datatypes.S i) n' local_bonds
              | Throws e => Some (Throws e)
              | Undefined => Some Undefined
              end
          | r => r
          end
      | Throws e => Some (Throws e)
      | Undefined => Some Undefined
      end
  end.

(** The second [parallel_for], over the bonds in ascending order. *)
Definition write_bond (linear_bonds : list NeighborBond)
    (nl : NeighborList_cc.NeighborList) (bond : nat) : NeighborList_cc.NeighborList :=
  match linear_bonds !! bond with
  | Some lb =>
      let nl := NeighborList_cc.set_neighbors nl
                  (<[bond := (id lb, ref_id lb)]> (NeighborList_cc.m_neighbors nl)) in
      NeighborList_cc.set_distances nl
        (<[bond := distance lb]> (NeighborList_cc.m_distances nl))
  | None => nl
  end.

(** [memset((void* ) neighbor_weights, 1, sizeof(float) * num_bonds)]:
    every byte of the first [num_bonds] weights becomes 1. *)
Definition memset_weights (nl : NeighborList_cc.NeighborList) (num_bonds : nat)
    : NeighborList_cc.NeighborList :=
  NeighborList_cc.set_weights nl
    (fold_left (fun w b => <[b := memset_float 1]> w) (seq 0 num_bonds)
       (NeighborList_cc.m_weights nl)).

Definition fill_lists (nl : NeighborList_cc.NeighborList)
    (linear_bonds : list NeighborBond) : NeighborList_cc.NeighborList :=
  let num_bonds := length linear_bonds in
  let nl := fold_left (write_bond linear_bonds) (seq 0 num_bonds) nl in
  memset_weights nl num_bonds.

(** [NeighborQueryIterator::toNeighborList()] *)
Definition toNeighborList (fuel : nat) : option (outcome NeighborList_cc.NeighborList) :=
  match collect_all fuel 0 m_n_query_points [] with
  | Some (Returns bonds) =>
      let linear_bonds := sort_by NeighborList_cc.compareNeighborBond bonds in
      let num_bonds := length linear_bonds in
      let nl := NeighborList_cc.NeighborList_default in
      let nl := NeighborList_cc.resize nl num_bonds default_reset in
      let nl := NeighborList_cc.setNumBonds default_reset nl num_bonds
                  m_n_query_points (getNPoints m_neighbor_query) in
      Some (Returns (fill_lists nl linear_bonds))
  | Some (Throws e) => Some (Throws e)
  | Some Undefined => Some Undefined
  | None => None
  end.

End toNeighborList.

(** The data members of a [NeighborQueryQueryIterator] that its
    [toNeighborList] touches. *)
Record NeighborQueryQueryIterator : Type := mkNeighborQueryQueryIterator {
  qi_neighbor_query : NeighborQuery;
  qi_n_query_points : nat;
  qi_exclude_ii : bool;
  m_k : nat
}.

Definition set_k (it : NeighborQueryQueryIterator) (k : nat) : NeighborQueryQueryIterator :=
  mkNeighborQueryQueryIterator (qi_neighbor_query it) (qi_n_query_points it)
    (qi_exclude_ii it) k.

(** [NeighborQueryQueryIterator::toNeighborList()].  [query_idx k idx] is
    the virtual [query(idx)] of an iterator whose [m_k] is [k]; the call
    returns its outcome and the iterator afterwards. *)
Definition QueryIterator_toNeighborList {S : Type} `{NeighborIterator S}
    (default_weight : float) (default_reset : bool)
    (query_idx : nat -> nat -> outcome S)
    (fuel : nat) (it : NeighborQueryQueryIterator)
    : option (outcome NeighborList_cc.NeighborList * NeighborQueryQueryIterator) :=
  let it := if qi_exclude_ii it then set_k it (uadd (m_k it) 1) else it in
  match toNeighborList default_weight default_reset (qi_neighbor_query it)
          (qi_n_query_points it) (qi_exclude_ii it) (query_idx (m_k it)) fuel with
  | Some (Returns nlist) => Some (Returns nlist, it)
  | Some (Throws e) =>
      let it := if qi_exclude_ii it then set_k it (usub (m_k it) 1) else it in
      Some (Throws e, it)
  | Some Undefined => Some (Undefined, it)
  | None => None
  end.

(** An iterator that hands out the bonds of a list one by one and then
    the terminator: the [next()]/[end()] protocol of the class comment. *)
Record ListIterator : Type := mkListIterator {
  li_terminator : NeighborBond;
  li_pending : list NeighborBond;
  li_finished : bool
}.

#[export] Instance ListIterator_ops : NeighborIterator ListIterator := {|
  end_ := li_finished;
  next := fun it =>
    match li_pending it with
    | b :: rest => Returns (b, mkListIterator (li_terminator it) rest false)
    | [] => Returns (li_terminator it, mkListIterator (li_terminator it) [] true)
    end
|}.

End NeighborQuery_h.

(** * NeighborComputeFunctional.h *)

Module NeighborComputeFunctional_h.
Import NeighborQuery_h.

(** ** [forLoopWrapper]

    [tbb::parallel_for] cuts the range into blocks and calls the body
    on every block; TBB fixes neither the blocks nor the order in which
    they run.  A [schedule] stands for its choice: the lengths of the
    blocks, each one more than the number given, the last block taking
    what is left of the range; and for every block the position it
    takes among the blocks after it.  Blocks may run at the same time;
    here they run one after the other, in the order of the schedule,
    which is what bodies that act on separate parts of the state
    amount to. *)
Record schedule : Type := mkSchedule {
  block_lengths : list nat;
  block_positions : list nat
}.

(** The range from [begin] to [end_] cut into consecutive blocks. *)
Fixpoint split_range (lengths : list nat) (begin end_ : nat) : list (nat * nat) :=
  match lengths with
  | [] => [(begin, end_)]
  | l :: lengths' =>
      if (begin + Datatypes.S l <? end_)%nat
      then (begin, begin + Datatypes.S l)
           :: split_range lengths' (begin + Datatypes.S l) end_
      else [(begin, end_)]
  end.

(** [x] put at position [p] of [l], at its end when [l] is shorter. *)
Definition place {A : Type} (x : A) (p : nat) (l : list A) : list A :=
  take p l ++ x :: drop p l.

Fixpoint shuffle {A : Type} (positions : list nat) (l : list A) : list A :=
  match l with
  | [] => []
  | x :: l' => place x (hd 0%nat positions) (shuffle (tl positions) l')
  end.

(** The blocks of a range, in the order in which they run. *)
Definition blocks (tbb : schedule) (begin end_ : nat) : list (nat * nat) :=
  shuffle (block_positions tbb) (split_range (block_lengths tbb) begin end_).

(** The body on one block after the other; an exception or undefined
    behaviour ends the run. *)
Fixpoint run_blocks {St : Type} (body : nat -> nat -> St -> option (outcome St))
    (bl : list (nat * nat)) (st : St) : option (outcome St) :=
  match bl with
  | [] => Some (Returns st)
  | (b, e) :: bl' =>
      match body b e st with
      | Some (Returns st') => run_blocks body bl' st'
      | r => r
      end
  end.

(** [forLoopWrapper(begin, end, body, parallel)], with the schedule
    [tbb] of the parallel run. *)
Definition forLoopWrapper {St : Type} (tbb : schedule) (begin end_ : nat)
    (body : nat -> nat -> St -> option (outcome St)) (parallel : bool) (st : St)
    : option (outcome St) :=
  if parallel then run_blocks body (blocks tbb begin end_) st
  else body begin end_ st.

Section loopOverNeighbors.
Context {S : Type} `{NeighborIterator S}.

(** [nb = it->next(); while (!it->end()) { cf(nb); nb = it->next(); }]:
    the bonds handed to [cf], in order. *)
Fixpoint drive (fuel : nat) (nb : NeighborBond) (it : S) (seen : list NeighborBond)
    : option (outcome (list NeighborBond)) :=
  match fuel with
  | O => None
  | Datatypes.S fuel =>
      if end_ it then Some (Returns seen)
      else match next it with
           | Returns (nb', it') => drive fuel nb' it' (seen ++ [nb])
           | Throws e => Some (Throws e)
           | Undefined => Some Undefined
           end
  end.

Fixpoint drive_all (query_idx : nat -> outcome S) (fuel : nat) (i n : nat)
    (seen : list NeighborBond) : option (outcome (list NeighborBond)) :=
  match n with
  | O => Some (Returns seen)
  | Datatypes.S n' =>
      match query_idx i with
      | Returns it =>
          match next it with
          | Returns (nb, it) =>
              match drive fuel nb it seen with
              | Some (Returns seen) => drive_all query_idx fuel (Datatypes.S i) n' seen
              | r => r
              end
          | Throws e => Some (Throws e)
          | Undefined => Some Undefined
          end
      | Throws e => Some (Throws e)
      | Undefined => Some Undefined
      end
  end.

(** [loopOverNeighbors]: the list of the bonds on which the compute
    function [cf] is called, in the order of the calls.  With a bond
    list the driver walks it; without one it drives the iterators
    [query_idx] hands out for the query points.  The body of either
    loop runs from [begin] to [end_]. *)
Definition loopOverNeighbors (tbb : schedule) (query_idx : nat -> outcome S)
    (n_query_points : nat) (nlist : option NeighborList_cc.NeighborList)
    (parallel : bool) (fuel : nat) : option (outcome (list NeighborBond)) :=
  match nlist with
  | Some nlist =>
      let n_bonds := NeighborList_cc.getNumBonds nlist in
      forLoopWrapper tbb 0 n_bonds
        (fun begin end_ seen =>
           Some (Returns (seen ++ map (NeighborList_cc.bond_at nlist)
                                    (seq begin (end_ - begin)))))
        parallel []
  | None =>
      forLoopWrapper tbb 0 n_query_points
        (fun begin end_ seen => drive_all query_idx fuel begin (end_ - begin) seen)
        parallel []
  end.

End loopOverNeighbors.

(** ** Iterating per query point *)

(** The idiom [for (nb = it->next(); !it->end(); nb = it->next()) body]
    from its first test on: [nb] is the bond [next] has just returned;
    [body] acts on a state of the caller. *)
Fixpoint neighbors_loop {S St : Type} `{NeighborIterator S}
    (body : NeighborBond -> St -> outcome St) (fuel : nat)
    (nb : NeighborBond) (it : S) (st : St) : option (outcome St) :=
  match fuel with
  | O => None
  | Datatypes.S fuel =>
      if end_ it then Some (Returns st)
      else match body nb st with
           | Returns st =>
               match next it with
               | Returns (nb', it') => neighbors_loop body fuel nb' it' st
               | Throws e => Some (Throws e)
               | Undefined => Some Undefined
               end
           | Throws e => Some (Throws e)
           | Undefined => Some Undefined
           end
  end.

(** The data members of [NeighborListPerPointIterator];
    [m_query_point_idx] is the member of its base class
    [NeighborPerPointIterator] (declared in the missing
    NeighborPerPointIterator.h). *)
Record NeighborListPerPointIterator : Type := mkNeighborListPerPointIterator {
  m_nlist : NeighborList_cc.NeighborList;
  m_query_point_idx : nat;
  m_current_index : nat;
  m_returned_point_index : nat;
  pp_finished : bool
}.

Section per_point.
(** What an access outside a [ManagedArray] does. *)
Variable outside : forall A : Type, outcome A.
(** [NeighborPerPointIterator::ITERATOR_TERMINATOR]. *)
Variable ITERATOR_TERMINATOR : NeighborBond.

(** The constructor [NeighborListPerPointIterator(nlist, point_index)];
    [fuel] is the fuel of [find_first_index], whose parameter is an
    [unsigned int]. *)
Definition NeighborListPerPointIterator_new (fuel : nat)
    (nlist : NeighborList_cc.NeighborList) (point_index : nat)
    : option (outcome NeighborListPerPointIterator) :=
  match NeighborList_cc.find_first_index outside fuel nlist
          (to_unsigned (Z.of_nat point_index)) with
  | Some (Returns current_index) =>
      Some (returned <-- NeighborList_cc.at2 outside
                           (NeighborList_cc.m_neighbors nlist) current_index 0 ;;
            Returns (mkNeighborListPerPointIterator nlist point_index current_index
                       returned
                       (current_index =? NeighborList_cc.getNumBonds nlist)%nat))
  | Some (Throws e) => Some (Throws e)
  | Some Undefined => Some Undefined
  | None => None
  end.

(** [NeighborListPerPointIterator::next()] *)
Definition per_point_next (it : NeighborListPerPointIterator)
    : outcome (NeighborBond * NeighborListPerPointIterator) :=
  let nlist := m_nlist it in
  if (m_current_index it =? NeighborList_cc.getNumBonds nlist)%nat
  then Returns (ITERATOR_TERMINATOR,
                mkNeighborListPerPointIterator nlist (m_query_point_idx it)
                  (m_current_index it) (m_returned_point_index it) true)
  else
    a <-- NeighborList_cc.at2 outside (NeighborList_cc.m_neighbors nlist)
            (m_current_index it) 0 ;;
    b <-- NeighborList_cc.at2 outside (NeighborList_cc.m_neighbors nlist)
            (m_current_index it) 1 ;;
    d <-- NeighborList_cc.at_ outside (NeighborList_cc.m_distances nlist)
            (m_current_index it) ;;
    w <-- NeighborList_cc.at_ outside (NeighborList_cc.m_weights nlist)
            (m_current_index it) ;;
    let nb := mkNeighborBond a b d w in
    Returns (nb,
             mkNeighborListPerPointIterator nlist (m_query_point_idx it)
               (Datatypes.S (m_current_index it)) (id nb) (pp_finished it)).

(** [NeighborListPerPointIterator::end()] *)
Definition per_point_end (it : NeighborListPerPointIterator) : bool :=
  negb (m_returned_point_index it =? m_query_point_idx it)%nat || pp_finished it.

Definition NeighborListPerPointIterator_ops
    : NeighborIterator NeighborListPerPointIterator := {|
  end_ := per_point_end;
  next := per_point_next
|}.

(** A compute function for [loopOverNeighborsIterator]: it is called
    with a query point index and an iterator of either kind, and acts
    on a state of the caller. *)
Definition PerPointCompute (St : Type) : Type :=
  forall S : Type, NeighborIterator S -> nat -> S -> St -> option (outcome St).

(** [for (size_t i = begin; i != end; ++i) { it = make(i); cf(i, it); }] *)
Fixpoint loop_points {S St : Type} (make : nat -> option (outcome S))
    (cf : nat -> S -> St -> option (outcome St)) (i n : nat) (st : St)
    : option (outcome St) :=
  match n with
  | O => Some (Returns st)
  | Datatypes.S n' =>
      match make i with
      | Some (Returns it) =>
          match cf i it st with
          | Some (Returns st) => loop_points make cf (Datatypes.S i) n' st
          | r => r
          end
      | Some (Throws e) => Some (Throws e)
      | Some Undefined => Some Undefined
      | None => None
      end
  end.

(** [loopOverNeighborsIterator].  With a bond list every query point
    gets a [NeighborListPerPointIterator]; without one it gets the
    iterator [query_idx] hands out.  The body of either loop runs from
    [begin] to [end_]. *)
Definition loopOverNeighborsIterator {S St : Type} `{NeighborIterator S}
    (tbb : schedule) (query_idx : nat -> outcome S) (n_query_points : nat)
    (nlist : option NeighborList_cc.NeighborList) (cf : PerPointCompute St)
    (parallel : bool) (fuel : nat) (st : St) : option (outcome St) :=
  match nlist with
  | Some nlist =>
      forLoopWrapper tbb 0 n_query_points
        (fun begin end_ =>
           loop_points (NeighborListPerPointIterator_new fuel nlist)
             (cf NeighborListPerPointIterator NeighborListPerPointIterator_ops)
             begin (end_ - begin))
        parallel st
  | None =>
      forLoopWrapper tbb 0 n_query_points
        (fun begin end_ =>
           loop_points (fun i => Some (query_idx i)) (cf S _) begin (end_ - begin))
        parallel st
  end.

End per_point.

End NeighborComputeFunctional_h.

(** * AABBQuery.cc *)

Module AABBQuery_cc.

(** ** AABB primitives and the tree

    AABB.h and AABBTree.h are not part of the sources at hand. *)

(** Modelled from the spec: an AABB is a lower/upper pair with a tag;
    [AABB(center, tag)] is the degenerate box of a point. *)
Record AABB : Type := mkAABB { lower : vec3; upper : vec3; tag : nat }.

Definition point_AABB (center : vec3) (tag : nat) : AABB := mkAABB center center tag.

Record AABBSphere : Type := mkAABBSphere { position : vec3; radius : float }.

(** The distance along one axis from the coordinate [c] to the interval
    [lo, hi]. *)
Definition axis_gap (F : FloatOps) (lo hi c : float) : float :=
  if Qltb c lo then fsub F lo c
  else if Qltb hi c then fsub F c hi
  else 0%Q.

(** Modelled from the spec: [overlap(box, sphere)] is true iff the
    squared distance from the center of the sphere to the closed box is
    at most the squared radius, both computed in floats. *)
Definition overlap (F : FloatOps) (b : AABB) (s : AABBSphere) : bool :=
  let gx := axis_gap F (vx (lower b)) (vx (upper b)) (vx (position s)) in
  let gy := axis_gap F (vy (lower b)) (vy (upper b)) (vy (position s)) in
  let gz := axis_gap F (vz (lower b)) (vz (upper b)) (vz (position s)) in
  Qle_bool (fadd F (fadd F (fmul F gx gx) (fmul F gy gy)) (fmul F gz gz))
    (fmul F (radius s) (radius s)).

(** Modelled from the spec: a node of the tree stores its AABB, a skip
    offset, a leaf flag and, for a leaf, the bucket of point indices. *)
Record AABBNode : Type := mkAABBNode {
  node_aabb : AABB;
  node_skip : nat;
  node_leaf : bool;
  node_particles : list nat
}.

Definition AABBTree : Type := list AABBNode.

Definition null_node : AABBNode :=
  mkAABBNode (mkAABB vzero vzero 0) 0 false [].

Definition getNumNodes (t : AABBTree) : nat := length t.
Definition getNodeAABB (t : AABBTree) (node : nat) : AABB :=
  node_aabb (nth node t null_node).
Definition isNodeLeaf (t : AABBTree) (node : nat) : bool :=
  node_leaf (nth node t null_node).
Definition getNodeSkip (t : AABBTree) (node : nat) : nat :=
  node_skip (nth node t null_node).
Definition getNodeNumParticles (t : AABBTree) (node : nat) : nat :=
  length (node_particles (nth node t null_node)).
Definition getNodeParticleTag (t : AABBTree) (node p : nat) : nat :=
  nth p (node_particles (nth node t null_node)) 0%nat.

(** ** The query object *)

(** [AABBQuery]: the data of [SpatialData] (box, reference points and
    their number) and the tree built over the points. *)
Record AABBQuery : Type := mkAABBQuery {
  m_box : Box;
  m_ref_points : list vec3;
  m_Nref : nat;
  m_aabb_tree : AABBTree
}.

(** The point the iterator reads through [m_spatial_data] at index [j]. *)
Definition ref_point (data : AABBQuery) (j : nat) : vec3 :=
  nth j (m_ref_points data) vzero.

(** The position [buildTree] gives point [i]: its coordinates, with
    [z = 0] in a 2D box. *)
Definition my_pos (data : AABBQuery) (i : nat) : vec3 :=
  let p := ref_point data i in
  if is2D (m_box data) then set_z p 0 else p.

(** The leaf AABBs [buildTree] hands to the tree builder. *)
Definition leaf_aabbs (data : AABBQuery) : list AABB :=
  map (fun i => point_AABB (my_pos data i) i) (seq 0 (m_Nref data)).

(** ** Image vectors *)

Definition bool_to_nat (b : bool) : nat := if b then 1 else 0.

Fixpoint pow3 (n_dim : nat) : nat :=
  match n_dim with
  | O => 1
  | S n => pow3 n * 3
  end.

(** The image list and the number of images of an [AABBIterator]. *)
Definition images : Type := (nat * list vec3)%type.

(** A [for (x = -1; x <= 1 && n_images < m_n_images; ++x)] loop over the
    state (n_images, m_image_list). *)
Definition image_for (m_n_images : nat) (body : Z -> images -> images)
    (st : images) : images :=
  fold_left (fun st x => if (st.1 <? m_n_images)%nat then body x st else st)
    [(-1)%Z; 0%Z; 1%Z] st.

(** The body of the innermost loop. *)
Definition image_body (box : Box) (latt_a latt_b latt_c : vec3) (i j k : Z)
    (st : images) : images :=
  if negb ((i =? 0)%Z && (j =? 0)%Z && (k =? 0)%Z)
  then
    if negb (i =? 0)%Z && negb (periodic_x box) then st
    else if negb (j =? 0)%Z && negb (periodic_y box) then st
    else if negb (k =? 0)%Z && (is2D box || negb (periodic_z box)) then st
    else
      (S st.1,
       <[st.1 := vadd (vadd (vscale (inject_Z i) latt_a) (vscale (inject_Z j) latt_b))
                      (vscale (inject_Z k) latt_c)]> st.2)
  else st.

(** The cutoff test at the head of [updateImageVectors]. *)
Definition rcut_too_large (box : Box) (rmax : float) : bool :=
  let npd := getNearestPlaneDistance box in
  (periodic_x box && Qle_bool (vx npd) (rmax * 2))
  || (periodic_y box && Qle_bool (vy npd) (rmax * 2))
  || (negb (is2D box) && periodic_z box && Qle_bool (vz npd) (rmax * 2)).

(** [AABBIterator::updateImageVectors(rmax)], from the image list the
    iterator holds to the new ([m_n_images], [m_image_list]). *)
Definition updateImageVectors (box : Box) (m_image_list : list vec3) (rmax : float)
    : outcome images :=
  if rcut_too_large box rmax
  then Throws (runtime_error "The AABBData rcut is too large for this box.")
  else
    let n_dim_periodic :=
      (bool_to_nat (periodic_x box) + bool_to_nat (periodic_y box)
       + bool_to_nat (negb (is2D box)) * bool_to_nat (periodic_z box))%nat in
    let m_n_images := pow3 n_dim_periodic in
    let m_image_list :=
      if (length m_image_list <? m_n_images)%nat
      then m_image_list ++ replicate (m_n_images - length m_image_list) vzero
      else m_image_list in
    let latt_a := getLatticeVector box 0 in
    let latt_b := getLatticeVector box 1 in
    let latt_c := if negb (is2D box) then getLatticeVector box 2 else vzero in
    let m_image_list := <[0%nat := vzero]> m_image_list in
    let st :=
      image_for m_n_images (fun i =>
        image_for m_n_images (fun j =>
          image_for m_n_images (fun k =>
            image_body box latt_a latt_b latt_c i j k)))
        (1%nat, m_image_list) in
    Returns (m_n_images, st.2).

(** ** The ball iterator *)

(** Modelled from the spec: the neighbor a query yields, a point index
    and a distance ([NeighborPoint], declared in the missing
    SpatialData.h). *)
Record NeighborPoint : Type := mkNeighborPoint { point_id : nat; point_distance : float }.

(** Modelled from the spec: the order of [NeighborPoint], by
    (distance, point index). *)
Definition NeighborPoint_less (a b : NeighborPoint) : bool :=
  Qltb (point_distance a) (point_distance b)
  || (Qeq_bool (point_distance a) (point_distance b)
      && (point_id a <? point_id b)%nat).

Record AABBQueryBallIterator : Type := mkBallIterator {
  b_point : vec3;
  b_r : float;
  b_n_images : nat;
  b_image_list : list vec3;
  cur_image : nat;
  cur_node_idx : nat;
  cur_p : nat;
  b_finished : bool
}.

(** The data members of [AABBQueryIterator]. *)
Record AABBQueryIterator : Type := mkQueryIterator {
  q_point : vec3;
  m_k : nat;
  m_r : float;
  m_scale : float;
  m_current_neighbors : list NeighborPoint;
  q_finished : bool
}.

Definition set_current_neighbors (it : AABBQueryIterator) (v : list NeighborPoint)
    : AABBQueryIterator :=
  mkQueryIterator (q_point it) (m_k it) (m_r it) (m_scale it) v (q_finished it).
Definition set_r (it : AABBQueryIterator) (r : float) : AABBQueryIterator :=
  mkQueryIterator (q_point it) (m_k it) r (m_scale it) (m_current_neighbors it)
    (q_finished it).
Definition set_finished (it : AABBQueryIterator) (f : bool) : AABBQueryIterator :=
  mkQueryIterator (q_point it) (m_k it) (m_r it) (m_scale it)
    (m_current_neighbors it) f.

(** [std::min] on floats. *)
Definition fmin (a b : float) : float := if Qltb b a then b else a.

Section iterators.
(** The arithmetic of [float], [sqrt] on floats, and
    [SpatialData::ITERATOR_TERMINATOR]. *)
Variable F : FloatOps.
Variable sqrt : float -> float.
Variable ITERATOR_TERMINATOR : NeighborPoint.
Variable data : AABBQuery.

(** Modelled from the spec: constructing a ball iterator runs the
    image-vector check for its radius (the constructor is in the
    missing AABBQuery.h). *)
Definition queryBall (point : vec3) (r : float) : outcome AABBQueryBallIterator :=
  imgs <-- updateImageVectors (m_box data) [] r ;;
  Returns (mkBallIterator point r imgs.1 imgs.2 0 0 0 false).

(** The squared distance from the image [pos_i_image] of the query
    point to point [j]. *)
Definition dr_sq (pos_i_image : vec3) (j : nat) : float :=
  let pos_j := ref_point data j in
  let pos_j := if is2D (m_box data) then set_z pos_j 0 else pos_j in
  let drij := fvsub F pos_j pos_i_image in
  fdot F drij drij.

(** [while (cur_p < getNodeNumParticles(cur_node_idx))], with [n]
    iterations left: either [next] returns from inside the loop (a
    neighbor and the new [cur_p]), or the loop ends. *)
Fixpoint particle_loop (n : nat) (r_cutsq : float) (pos_i_image : vec3)
    (node p : nat) : NeighborPoint * nat + nat :=
  match n with
  | O => inr p
  | S n' =>
      let j := getNodeParticleTag (m_aabb_tree data) node p in
      let d := dr_sq pos_i_image j in
      if Qltb d r_cutsq
      then inl (mkNeighborPoint j (sqrt d), S p)
      else particle_loop n' r_cutsq pos_i_image node (S p)
  end.

(** [while (cur_node_idx < getNumNodes())]: every iteration advances
    the node index, so [fuel] = the number of nodes not yet passed
    bounds the iterations. *)
Fixpoint node_loop (fuel : nat) (r_cutsq : float) (pos_i_image : vec3)
    (asphere : AABBSphere) (node p : nat) : NeighborPoint * (nat * nat) + nat * nat :=
  match fuel with
  | O => inr (node, p)
  | S fuel' =>
      let t := m_aabb_tree data in
      if (node <? getNumNodes t)%nat then
        if overlap F (getNodeAABB t node) asphere then
          if isNodeLeaf t node then
            match particle_loop (getNodeNumParticles t node - p) r_cutsq
                    pos_i_image node p with
            | inl (np, p') => inl (np, (node, p'))
            | inr _ => node_loop fuel' r_cutsq pos_i_image asphere (S node) 0
            end
          else node_loop fuel' r_cutsq pos_i_image asphere (S node) 0
        else
          node_loop fuel' r_cutsq pos_i_image asphere
            (S (node + getNodeSkip t node)) 0
      else inr (node, p)
  end.

(** [while (cur_image < m_n_images)], with [fuel] images left. *)
Fixpoint image_loop (fuel : nat) (it : AABBQueryBallIterator) (r_cutsq : float)
    (pos_i : vec3) (image node p : nat)
    : NeighborPoint * (nat * nat * nat) + nat * nat * nat :=
  match fuel with
  | O => inr (image, node, p)
  | S fuel' =>
      if (image <? b_n_images it)%nat then
        let pos_i_image := fvadd F pos_i (nth image (b_image_list it) vzero) in
        let asphere := mkAABBSphere pos_i_image (b_r it) in
        match node_loop (getNumNodes (m_aabb_tree data) - node)
                r_cutsq pos_i_image asphere node p with
        | inl (np, (node', p')) => inl (np, (image, node', p'))
        | inr (_, p') => image_loop fuel' it r_cutsq pos_i (S image) 0 p'
        end
      else inr (image, node, p)
  end.

(** [AABBQueryBallIterator::next()] *)
Definition ball_next (it : AABBQueryBallIterator)
    : NeighborPoint * AABBQueryBallIterator :=
  let r_cutsq := fmul F (b_r it) (b_r it) in
  let pos_i := b_point it in
  let pos_i := if is2D (m_box data) then set_z pos_i 0 else pos_i in
  match image_loop (b_n_images it - cur_image it) it r_cutsq pos_i
          (cur_image it) (cur_node_idx it) (cur_p it) with
  | inl (np, (image, node, p)) =>
      (np, mkBallIterator (b_point it) (b_r it) (b_n_images it) (b_image_list it)
             image node p (b_finished it))
  | inr (image, node, p) =>
      (ITERATOR_TERMINATOR,
       mkBallIterator (b_point it) (b_r it) (b_n_images it) (b_image_list it)
         image node p true)
  end.

(** [while (!ball_it->end()) v.emplace_back(ball_it->next());] *)
Fixpoint ball_collect (fuel : nat) (it : AABBQueryBallIterator)
    (v : list NeighborPoint) : option (list NeighborPoint) :=
  match fuel with
  | O => None
  | S fuel' =>
      if b_finished it then Some v
      else let '(np, it') := ball_next it in ball_collect fuel' it' (v ++ [np])
  end.

(** The neighbors a ball iterator yields before the terminator: the
    collection above with its last item, the terminator, removed. *)
Definition ball_yield (fuel : nat) (it : AABBQueryBallIterator)
    : option (list NeighborPoint) :=
  match ball_collect fuel it [] with
  | Some v => Some (removelast v)
  | None => None
  end.

(** ** The k-nearest-neighbor iterator *)

(** The [while (true)] loop of [AABBQueryIterator::next]: ball queries
    at a growing radius.  [fuel] bounds the number of rounds and
    [steps] the calls of [next] on each ball iterator; the result is
    how the loop is left and the iterator at that moment. *)
Fixpoint expand (fuel steps : nat) (min_plane_distance : float)
    (it : AABBQueryIterator) : option (outcome unit * AABBQueryIterator) :=
  match fuel with
  | O => None
  | S fuel' =>
      let it := set_current_neighbors it [] in
      match queryBall (q_point it) (m_r it) with
      | Returns ball_it =>
          match ball_collect steps ball_it (m_current_neighbors it) with
          | Some v =>
              let it := set_current_neighbors it (removelast v) in
              if (m_k it <=? length (m_current_neighbors it))%nat
              then Some (Returns tt, it)
              else
                let it := set_r it (fmul F (m_r it) (m_scale it)) in
                if Qltb (fdiv F min_plane_distance 2) (m_r it)
                then Some (Returns tt, it)
                else expand fuel' steps min_plane_distance it
          | None => None
          end
      | Throws e => Some (Throws e, it)
      | Undefined => Some (Undefined, it)
      end
  end.

(** [AABBQueryIterator::next()].  Control that reaches the closing
    brace of the function without a [return] is [Undefined]. *)
Definition knn_next (fuel steps : nat) (it : AABBQueryIterator)
    : option (outcome NeighborPoint * AABBQueryIterator) :=
  let plane_distance := getNearestPlaneDistance (m_box data) in
  let min_plane_distance :=
    fmin (fmin (vx plane_distance) (vy plane_distance)) (vz plane_distance) in
  if q_finished it then Some (Returns ITERATOR_TERMINATOR, it)
  else
    let filled :=
      if (length (m_current_neighbors it) =? 0)%nat
      then expand fuel steps min_plane_distance it
      else Some (Returns tt, it) in
    match filled with
    | Some (Returns _, it) =>
        if negb (length (m_current_neighbors it) =? 0)%nat
        then
          (* std::sort over the reverse iterators: descending order *)
          let sorted := rev (sort_by NeighborPoint_less (m_current_neighbors it)) in
          let ret_obj := List.last sorted ITERATOR_TERMINATOR in
          let it := set_current_neighbors it (removelast sorted) in
          let it := if (length (m_current_neighbors it) =? 0)%nat
                    then set_finished it true else it in
          Some (Returns ret_obj, it)
        else Some (Undefined, it)
    | Some (Throws e, it) => Some (Throws e, it)
    | Some (Undefined, it) => Some (Undefined, it)
    | None => None
    end.

(** A consumer loop [while (!it->end()) v.emplace_back(it->next());]
    over a k-nearest iterator, [calls] bounding the calls of [next]. *)
Fixpoint knn_collect (calls fuel steps : nat) (it : AABBQueryIterator)
    (v : list NeighborPoint)
    : option (outcome (list NeighborPoint) * AABBQueryIterator) :=
  match calls with
  | O => None
  | S calls' =>
      if q_finished it then Some (Returns v, it)
      else match knn_next fuel steps it with
           | Some (Returns np, it') => knn_collect calls' fuel steps it' (v ++ [np])
           | Some (Throws e, it') => Some (Throws e, it')
           | Some (Undefined, it') => Some (Undefined, it')
           | None => None
           end
  end.

End iterators.

End AABBQuery_cc.

(** * HexaticTranslational.cc *)

Module HexaticTranslational_cc.
Import NeighborComputeFunctional_h.

(** ** [std::complex<float>] *)

Record complex : Type := mkcomplex { re : float; im : float }.

Arguments mkcomplex (re im)%_Q.

Definition czero : complex := mkcomplex 0 0.
Definition cadd (a b : complex) : complex := mkcomplex (re a + re b) (im a + im b).
(** [w * z] for a [float] and a complex number. *)
Definition cscale (w : float) (z : complex) : complex := mkcomplex (w * re z) (w * im z).

(** An element of [m_psi_array].  Floats are idealised as rationals,
    which have neither infinities nor NaN: [None] stands for a complex
    number with a component that is not finite. *)
Definition psi : Type := option complex.

(** [v += z] *)
Definition psi_add (v : psi) (z : complex) : psi :=
  match v with
  | Some c => Some (cadd c z)
  | None => None
  end.

(** [v /= std::complex<float>(c)]: the quotient by a real number; by
    zero it is not finite. *)
Definition psi_div (v : psi) (c : float) : psi :=
  match v with
  | Some z => if Qeq_bool c 0 then None else Some (mkcomplex (re z / c) (im z / c))
  | None => None
  end.

(** The data members of [HexaticTranslational<T>]. *)
Record HexaticTranslational (K : Type) : Type := mkHexaticTranslational {
  m_k : K;
  m_weighted : bool;
  m_psi_array : list psi
}.

Arguments mkHexaticTranslational {K} m_k m_weighted m_psi_array.
Arguments m_k {K} h.
Arguments m_weighted {K} h.
Arguments m_psi_array {K} h.

Section computeGeneral.
(** The schedule of the parallel run of [loopOverNeighborsIterator]. *)
Variable tbb : schedule.
(** What an access outside a [ManagedArray] does, and the default of
    the second argument of [ManagedArray::prepare]. *)
Variable outside : forall A : Type, outcome A.
Variable default_reset : bool.
(** Box.h is not part of the sources at hand: [box.enforce2D()] and
    [box.wrap(v)]. *)
Variable enforce2D : Box -> outcome unit.
Variable wrap : Box -> vec3 -> vec3.
(** [NeighborPerPointIterator::ITERATOR_TERMINATOR]. *)
Variable ITERATOR_TERMINATOR : NeighborBond.
(** The template parameter [T] and the conversion in
    [std::complex<float>(m_k)]. *)
Context {K : Type}.
Variable k_to_float : K -> float.

(** The body of the loop over the neighbors of query point [i]; the
    state is [m_psi_array] and [total_weight].  The point index of a
    bond is its [ref_id] (the second column of the bond array). *)
Definition psi_body (points : NeighborQuery_h.NeighborQuery) (func : vec3 -> complex)
    (weighted : bool) (i : nat) (ref : vec3) (nb : NeighborBond)
    (st : list psi * float) : outcome (list psi * float) :=
  p <-- NeighborQuery_h.index_op points (ref_id nb) ;;
  let delta := wrap (NeighborQuery_h.m_box points) (vsub p ref) in
  let w := if weighted then weight nb else 1%Q in
  v <-- NeighborList_cc.at_ outside st.1 i ;;
  arr <-- NeighborList_cc.put outside st.1 i (psi_add v (cscale w (func delta))) ;;
  Returns (arr, (st.2 + w)%Q).

(** The compute function [computeGeneral] hands to
    [loopOverNeighborsIterator]. *)
Definition compute_point (obj : HexaticTranslational K)
    (points : NeighborQuery_h.NeighborQuery) (func : vec3 -> complex) (fuel : nat)
    : PerPointCompute (list psi) :=
  fun S H i ppiter arr =>
    match NeighborQuery_h.index_op points i with
    | Returns ref =>
        match NeighborQuery_h.next ppiter with
        | Returns (nb, it) =>
            match neighbors_loop (psi_body points func (m_weighted obj) i ref)
                    fuel nb it (arr, 0%Q) with
            | Some (Returns (arr, total_weight)) =>
                Some (v <-- NeighborList_cc.at_ outside arr i ;;
                      NeighborList_cc.put outside arr i
                        (psi_div v (if m_weighted obj then total_weight
                                    else k_to_float (m_k obj))))
            | Some (Throws e) => Some (Throws e)
            | Some Undefined => Some Undefined
            | None => None
            end
        | Throws e => Some (Throws e)
        | Undefined => Some Undefined
        end
    | Throws e => Some (Throws e)
    | Undefined => Some Undefined
    end.

(** [HexaticTranslational<T>::computeGeneral(func, nlist, points,
    qargs)]; [query_idx] stands for the iterators the query with
    [qargs] hands out when there is no bond list. *)
Definition computeGeneral {S : Type} `{NeighborQuery_h.NeighborIterator S}
    (func : vec3 -> complex) (nlist : option NeighborList_cc.NeighborList)
    (points : NeighborQuery_h.NeighborQuery) (query_idx : nat -> outcome S)
    (fuel : nat) (obj : HexaticTranslational K)
    : option (outcome (HexaticTranslational K)) :=
  let box := NeighborQuery_h.m_box points in
  match enforce2D box with
  | Returns _ =>
      let Np := NeighborQuery_h.getNPoints points in
      let arr := NeighborList_cc.prepare (Some czero) Np default_reset
                   (m_psi_array obj) in
      match loopOverNeighborsIterator outside ITERATOR_TERMINATOR tbb query_idx Np
              nlist (compute_point obj points func fuel) true fuel arr with
      | Some (Returns arr) =>
          Some (Returns (mkHexaticTranslational (m_k obj) (m_weighted obj) arr))
      | Some (Throws e) => Some (Throws e)
      | Some Undefined => Some Undefined
      | None => None
      end
  | Throws e => Some (Throws e)
  | Undefined => Some Undefined
  end.

End computeGeneral.

Section orders.
Variable tbb : schedule.
Variable outside : forall A : Type, outcome A.
Variable default_reset : bool.
Variable enforce2D : Box -> outcome unit.
Variable wrap : Box -> vec3 -> vec3.
Variable ITERATOR_TERMINATOR : NeighborBond.
(** [std::atan2] on floats and [std::exp] on complex numbers. *)
Variable atan2 : float -> float -> float.
Variable cexp : complex -> complex.

(** [Hexatic::compute(nlist, points, qargs)] *)
Definition Hexatic_compute {S : Type} `{NeighborQuery_h.NeighborIterator S}
    (nlist : option NeighborList_cc.NeighborList)
    (points : NeighborQuery_h.NeighborQuery) (query_idx : nat -> outcome S)
    (fuel : nat) (obj : HexaticTranslational nat)
    : option (outcome (HexaticTranslational nat)) :=
  computeGeneral tbb outside default_reset enforce2D wrap ITERATOR_TERMINATOR
    (fun k => inject_Z (Z.of_nat k))
    (fun delta =>
       let psi_ij := atan2 (vy delta) (vx delta) in
       cexp (mkcomplex 0 (inject_Z (Z.of_nat (m_k obj)) * psi_ij)))
    nlist points query_idx fuel obj.

(** [Translational::compute(nlist, points, qargs)] *)
Definition Translational_compute {S : Type} `{NeighborQuery_h.NeighborIterator S}
    (nlist : option NeighborList_cc.NeighborList)
    (points : NeighborQuery_h.NeighborQuery) (query_idx : nat -> outcome S)
    (fuel : nat) (obj : HexaticTranslational float)
    : option (outcome (HexaticTranslational float)) :=
  computeGeneral tbb outside default_reset enforce2D wrap ITERATOR_TERMINATOR
    (fun k => k)
    (fun delta => mkcomplex (vx delta) (vy delta))
    nlist points query_idx fuel obj.

End orders.

End HexaticTranslational_cc.

(** * The bond list, as the spec words it *)

Module ListSpec.
Import NeighborList_cc.

(** The invariant of the class: the three bond arrays have one length. *)
Definition consistent (nl : NeighborList) : Prop :=
  length (m_weights nl) = getNumBonds nl /\
  length (m_distances nl) = getNumBonds nl.

(** A distance strictly inside the open interval ([r_min], [r_max]). *)
Definition in_range (r_max r_min : float) (b : NeighborBond) : bool :=
  Qltb r_min (distance b) && Qltb (distance b) r_max.

End ListSpec.

(** * Image enumeration, as the spec words it *)

Module ImageSpec.

(** The count [d] of periodic dimensions; [z] counts only in 3D. *)
Definition n_dim_periodic (box : Box) : nat :=
  (AABBQuery_cc.bool_to_nat (periodic_x box)
   + AABBQuery_cc.bool_to_nat (periodic_y box)
   + AABBQuery_cc.bool_to_nat (negb (is2D box) && periodic_z box))%nat.

(** The coefficients an axis contributes. *)
Definition axis_range (periodic : bool) : list Z :=
  if periodic then [(-1)%Z; 0%Z; 1%Z] else [0%Z].

(** The shift [i a + j b + k c]. *)
Definition shift (box : Box) (i j k : Z) : vec3 :=
  vadd (vadd (vscale (inject_Z i) (getLatticeVector box 0))
             (vscale (inject_Z j) (getLatticeVector box 1)))
       (vscale (inject_Z k) (if is2D box then vzero else getLatticeVector box 2)).

(** The zero shift first, then the other shifts with coefficients in
    {-1, 0, 1} on the periodic axes, in lexicographic order. *)
Definition shift_list (box : Box) : list vec3 :=
  vzero ::
  flat_map (fun i =>
    flat_map (fun j =>
      flat_map (fun k =>
        if ((i =? 0) && (j =? 0) && (k =? 0))%Z then [] else [shift box i j k])
        (axis_range (negb (is2D box) && periodic_z box)))
      (axis_range (periodic_y box)))
    (axis_range (periodic_x box)).

End ImageSpec.

(** * The ball query, as the spec words it *)

Module BallSpec.
Import AABBQuery_cc.

(** In a 2D box all z coordinates are treated as zero. *)
Definition flatten (box : Box) (v : vec3) : vec3 :=
  if is2D box then set_z v 0 else v.



(** ** The invariants of the tree (spec section 3) *)


(** The bucket of a leaf; an internal node holds no points. *)
Definition leaf_tags (nd : AABBNode) : list nat :=
  if node_leaf nd then node_particles nd else [].




(** ** The cutoff test in float arithmetic *)

Section cutoff.
Variable F : FloatOps.
Variable sqrt : float -> float.
Variable data : AABBQuery.


(** A miss at the node of index [idx] for the sphere of radius [r] at
    [c] loses no neighbor: the AABB of the node overlaps the sphere, or
    no point in the buckets the miss bypasses passes the cutoff test. *)
Definition miss_safe (r : float) (c : vec3) (idx : nat) : bool :=
  let t := m_aabb_tree data in
  overlap F (getNodeAABB t idx) (mkAABBSphere c r)
  || forallb (fun nd =>
       forallb (fun j => negb (Qltb (dr_sq F data c j) (fmul F r r))) (leaf_tags nd))
       (take (S (getNodeSkip t idx)) (drop idx t)).

(** No miss loses a neighbor, for the query point [q] under every
    image shift of [imgs]. *)
Definition prune_sound (q : vec3) (r : float) (imgs : list vec3) : bool :=
  forallb (fun s =>
    forallb (miss_safe r (fvadd F (flatten (m_box data) q) s))
      (seq 0 (getNumNodes (m_aabb_tree data))))
    imgs.

End cutoff.

(** ** The rounds of the k-nearest-neighbor loop *)

(** The smallest plane distance [next] computes. *)
Definition min_plane_distance (data : AABBQuery) : float :=
  let plane_distance := getNearestPlaneDistance (m_box data) in
  fmin (fmin (vx plane_distance) (vy plane_distance)) (vz plane_distance).



End BallSpec.

(** * The query-index column of a bond list *)

Module IndexSpec.
Import NeighborList_cc.

(** The query-index column of the bond array. *)
Definition ids (nl : NeighborList) : list nat := map fst (m_neighbors nl).

(** The order the constructor from flat arrays checks: no query index
    below the one before it. *)
Fixpoint nondecreasing (l : list nat) : bool :=
  match l with
  | a :: (b :: _) as t => (a <=? b)%nat && nondecreasing t
  | _ => true
  end.

(** How many entries of [l] are below [q], and how many equal it. *)
Definition below (q : nat) (l : list nat) : nat :=
  length (List.filter (fun y => (y <? q)%nat) l).
Definition count (q : nat) (l : list nat) : nat :=
  length (List.filter (fun y => (y =? q)%nat) l).

(** Every query index addresses a slot of [m_segments] and of
    [m_counts] and fits an [int]. *)
Definition indexable (nl : NeighborList) : bool :=
  forallb (fun q => (q <? length (m_segments nl))%nat
                    && (q <? length (m_counts nl))%nat
                    && (Z.of_nat q <=? 2147483647)%Z) (ids nl).

End IndexSpec.

(** * Traversals of a bond list *)

Module TraversalSpec.
Import NeighborQuery_h NeighborComputeFunctional_h IndexSpec.

(** The bodies of a loop over the neighbors in [l], one after the
    other. *)
Fixpoint fold_body {St : Type} (body : NeighborBond -> St -> outcome St)
    (l : list NeighborBond) (st : St) : outcome St :=
  match l with
  | [] => Returns st
  | nb :: l => st <-- body nb st ;; fold_body body l st
  end.

(** The indices of a block, and the indices of a range in the order
    in which a schedule runs them. *)
Definition block_range (b : nat * nat) : list nat := seq b.1 (b.2 - b.1).

Definition scheduled (tbb : schedule) (begin end_ : nat) : list nat :=
  flat_map block_range (blocks tbb begin end_).

(** The steps of a loop over the indices in [idxs], one after the
    other. *)
Fixpoint run_indices {St : Type} (step : nat -> St -> option (outcome St))
    (idxs : list nat) (st : St) : option (outcome St) :=
  match idxs with
  | [] => Some (Returns st)
  | i :: idxs' =>
      match step i st with
      | Some (Returns st') => run_indices step idxs' st'
      | r => r
      end
  end.

(** A query point can start its iteration when the constructor's read
    of [m_neighbors(m_current_index, 0)] is inside the array: some
    bond has a query index that is at least [i].  Otherwise the read
    is outside the array, and the iteration depends on what that read
    does. *)
Definition startable (outside : forall A : Type, outcome A)
    (nl : NeighborList_cc.NeighborList) (i : nat) : Prop :=
  (exists j, (j < NeighborList_cc.getNumBonds nl)%nat /\ (i <= nth j (ids nl) 0)%nat)
  \/ exists g, outside nat = Returns g.

(** The compute function that hands each bond of a query point to a
    per-pair function, as the live path of [loopOverNeighbors] does. *)
Definition per_pair (fuel : nat) : PerPointCompute (list NeighborBond) :=
  fun S H i it seen =>
    match next it with
    | Returns (nb, it') => drive fuel nb it' seen
    | Throws e => Some (Throws e)
    | Undefined => Some Undefined
    end.

End TraversalSpec.

(** * The order parameter of a point from its bonds *)

Module OrderSpec.
Import HexaticTranslational_cc.

Section sums.
Variable wrap : Box -> vec3 -> vec3.
Variable points : NeighborQuery_h.NeighborQuery.
Variable func : vec3 -> complex.
Variable weighted : bool.

(** The weight a bond counts with. *)
Definition bond_weight (b : NeighborBond) : float :=
  if weighted then weight b else 1%Q.

(** The vector from query point [i] to the point of a bond, wrapped
    into the box. *)
Definition bond_delta (i : nat) (b : NeighborBond) : vec3 :=
  wrap (NeighborQuery_h.m_box points)
    (vsub (nth (ref_id b) (NeighborQuery_h.m_points points) vzero)
          (nth i (NeighborQuery_h.m_points points) vzero)).

(** The weighted sum of [func] over the bonds [bs] of query point [i],
    added up in the order of [bs] from [z] on, and the sum of the
    weights from [t] on. *)
Definition psi_sum (i : nat) (bs : list NeighborBond) (z : complex) : complex :=
  fold_left (fun acc b => cadd acc (cscale (bond_weight b) (func (bond_delta i b)))) bs z.

Definition weight_sum (bs : list NeighborBond) (t : float) : float :=
  fold_left (fun t b => (t + bond_weight b)%Q) bs t.

End sums.

(** The order parameter of query point [i] from its bonds [bs]. *)
Definition order_parameter {K : Type} (wrap : Box -> vec3 -> vec3)
    (k_to_float : K -> float) (obj : HexaticTranslational K)
    (points : NeighborQuery_h.NeighborQuery) (func : vec3 -> complex)
    (i : nat) (bs : list NeighborBond) : psi :=
  psi_div (Some (psi_sum wrap points func (m_weighted obj) i bs czero))
    (if m_weighted obj then weight_sum true bs 0 else k_to_float (m_k obj)).

(** The bonds of query point [i] in a list. *)
Definition bonds_of (nl : NeighborList_cc.NeighborList) (i : nat) : list NeighborBond :=
  List.filter (fun b => (id b =? i)%nat) (NeighborList_cc.bonds nl).

(** Two elements of [m_psi_array] that hold the same numbers. *)
Definition psi_equiv (a b : psi) : Prop :=
  match a, b with
  | Some x, Some y => (re x == re y)%Q /\ (im x == im y)%Q
  | None, None => True
  | _, _ => False
  end.

(** A bond list with every weight multiplied by [c]. *)
Definition scale_weights (c : float) (nl : NeighborList_cc.NeighborList)
    : NeighborList_cc.NeighborList :=
  NeighborList_cc.set_weights nl (map (Qmult c) (NeighborList_cc.m_weights nl)).

(** A bond list that fits a set of points: the view holds its points,
    the list is sorted by query index with arrays of one length and at
    most 2^31 bonds, and every point index addresses a point. *)
Definition fits (points : NeighborQuery_h.NeighborQuery)
    (nl : NeighborList_cc.NeighborList) : Prop :=
  length (NeighborQuery_h.m_points points) = NeighborQuery_h.m_n_points points
  /\ ListSpec.consistent nl
  /\ IndexSpec.nondecreasing (IndexSpec.ids nl) = true
  /\ (Z.of_nat (NeighborList_cc.getNumBonds nl) <= 2147483648)%Z
  /\ (Z.of_nat (NeighborQuery_h.m_n_points points) <= UINT_MAX + 1)%Z
  /\ (forall b, In b (NeighborList_cc.bonds nl) ->
        (ref_id b < NeighborQuery_h.m_n_points points)%nat).

(** The iterator of every query point can start: for every point some
    bond has a query index that is at least the index of the point (the
    last point has a bond), or a read outside the array returns. *)
Definition all_startable (outside : forall A : Type, outcome A)
    (points : NeighborQuery_h.NeighborQuery) (nl : NeighborList_cc.NeighborList) : Prop :=
  forall i, (i < NeighborQuery_h.m_n_points points)%nat ->
    TraversalSpec.startable outside nl i.

(** What a run of [computeGeneral] that returns needs of a bond list
    and a set of points. *)
Definition well_formed (outside : forall A : Type, outcome A)
    (points : NeighborQuery_h.NeighborQuery) (nl : NeighborList_cc.NeighborList) : Prop :=
  fits points nl /\ all_startable outside points nl.

(** What a call ends in when a read outside an array does not
    return. *)
Definition outcome_of_read {A : Type} (outside : forall A : Type, outcome A)
    : outcome A :=
  match outside nat with
  | Throws e => Throws e
  | _ => Undefined
  end.

End OrderSpec.

(** * Concrete scenes *)

Module Scenes.
Import AABBQuery_cc.

(** The integer square root of the integer part: a [sqrt] that is exact
    on the squares of integers. *)
Definition isqrt (x : float) : float := inject_Z (Z.sqrt (Qfloor x)).

(** An open (non-periodic) cubic box of edge [l]. *)
Definition open_cube (l : float) : Box :=
  mkBox (fun i => match i with
                  | O => mkvec3 l 0 0
                  | S O => mkvec3 0 l 0
                  | _ => mkvec3 0 0 l
                  end)
        (mkvec3 l l l) false false false false.

(** A cubic box of edge [l], periodic along all three axes. *)
Definition periodic_cube (l : float) : Box :=
  mkBox (getLatticeVector (open_cube l)) (mkvec3 l l l) true true true false.

(** Scenario S2 of the spec, in units of 0.01: two points near opposite
    faces of a periodic box, in one leaf. *)
Definition s2_data : AABBQuery :=
  mkAABBQuery (periodic_cube 100) [mkvec3 5 0 0; mkvec3 95 0 0] 2
    [mkAABBNode (mkAABB (mkvec3 5 0 0) (mkvec3 95 0 0) 0) 0 true [0%nat; 1%nat]].

(** Scenario S1 of the spec, in units of 0.1: three points on the x
    axis in an open box, under a root with one leaf per side. *)
Definition s1_points : list vec3 := [mkvec3 0 0 0; mkvec3 5 0 0; mkvec3 9 0 0].

Definition s1_tree : AABBTree :=
  [ mkAABBNode (mkAABB (mkvec3 0 0 0) (mkvec3 9 0 0) 0) 2 false [];
    mkAABBNode (mkAABB (mkvec3 0 0 0) (mkvec3 0 0 0) 0) 0 true [0%nat];
    mkAABBNode (mkAABB (mkvec3 5 0 0) (mkvec3 9 0 0) 1) 0 true [1%nat; 2%nat] ].

Definition s1_data : AABBQuery := mkAABBQuery (open_cube 10) s1_points 3 s1_tree.

Definition s1_query : vec3 := mkvec3 3 0 0.

(** The terminator used in the scenes. *)
Definition scene_terminator : NeighborPoint := mkNeighborPoint 0 (-1).

(** Scenario S6 of the spec: ten bonds at distances 0.1, ..., 1.0. *)
Definition ten_bonds : NeighborList_cc.NeighborList :=
  NeighborList_cc.mkNeighborList 10 1
    (map (fun j => (0%nat, j)) (seq 0 10))
    (replicate 10 1%Q)
    [1 # 10; 2 # 10; 3 # 10; 4 # 10; 5 # 10; 6 # 10; 7 # 10; 8 # 10; 9 # 10; 10 # 10]%Q
    [10%nat] [0%nat].

(** A toy back end: its iterators are the tag of the query that made
    them. *)
Definition tagged_ops
    : NeighborQuery_h.NeighborQueryOps (NeighborQuery_h.QueryType * nat) := {|
  NeighborQuery_h.query := fun _ _ k _ => Returns (NeighborQuery_h.nearest, k);
  NeighborQuery_h.queryBall := fun _ _ _ _ => Returns (NeighborQuery_h.ball, 0%nat)
|}.

(** The [query(idx)] of the base class [NeighborQueryIterator], which
    throws. *)
Definition base_query_idx (k idx : nat) : outcome NeighborQuery_h.ListIterator :=
  Throws (runtime_error "The query method must be implemented by child classes.").

(** Three points at a corner of the plane and the bonds between the
    first and the other two, in both directions. *)
Definition corner_points : NeighborQuery_h.NeighborQuery :=
  NeighborQuery_h.mkNeighborQuery (open_cube 10) [mkvec3 0 0 0; mkvec3 1 0 0; mkvec3 0 2 0] 3.

Definition corner_bonds : NeighborList_cc.NeighborList :=
  NeighborList_cc.mkNeighborList 3 3 [(0, 1); (0, 2); (1, 0); (2, 0)]%nat [1; 3; 1; 1]%Q [1; 2; 1; 2]%Q
    [0; 0; 0]%nat [0; 0; 0]%nat.

End Scenes.

(** * Facts about the numbers *)

Module Numeric_facts.

Lemma Qltb_lt (x y : Q) : Qltb x y = true <-> (x < y)%Q.
Proof.
  unfold Qltb. rewrite negb_true_iff, <- not_true_iff_false, Qle_bool_iff.
  split; intros; lra.
Qed.



Lemma insert_by_perm {A : Type} (lt : A -> A -> bool) (x : A) (l : list A) :
  Permutation (insert_by lt x l) (x :: l).
Proof.
  induction l as [| y l IH]; cbn; [apply Permutation_refl |].
  destruct (lt y x).
  - rewrite IH. apply perm_swap.
  - apply Permutation_refl.
Qed.

Lemma sort_by_perm {A : Type} (lt : A -> A -> bool) (l : list A) :
  Permutation (sort_by lt l) l.
Proof.
  induction l as [| x l IH]; cbn; [constructor |].
  rewrite insert_by_perm. now constructor.
Qed.

Lemma map_nth_seq {A : Type} (d : A) (l : list A) :
  forall n, (n <= length l)%nat ->
    map (fun i => nth i l d) (seq 0 n) = take n l.
Proof.
  induction l as [| x l IH]; intros [| n] Hn; cbn in *; try reflexivity; try lia.
  f_equal. rewrite <- seq_shift, map_map. cbn. apply IH. lia.
Qed.

End Numeric_facts.

(** * Facts about schedules *)

Module Schedule_facts.
Import NeighborComputeFunctional_h TraversalSpec.

Lemma place_perm {A : Type} (x : A) (p : nat) (l : list A) :
  Permutation (place x p l) (x :: l).
Proof.
  unfold place. rewrite <- (take_drop p l) at 3.
  symmetry. apply Permutation_middle.
Qed.

Lemma shuffle_perm {A : Type} (l : list A) :
  forall positions, Permutation (shuffle positions l) l.
Proof.
  induction l as [| x l IH]; intros positions; cbn [shuffle]; [constructor |].
  rewrite place_perm. constructor. apply IH.
Qed.

Lemma split_range_covers (lengths : list nat) :
  forall begin end_, (begin <= end_)%nat ->
    flat_map block_range (split_range lengths begin end_) = seq begin (end_ - begin).
Proof.
  induction lengths as [| l lengths IH]; intros begin end_ Hle; cbn [split_range].
  - cbn. now rewrite app_nil_r.
  - destruct (Nat.ltb_spec (begin + S l) end_) as [Hlt | Hge].
    + cbn [flat_map]. rewrite IH by lia. unfold block_range. cbn [fst snd].
      replace (end_ - begin)%nat with ((begin + S l - begin) + (end_ - (begin + S l)))%nat
        by lia.
      rewrite seq_app. do 2 f_equal. lia.
    + cbn. now rewrite app_nil_r.
Qed.

Lemma split_range_bounds (lengths : list nat) :
  forall begin end_ b, (begin <= end_)%nat ->
    In b (split_range lengths begin end_) ->
    (begin <= b.1)%nat /\ (b.1 <= b.2)%nat /\ (b.2 <= end_)%nat.
Proof.
  induction lengths as [| l lengths IH]; intros begin end_ b Hle Hin;
    cbn [split_range] in Hin.
  - destruct Hin as [<- | []]. cbn. lia.
  - destruct (Nat.ltb_spec (begin + S l) end_) as [Hlt | Hge].
    + destruct Hin as [<- | Hin]; [cbn; lia |].
      apply IH in Hin; [lia | lia].
    + destruct Hin as [<- | []]. cbn. lia.
Qed.

(** A schedule runs every index of the range once. *)
Lemma scheduled_perm (tbb : schedule) (begin end_ : nat) :
  (begin <= end_)%nat ->
  Permutation (scheduled tbb begin end_) (seq begin (end_ - begin)).
Proof.
  intros Hle. unfold scheduled, blocks.
  rewrite (Permutation_flat_map _ (shuffle_perm _ _)).
  now rewrite split_range_covers.
Qed.

Lemma blocks_bounds (tbb : schedule) (begin end_ : nat) (b : nat * nat) :
  (begin <= end_)%nat -> In b (blocks tbb begin end_) ->
  (begin <= b.1)%nat /\ (b.1 <= b.2)%nat /\ (b.2 <= end_)%nat.
Proof.
  intros Hle Hin. unfold blocks in Hin.
  apply (Permutation_in _ (shuffle_perm _ _)) in Hin.
  apply (split_range_bounds _ _ _ _ Hle Hin).
Qed.

(** A range of one index is one block. *)
Lemma blocks_one (tbb : schedule) (begin : nat) :
  blocks tbb begin (S begin) = [(begin, S begin)].
Proof.
  unfold blocks.
  assert (Hs : split_range (block_lengths tbb) begin (S begin) = [(begin, S begin)]).
  { destruct (block_lengths tbb) as [| l ls]; [reflexivity |]. cbn [split_range].
    destruct (Nat.ltb_spec (begin + S l) (S begin)); [lia | reflexivity]. }
  rewrite Hs. cbn [shuffle]. unfold place. now rewrite take_nil, drop_nil.
Qed.

Lemma scheduled_NoDup (tbb : schedule) (begin end_ : nat) :
  (begin <= end_)%nat -> List.NoDup (scheduled tbb begin end_).
Proof.
  intros Hle. apply (Permutation_NoDup (Permutation_sym (scheduled_perm tbb _ _ Hle))).
  apply seq_NoDup.
Qed.

Lemma scheduled_In (tbb : schedule) (n i : nat) :
  In i (scheduled tbb 0 n) <-> (i < n)%nat.
Proof.
  pose proof (scheduled_perm tbb 0 n ltac:(lia)) as Hp.
  split; intros Hi.
  - apply (Permutation_in _ Hp) in Hi. apply in_seq in Hi. lia.
  - apply (Permutation_in _ (Permutation_sym Hp)). apply in_seq. lia.
Qed.

Lemma run_indices_app {St : Type} (step : nat -> St -> option (outcome St))
    (l1 l2 : list nat) (st : St) :
  run_indices step (l1 ++ l2) st
  = match run_indices step l1 st with
    | Some (Returns st') => run_indices step l2 st'
    | r => r
    end.
Proof.
  revert st. induction l1 as [| i l1 IH]; intros st; cbn [app run_indices];
    [reflexivity |].
  destruct (step i st) as [[st' | e |] |]; [apply IH | reflexivity..].
Qed.

(** Blocks whose body is a loop over their indices: the steps of the
    loop, in the order of the blocks. *)
Lemma run_blocks_indices {St : Type} (body : nat -> nat -> St -> option (outcome St))
    (step : nat -> St -> option (outcome St)) (bl : list (nat * nat)) :
  (forall b e st, body b e st = run_indices step (seq b (e - b)) st) ->
  forall st, run_blocks body bl st = run_indices step (flat_map block_range bl) st.
Proof.
  intros Hbody. induction bl as [| [b e] bl IH]; intros st;
    cbn [run_blocks flat_map]; [reflexivity |].
  rewrite run_indices_app. unfold block_range at 1. cbn [fst snd].
  rewrite Hbody.
  destruct (run_indices step (seq b (e - b)) st) as [[st' | e' |] |];
    [apply IH | reflexivity..].
Qed.

(** [forLoopWrapper] on a body that is a loop over the indices of its
    block. *)
Lemma forLoopWrapper_indices {St : Type} (tbb : schedule)
    (body : nat -> nat -> St -> option (outcome St))
    (step : nat -> St -> option (outcome St)) (n : nat) (parallel : bool) (st : St) :
  (forall b e st, body b e st = run_indices step (seq b (e - b)) st) ->
  forLoopWrapper tbb 0 n body parallel st
  = run_indices step (if parallel then scheduled tbb 0 n else seq 0 n) st.
Proof.
  intros Hbody. unfold forLoopWrapper. destruct parallel.
  - apply run_blocks_indices. exact Hbody.
  - rewrite Hbody. now rewrite Nat.sub_0_r.
Qed.

(** The indices a run goes through are the indices of the range, each
    once. *)
Lemma run_order_perm (tbb : schedule) (n : nat) (parallel : bool) :
  Permutation (if parallel then scheduled tbb 0 n else seq 0 n) (seq 0 n).
Proof.
  destruct parallel; [| reflexivity].
  rewrite (scheduled_perm tbb 0 n) by lia. now rewrite Nat.sub_0_r.
Qed.

Lemma run_indices_append {A : Type} (g : nat -> list A) (l : list nat) :
  forall seen,
    run_indices (fun i seen => Some (Returns (seen ++ g i))) l seen
    = Some (Returns (seen ++ flat_map g l)).
Proof.
  induction l as [| i l IH]; intros seen; cbn [run_indices flat_map].
  - now rewrite app_nil_r.
  - rewrite IH, <- app_assoc. reflexivity.
Qed.

Lemma flat_map_singleton {A B : Type} (f : A -> B) (l : list A) :
  flat_map (fun x => [f x]) l = map f l.
Proof. induction l as [| x l IH]; cbn; [reflexivity | now rewrite IH]. Qed.

(** The per-pair driver over a bond list calls the compute function
    on the bonds in the order of the run. *)
Lemma loopOverNeighbors_list {S : Type} `{NeighborQuery_h.NeighborIterator S}
    (tbb : schedule) (query_idx : nat -> outcome S) (n : nat)
    (nl : NeighborList_cc.NeighborList) (parallel : bool) (fuel : nat) :
  loopOverNeighbors tbb query_idx n (Some nl) parallel fuel
  = Some (Returns
            (map (NeighborList_cc.bond_at nl)
               (if parallel then scheduled tbb 0 (NeighborList_cc.getNumBonds nl)
                else seq 0 (NeighborList_cc.getNumBonds nl)))).
Proof.
  unfold loopOverNeighbors.
  rewrite (forLoopWrapper_indices tbb _
             (fun i seen => Some (Returns (seen ++ [NeighborList_cc.bond_at nl i])))).
  - rewrite run_indices_append. cbn [app]. now rewrite flat_map_singleton.
  - intros b e st. rewrite run_indices_append. now rewrite flat_map_singleton.
Qed.

(** The loop over the query points, as steps. *)
Definition point_step {S St : Type} (make : nat -> option (outcome S))
    (cf : nat -> S -> St -> option (outcome St)) (i : nat) (st : St)
    : option (outcome St) :=
  match make i with
  | Some (Returns it) => cf i it st
  | Some (Throws e) => Some (Throws e)
  | Some Undefined => Some Undefined
  | None => None
  end.

Lemma loop_points_indices {S St : Type} (make : nat -> option (outcome S))
    (cf : nat -> S -> St -> option (outcome St)) (n : nat) :
  forall i st,
    loop_points make cf i n st = run_indices (point_step make cf) (seq i n) st.
Proof.
  induction n as [| n IH]; intros i st; cbn [loop_points seq run_indices];
    [reflexivity |].
  unfold point_step at 1.
  destruct (make i) as [[it | e |] |]; try reflexivity.
  destruct (cf i it st) as [[st' | e |] |]; [apply IH | reflexivity..].
Qed.

End Schedule_facts.

(** * Properties of NeighborList.cc *)

Module NeighborList_facts.
Import NeighborList_cc ListSpec Scenes Numeric_facts.

Lemma in_range_spec (r_max r_min : float) (b : NeighborBond) :
  in_range r_max r_min b = true <-> (r_min < distance b /\ distance b < r_max)%Q.
Proof. unfold in_range. now rewrite andb_true_iff, !Qltb_lt. Qed.

Lemma nth_insert {A : Type} (l : list A) (i j : nat) (x d : A) :
  (i < length l)%nat ->
  nth j (<[i := x]> l) d = if (j =? i)%nat then x else nth j l d.
Proof.
  revert i j. induction l as [| y l IH]; intros i j Hi; cbn in Hi; [lia |].
  destruct i as [| i]; destruct j as [| j]; cbn; try reflexivity.
  apply IH. lia.
Qed.

Lemma move_bond_consistent (nl : NeighborList) (g i : nat) :
  consistent nl -> consistent (move_bond nl g i) /\
  getNumBonds (move_bond nl g i) = getNumBonds nl.
Proof.
  unfold consistent, move_bond, getNumBonds, set2. cbn.
  rewrite !length_insert. tauto.
Qed.

Lemma bond_at_move_bond (nl : NeighborList) (g i j : nat) :
  consistent nl -> (g < getNumBonds nl)%nat ->
  bond_at (move_bond nl g i) j =
    if (j =? g)%nat then bond_at nl i else bond_at nl j.
Proof.
  intros [Hw Hd] Hg. unfold getNumBonds in *.
  unfold bond_at, move_bond, get2, set2. cbn.
  rewrite !nth_insert by (rewrite ?length_insert; lia).
  destruct (Nat.eqb_spec j g) as [-> | Hne]; cbn.
  - rewrite Nat.eqb_refl. cbn.
    destruct (Nat.eqb_spec i g) as [-> | Hig]; cbn; reflexivity.
  - reflexivity.
Qed.

Lemma map_bond_at_ext (nl nl' : NeighborList) (l : list nat) :
  (forall j, In j l -> bond_at nl' j = bond_at nl j) ->
  map (bond_at nl') l = map (bond_at nl) l.
Proof. intros Hext. apply map_ext_in. exact Hext. Qed.

(** The loop invariant of [filter_r]: the good prefix grows by the bonds
    of the remaining range that pass the test, in their order. *)
Lemma filter_r_loop_spec (r_max r_min : float) (n : nat) :
  forall (i g : nat) (nl : NeighborList),
    consistent nl -> (i + n = getNumBonds nl)%nat -> (g <= i)%nat ->
    let r := filter_r_loop r_max r_min n i g nl in
    consistent r.2 /\ getNumBonds r.2 = getNumBonds nl /\
    (g <= r.1 <= g + n)%nat /\
    map (bond_at r.2) (seq 0 r.1) =
      map (bond_at nl) (seq 0 g) ++
      List.filter (in_range r_max r_min) (map (bond_at nl) (seq i n)).
Proof.
  induction n as [| n IH]; intros i g nl Hc Hn Hg; cbn zeta.
  - cbn. rewrite app_nil_r. repeat split; try apply Hc; lia.
  - cbn [filter_r_loop seq map List.filter].
    change (Qltb r_min (nth i (m_distances nl) 0%Q)
            && Qltb (nth i (m_distances nl) 0%Q) r_max)
      with (in_range r_max r_min (bond_at nl i)).
    destruct (in_range r_max r_min (bond_at nl i)) eqn:Hin.
    + destruct (move_bond_consistent nl g i Hc) as [Hc' Hlen'].
      specialize (IH (S i) (S g) (move_bond nl g i) Hc' ltac:(lia) ltac:(lia)).
      cbn zeta in IH. destruct IH as (IH1 & IH2 & IH3 & IH4).
      repeat split; try apply IH1; try lia.
      rewrite IH4.
      replace (seq 0 (S g)) with (seq 0 g ++ [g])
        by (now rewrite seq_S).
      rewrite map_app, <- app_assoc. cbn [map app].
      rewrite (bond_at_move_bond nl g i g Hc ltac:(lia)), Nat.eqb_refl.
      f_equal.
      * apply map_bond_at_ext. intros j Hj. apply in_seq in Hj.
        rewrite (bond_at_move_bond nl g i j Hc ltac:(lia)).
        destruct (Nat.eqb_spec j g); [lia | reflexivity].
      * f_equal. f_equal.
        apply map_bond_at_ext. intros j Hj. apply in_seq in Hj.
        rewrite (bond_at_move_bond nl g i j Hc ltac:(lia)).
        destruct (Nat.eqb_spec j g); [lia | reflexivity].
    + specialize (IH (S i) g nl Hc ltac:(lia) ltac:(lia)).
      cbn zeta in IH. destruct IH as (IH1 & IH2 & IH3 & IH4).
      repeat split; try apply IH1; try lia. exact IH4.
Qed.

Lemma nth_take {A : Type} (l : list A) (n j : nat) (d : A) :
  (j < n)%nat -> nth j (take n l) d = nth j l d.
Proof.
  revert n j. induction l as [| x l IH]; intros [| n] [| j] Hj; cbn;
    try reflexivity; try lia.
  apply IH. lia.
Qed.

Lemma bonds_resize_shrink (nl : NeighborList) (g : nat) :
  (g <= getNumBonds nl)%nat ->
  getNumBonds (resize nl g false) = g /\
  bonds (resize nl g false) = map (bond_at nl) (seq 0 g).
Proof.
  intros Hg. unfold resize.
  destruct (Nat.eqb_spec g (getNumBonds nl)) as [-> | Hne]; cbn [negb].
  - split; reflexivity.
  - unfold bonds, getNumBonds in *. cbn.
    unfold prepare. rewrite length_app, length_take, length_replicate.
    replace (g `min` length (m_neighbors nl) + (g - length (m_neighbors nl)))%nat
      with g by lia.
    split; [reflexivity |].
    apply map_ext_in. intros j Hj. apply in_seq in Hj.
    unfold bond_at, get2. cbn.
    replace (g - length (m_neighbors nl))%nat with 0%nat by lia.
    cbn. rewrite app_nil_r.
    rewrite nth_take by lia.
    assert (Hq : forall l : list Q,
               nth j (take g l ++ replicate (g - length l) 0%Q) 0%Q = nth j l 0%Q).
    { intros l. destruct (Nat.lt_ge_cases j (length (take g l))) as [Hlt | Hge].
      - rewrite app_nth1 by exact Hlt. apply nth_take. lia.
      - rewrite app_nth2 by exact Hge.
        rewrite length_take in Hge.
        rewrite (nth_overflow l) by lia.
        destruct (nth_in_or_default (j - length (take g l))
                    (replicate (g - length l) 0%Q) 0%Q) as [Hin | Hdef];
          [| exact Hdef].
        apply list_elem_of_In, elem_of_replicate in Hin. apply Hin. }
    now rewrite !Hq.
Qed.

(** [filter_r] on a consistent list: the bonds that remain are the bonds
    that pass the test, in their order. *)
Lemma filter_r_bonds (nl : NeighborList) (r_max r_min : float) :
  consistent nl ->
  bonds (filter_r nl r_max r_min).1 = List.filter (in_range r_max r_min) (bonds nl).
Proof.
  intros Hc. unfold filter_r.
  pose proof (filter_r_loop_spec r_max r_min (getNumBonds nl) 0 0 nl Hc
                ltac:(lia) ltac:(lia)) as Hspec.
  cbn zeta in Hspec.
  destruct (filter_r_loop r_max r_min (getNumBonds nl) 0 0 nl) as [g nl'].
  cbn [fst snd] in *. destruct Hspec as (_ & Hlen & Hg & Hb).
  destruct (bonds_resize_shrink nl' g ltac:(lia)) as [_ Hbonds].
  rewrite Hbonds, Hb. reflexivity.
Qed.

Lemma prepare_length {A : Type} (z : A) (m : nat) (reset : bool) (arr : list A) :
  length (prepare z m reset arr) = m.
Proof.
  unfold prepare. destruct reset.
  - apply length_replicate.
  - rewrite length_app, length_take, length_replicate. lia.
Qed.

(** [resize] keeps the three bond arrays at one length, the requested
    one. *)
Lemma resize_consistent (nl : NeighborList) (m : nat) (reset : bool) :
  consistent nl ->
  consistent (resize nl m reset) /\ getNumBonds (resize nl m reset) = m.
Proof.
  intros [Hw Hd]. unfold resize.
  destruct (Nat.eqb_spec m (getNumBonds nl)) as [-> | Hne]; cbn [negb].
  - repeat split; assumption.
  - unfold consistent, getNumBonds. cbn. rewrite !prepare_length. repeat split.
Qed.

Lemma length_bonds (nl : NeighborList) : length (bonds nl) = getNumBonds nl.
Proof. unfold bonds. now rewrite length_map, length_seq. Qed.

(** C6, as the code has it.  The first argument of [filter_r] is the
    upper bound [r_max] and the second the lower bound [r_min].  On a
    list whose arrays agree in length, [filter_r r_max r_min] keeps
    exactly the bonds whose distance lies strictly between [r_min] and
    [r_max], in their original order, and the list does not grow; on the
    ten bonds at distances 0.1, ..., 1.0, [filter_r 0.75 0.25] leaves
    exactly five bonds. *)
Theorem filter_r_keeps_open_interval (nl : NeighborList) (r_max r_min : float)
    (Hc : consistent nl) :
  bonds (filter_r nl r_max r_min).1
    = List.filter (in_range r_max r_min) (bonds nl)
  /\ (forall b, In b (bonds (filter_r nl r_max r_min).1) <->
                In b (bonds nl) /\ (r_min < distance b /\ distance b < r_max)%Q)
  /\ (getNumBonds (filter_r nl r_max r_min).1 <= getNumBonds nl)%nat
  /\ map distance (bonds (filter_r ten_bonds (3 # 4) (1 # 4)).1)
     = [3 # 10; 4 # 10; 5 # 10; 6 # 10; 7 # 10]%Q.
Proof.
  pose proof (filter_r_bonds nl r_max r_min Hc) as Hb.
  split; [exact Hb |]. split; [| split].
  - intros b. rewrite Hb, filter_In, in_range_spec. reflexivity.
  - rewrite <- !length_bonds, Hb. apply List.filter_length_le.
  - reflexivity.
Qed.

Lemma filter_r_keeps_open_interval_witness :
  bonds (filter_r ten_bonds (3 # 4) (1 # 4)).1
    = List.filter (in_range (3 # 4) (1 # 4)) (bonds ten_bonds)
  /\ length (bonds (filter_r ten_bonds (3 # 4) (1 # 4)).1) = 5%nat.
Proof.
  destruct (filter_r_keeps_open_interval ten_bonds (3 # 4) (1 # 4))
    as (Hb & _ & _ & Hd).
  - split; reflexivity.
  - split; [exact Hb |].
    rewrite <- (length_map distance), Hd. reflexivity.
Defined.

(** C6 as stated fails: called in the order (rmin, rmax) of the
    interface, [filter_r 0.25 0.75] on the ten bonds keeps none. *)
Lemma filter_r_interface_order_keeps_none :
  bonds (filter_r ten_bonds (1 # 4) (3 # 4)).1 = []
  /\ getNumBonds (filter_r ten_bonds (1 # 4) (3 # 4)).1 <> 5%nat.
Proof. split; [reflexivity | discriminate]. Qed.

Lemma read_nth {A : Type} (l : list A) (i : nat) (d : A) :
  (i < length l)%nat -> read l i = Returns (nth i l d).
Proof.
  intros Hi. unfold read.
  destruct (lookup_lt_is_Some_2 l i Hi) as [x Hx]. rewrite Hx.
  f_equal. symmetry. apply nth_lookup_Some with (d := d). exact Hx.
Qed.

Section from_arrays.
Variables (B Nq Np : nat).
Variables (query_point_index point_index : list nat) (distances weights : list float).

(** What the loop of the constructor has stored at bond [j]: the query
    index of the bond before it (0 before the first), and the point
    index, weight and distance of bond [j] itself. *)
Definition stored (nl : NeighborList) (j : nat) : Prop :=
  nth j (m_neighbors nl) (0, 0)%nat
    = (nth j (0%nat :: query_point_index) 0%nat, nth j point_index 0%nat)
  /\ nth j (m_weights nl) 0%Q = nth j weights 0%Q
  /\ nth j (m_distances nl) 0%Q = nth j distances 0%Q.

Definition sized (nl : NeighborList) : Prop :=
  length (m_neighbors nl) = B /\ length (m_weights nl) = B
  /\ length (m_distances nl) = B
  /\ m_num_query_points nl = Nq /\ m_num_points nl = Np.

Lemma ctor_loop_inv (n : nat) :
  length query_point_index = B -> length point_index = B ->
  length distances = B -> length weights = B ->
  (forall i, (S i < B)%nat ->
     (nth i query_point_index 0 <= nth (S i) query_point_index 0)%nat) ->
  (forall i, (i < B)%nat -> (nth i query_point_index 0 < Nq)%nat) ->
  (forall i, (i < B)%nat -> (nth i point_index 0 < Np)%nat) ->
  forall (start : nat) (nl : NeighborList),
    (start + n = B)%nat -> sized nl ->
    (forall j, (j < start)%nat -> stored nl j) ->
    exists last' nl',
      for_range (ctor_body query_point_index point_index distances weights)
        start n (nth start (0%nat :: query_point_index) 0%nat, nl)
        = Returns (last', nl')
      /\ sized nl' /\ forall j, (j < B)%nat -> stored nl' j.
Proof.
  intros Hq Hp Hd Hw Hsorted Hqr Hpr.
  induction n as [| n IH]; intros start nl Hn Hsz Hst.
  - exists (nth start (0%nat :: query_point_index) 0%nat), nl.
    split; [reflexivity |]. split; [exact Hsz |].
    intros j Hj. apply Hst. lia.
  - cbn [for_range]. unfold ctor_body at 1.
    destruct Hsz as (Hl1 & Hl2 & Hl3 & Hnq & Hnp).
    rewrite (read_nth query_point_index start 0%nat) by lia. cbn [obind].
    assert (Hle : (nth start (0%nat :: query_point_index) 0
                   <= nth start query_point_index 0)%nat).
    { destruct start as [| i]; cbn [nth]; [lia | apply Hsorted; lia]. }
    destruct (Nat.ltb_spec (nth start query_point_index 0%nat)
                (nth start (0%nat :: query_point_index) 0%nat)) as [Hbad | _];
      [lia |].
    rewrite Hnq.
    destruct (Nat.leb_spec Nq (nth start query_point_index 0%nat)) as [Hbad | _];
      [specialize (Hqr start ltac:(lia)); lia |].
    rewrite (read_nth point_index start 0%nat) by lia. cbn [obind].
    rewrite Hnp.
    destruct (Nat.leb_spec Np (nth start point_index 0%nat)) as [Hbad | _];
      [specialize (Hpr start ltac:(lia)); lia |].
    rewrite (read_nth weights start 0%Q) by lia. cbn [obind].
    rewrite (read_nth distances start 0%Q) by lia. cbn [obind].
    set (nl1 := set_distances _ _).
    assert (Hsz1 : sized nl1).
    { unfold nl1, sized, set_distances, set_weights, set_neighbors, set2. cbn.
      rewrite !length_insert. repeat split; assumption. }
    assert (Hst1 : forall j, (j < S start)%nat -> stored nl1 j).
    { intros j Hj. unfold stored, nl1, set_distances, set_weights, set_neighbors, set2.
      cbn. rewrite !nth_insert by (rewrite ?length_insert; lia).
      destruct (Nat.eqb_spec j start) as [-> | Hne].
      - rewrite Nat.eqb_refl. cbn. repeat split.
      - apply Hst. lia. }
    change (nth start query_point_index 0%nat)
      with (nth (S start) (0%nat :: query_point_index) 0%nat).
    apply (IH (S start) nl1 ltac:(lia) Hsz1 Hst1).
Qed.

End from_arrays.

(** The constructor on valid input: it succeeds, and the stored query
    indices are those of the input moved one bond down. *)
Lemma from_arrays_valid (B Nq Np : nat) (qpi pi : list nat) (d w : list float) :
  length qpi = B -> length pi = B -> length d = B -> length w = B ->
  (forall i, (S i < B)%nat -> (nth i qpi 0 <= nth (S i) qpi 0)%nat) ->
  (forall i, (i < B)%nat -> (nth i qpi 0 < Nq)%nat) ->
  (forall i, (i < B)%nat -> (nth i pi 0 < Np)%nat) ->
  exists nl,
    NeighborList_from_arrays B qpi Nq pi Np d w = Returns nl
    /\ m_neighbors nl = combine (take B (0%nat :: qpi)) pi
    /\ m_weights nl = w /\ m_distances nl = d.
Proof.
  intros Hq Hp Hd Hw Hsorted Hqr Hpr. unfold NeighborList_from_arrays.
  set (nl0 := mkNeighborList _ _ _ _ _ _ _).
  destruct (ctor_loop_inv B Nq Np qpi pi d w B Hq Hp Hd Hw Hsorted Hqr Hpr 0 nl0
              eq_refl) as (last' & nl' & Hrun & Hsz & Hst).
  { unfold sized, nl0, prepare. cbn. rewrite !length_replicate. repeat split. }
  { intros j Hj. lia. }
  cbn [nth] in Hrun. rewrite Hrun. cbn [obind snd].
  exists nl'. split; [reflexivity |].
  destruct Hsz as (Hl1 & Hl2 & Hl3 & _).
  assert (Htk : length (take B (0%nat :: qpi)) = B)
    by (rewrite length_take; cbn; lia).
  split; [| split].
  - apply (nth_ext _ _ (0, 0)%nat (0, 0)%nat).
    + rewrite length_combine. lia.
    + intros j Hj. rewrite (proj1 (Hst j ltac:(lia))).
      rewrite combine_nth by congruence. now rewrite nth_take by lia.
  - apply (nth_ext _ _ 0%Q 0%Q);
      [etransitivity; [exact Hl2 | symmetry; exact Hw] |].
    intros j Hj. apply (Hst j). rewrite <- Hl2. exact Hj.
  - apply (nth_ext _ _ 0%Q 0%Q);
      [etransitivity; [exact Hl3 | symmetry; exact Hd] |].
    intros j Hj. apply (Hst j). rewrite <- Hl3. exact Hj.
Qed.

(** C3 on the code: for the single bond (1, 0) with two query points and
    one point, the constructor succeeds and stores [last_index], which
    is still 0, where the query index 1 belongs. *)
Theorem from_arrays_stores_last_index :
  NeighborList_from_arrays 1 [1%nat] 2 [0%nat] 1 [1 # 2]%Q [1]%Q
    = Returns (mkNeighborList 1 2 [(0, 0)%nat] [1]%Q [1 # 2]%Q [0; 0]%nat [0; 0]%nat)
  /\ (forall nl,
        NeighborList_from_arrays 1 [1%nat] 2 [0%nat] 1 [1 # 2]%Q [1]%Q = Returns nl ->
        nth 0 (m_neighbors nl) (0, 0)%nat <> (1, 0)%nat).
Proof.
  split; [reflexivity |].
  intros nl Hnl. cbv in Hnl. inversion Hnl; subst. cbn. discriminate.
Qed.

End NeighborList_facts.

(** * Properties of NeighborQuery.h *)

Module NeighborQuery_facts.
Import NeighborQuery_h Scenes Numeric_facts.

(** C9. Point indexing is bounds-checked: over a handle whose view holds
    its [m_n_points] points, [operator[]] returns the stored point for an
    index below [m_n_points], throws for any other index, and so never
    reads outside the point array. *)
Theorem index_op_bounds_checked (nq : NeighborQuery) (i : nat)
    (Hview : length (m_points nq) = m_n_points nq) :
  ((i < m_n_points nq)%nat ->
     exists p, m_points nq !! i = Some p /\ index_op nq i = Returns p) /\
  ((m_n_points nq <= i)%nat ->
     index_op nq i = Throws (runtime_error
       "NeighborQuery attempted to access a point with index >= n_points.")) /\
  index_op nq i <> Undefined.
Proof.
  unfold index_op.
  destruct (Nat.leb_spec (m_n_points nq) i) as [Hge | Hlt].
  - repeat split; [lia | discriminate].
  - destruct (lookup_lt_is_Some_2 (m_points nq) i) as [p Hp]; [lia |].
    rewrite Hp. repeat split; [eauto | lia | discriminate].
Qed.

Lemma index_op_bounds_checked_witness :
  let nq := mkNeighborQuery (mkBox (fun _ => vzero) vzero false false false false)
              [mkvec3 0 0 0; mkvec3 (1 # 2) 0 0] 2 in
  ((1 < m_n_points nq)%nat ->
     exists p, m_points nq !! 1%nat = Some p /\ index_op nq 1 = Returns p) /\
  ((m_n_points nq <= 1)%nat ->
     index_op nq 1 = Throws (runtime_error
       "NeighborQuery attempted to access a point with index >= n_points.")) /\
  index_op nq 1 <> Undefined.
Proof.
  intros nq. apply (index_op_bounds_checked nq 1). reflexivity.
Defined.

Lemma inferMode_none (args : QueryArgs) :
  mode args = none ->
  inferMode args =
    if negb (num_neigh args =? -1)%Z then set_mode nearest args
    else if negb (Qeq_bool (r_max args) (-1)) then set_mode ball args
    else args.
Proof. intros Hm. unfold inferMode. now rewrite Hm. Qed.

(** C8. Mode inference.  For a record whose mode is [none], issuing a
    query through [queryWithArgs]: when [num_neigh] is set (not -1) the
    mode becomes [nearest] and the call is the k-nearest query; otherwise,
    when [r_max] is set (not -1), the mode becomes [ball] and the call is
    the ball query; when neither is set the call throws and hands out no
    iterator. *)
Theorem queryWithArgs_infers_mode {I : Type} `{NeighborQueryOps I}
    (query_points : list vec3) (n : nat) (args : QueryArgs)
    (Hnone : mode args = none) :
  (num_neigh args <> (-1)%Z ->
     mode (inferMode args) = nearest /\
     queryWithArgs query_points n args =
       query query_points n (to_unsigned (num_neigh args)) (exclude_ii args)) /\
  (num_neigh args = (-1)%Z -> ~ (r_max args == -1)%Q ->
     mode (inferMode args) = ball /\
     queryWithArgs query_points n args =
       queryBall query_points n (r_max args) (exclude_ii args)) /\
  (num_neigh args = (-1)%Z -> (r_max args == -1)%Q ->
     mode (inferMode args) = none /\
     is_throw (queryWithArgs (I := I) query_points n args) = true /\
     queryWithArgs (I := I) query_points n args =
       Throws (runtime_error "Invalid query mode provided to generic query function.")).
Proof.
  unfold queryWithArgs, validateQueryArgs.
  rewrite (inferMode_none args Hnone).
  destruct (Z.eqb_spec (num_neigh args) (-1)) as [Hk | Hk]; cbn [negb].
  - destruct (Qeq_bool (r_max args) (-1)) eqn:Hr; cbn [negb].
    + apply Qeq_bool_iff in Hr.
      rewrite Hnone. cbn. rewrite Hnone.
      repeat split; try congruence; try tauto.
    + assert (Hr' : ~ (r_max args == -1)%Q)
        by (intros Hq; apply Qeq_bool_iff in Hq; congruence).
      cbn. rewrite Hr. cbn.
      repeat split; try congruence; try tauto.
  - cbn. rewrite (proj2 (Z.eqb_neq _ _) Hk). cbn.
    repeat split; try congruence; try tauto.
Qed.

Lemma queryWithArgs_infers_mode_witness :
  queryWithArgs (H := tagged_ops) [] 0 (mkQueryArgs none 6 (-1) (11 # 10) false)
    = Returns (nearest, 6%nat)
  /\ queryWithArgs (H := tagged_ops) [] 0 (mkQueryArgs none (-1) (3 # 2) (11 # 10) false)
    = Returns (ball, 0%nat)
  /\ is_throw (queryWithArgs (H := tagged_ops) [] 0
                 (mkQueryArgs none (-1) (-1) (11 # 10) false)) = true.
Proof.
  pose proof (queryWithArgs_infers_mode (H := tagged_ops) [] 0
                (mkQueryArgs none 6 (-1) (11 # 10) false) eq_refl) as H1.
  pose proof (queryWithArgs_infers_mode (H := tagged_ops) [] 0
                (mkQueryArgs none (-1) (3 # 2) (11 # 10) false) eq_refl) as H2.
  pose proof (queryWithArgs_infers_mode (H := tagged_ops) [] 0
                (mkQueryArgs none (-1) (-1) (11 # 10) false) eq_refl) as H3.
  split; [| split].
  - destruct H1 as [H1 _]. destruct H1 as [_ H1]; [discriminate | exact H1].
  - destruct H2 as [_ [H2 _]].
    destruct H2 as [_ H2]; [reflexivity | discriminate | exact H2].
  - destruct H3 as [_ [_ H3]].
    destruct H3 as [_ [H3 _]]; [reflexivity | reflexivity | exact H3].
Defined.

Lemma usub_uadd_1 (k : nat) :
  (Z.of_nat k <= UINT_MAX)%Z -> usub (uadd k 1) 1 = k.
Proof.
  intros Hk. unfold usub, uadd, UINT_MAX in *.
  change (Z.of_nat 1) with 1%Z. change (4294967295 + 1)%Z with 4294967296%Z.
  rewrite Z2Nat.id by (apply Z.mod_pos_bound; lia).
  apply Nat2Z.inj.
  rewrite Z2Nat.id by (apply Z.mod_pos_bound; lia).
  pose proof (Nat2Z.is_nonneg k).
  Z.div_mod_to_equations. lia.
Qed.

(** C10. Materialising a k-nearest iterator with [exclude_ii] set runs
    the parent's materialisation with the neighbor count raised by one
    (modulo 2^32).  When that materialisation throws, the exception is
    passed on with the iterator as it was before the call: [m_k] is back
    at its original value.  Conversely an exception that leaves the
    call is one the parent's materialisation threw. *)
Theorem QueryIterator_toNeighborList_restores_k {S : Type} `{NeighborIterator S}
    (default_weight : float) (default_reset : bool)
    (query_idx : nat -> nat -> outcome S) (fuel : nat)
    (it : NeighborQueryQueryIterator)
    (Hex : qi_exclude_ii it = true)
    (Hk : (Z.of_nat (m_k it) <= UINT_MAX)%Z) :
  let parent :=
    toNeighborList default_weight default_reset (qi_neighbor_query it)
      (qi_n_query_points it) true (query_idx (uadd (m_k it) 1)) fuel in
  (forall e, parent = Some (Throws e) ->
     QueryIterator_toNeighborList default_weight default_reset query_idx fuel it
       = Some (Throws e, it))
  /\ (forall e it',
        QueryIterator_toNeighborList default_weight default_reset query_idx fuel it
          = Some (Throws e, it') ->
        parent = Some (Throws e) /\ it' = it /\ m_k it' = m_k it).
Proof.
  cbn zeta.
  assert (Heq : forall e,
            toNeighborList default_weight default_reset (qi_neighbor_query it)
              (qi_n_query_points it) true (query_idx (uadd (m_k it) 1)) fuel
              = Some (Throws e) ->
            QueryIterator_toNeighborList default_weight default_reset
              query_idx fuel it = Some (Throws e, it)).
  { intros e Hthrow. unfold QueryIterator_toNeighborList.
    destruct it as [nq n ex k]; cbn in *. subst ex. cbn.
    rewrite Hthrow. cbn. unfold set_k; cbn.
    now rewrite usub_uadd_1. }
  split; [exact Heq |].
  intros e it' Hcall.
  destruct (toNeighborList default_weight default_reset (qi_neighbor_query it)
              (qi_n_query_points it) true (query_idx (uadd (m_k it) 1)) fuel)
    as [[nl | e' |] |] eqn:Hparent.
  2: { rewrite (Heq e' eq_refl) in Hcall. inversion Hcall; subst. auto. }
  all: unfold QueryIterator_toNeighborList in Hcall;
    destruct it as [nq n ex k]; cbn in Hex, Hparent, Hcall; subst ex;
    cbn in Hcall; rewrite Hparent in Hcall; discriminate.
Qed.

Lemma QueryIterator_toNeighborList_restores_k_witness :
  let it := mkNeighborQueryQueryIterator (mkNeighborQuery (open_cube 1) [] 0) 1 true 4 in
  let e := runtime_error "The query method must be implemented by child classes." in
  QueryIterator_toNeighborList 1%Q false base_query_idx 2 it = Some (Throws e, it).
Proof.
  intros it e.
  apply (QueryIterator_toNeighborList_restores_k 1%Q false base_query_idx 2 it).
  - reflexivity.
  - cbn. unfold UINT_MAX. lia.
  - reflexivity.
Defined.

(** ** Materialisation and the per-pair driver *)

Section round_trip.
Variable T : NeighborBond.
Variable default_weight : float.
Variable default_reset : bool.
Variable nq : NeighborQuery.

(** The bonds the iterator of each query point yields. *)
Variable bs : nat -> list NeighborBond.

(** The virtual [query(idx)] over these bonds. *)
Definition list_stream (i : nat) : outcome ListIterator :=
  Returns (mkListIterator T (bs i) false).

(** The bond [toNeighborList] makes of a yielded bond. *)
Definition retag (i : nat) (np : NeighborBond) : NeighborBond :=
  mkNeighborBond i (ref_id np) (distance np) default_weight.

Definition with_weight (w : float) (b : NeighborBond) : NeighborBond :=
  mkNeighborBond (id b) (ref_id b) (distance b) w.

Lemma collect_list (i : nat) (l : list NeighborBond) :
  forall (local_bonds : list NeighborBond) (fuel : nat),
    (length l + 2 <= fuel)%nat ->
    collect default_weight false fuel i (mkListIterator T l false) local_bonds
    = Some (Returns (local_bonds ++ map (retag i) l ++ [retag i T])).
Proof.
  induction l as [| b l IH]; intros local_bonds fuel Hfuel;
    (destruct fuel as [| fuel]; [cbn in Hfuel; lia |]); cbn [collect end_ next
      ListIterator_ops li_finished li_pending li_terminator negb orb].
  - destruct fuel as [| fuel]; [cbn in Hfuel; lia |]. reflexivity.
  - rewrite IH by (cbn in Hfuel; lia). cbn [map app].
    now rewrite <- app_assoc.
Qed.

Lemma collect_all_list (fuel : nat) (n : nat) :
  forall (i : nat) (local_bonds : list NeighborBond),
    (forall j, (length (bs j) + 2 <= fuel)%nat) ->
    collect_all default_weight false list_stream fuel i n local_bonds
    = Some (Returns (local_bonds
                     ++ flat_map (fun j => map (retag j) (bs j)) (seq i n))).
Proof.
  induction n as [| n IH]; intros i local_bonds Hfuel; cbn [collect_all seq flat_map].
  - now rewrite app_nil_r.
  - unfold list_stream at 1. rewrite (collect_list i (bs i) local_bonds fuel (Hfuel i)).
    rewrite !app_assoc. unfold pop_back.
    destruct ((local_bonds ++ map (retag i) (bs i)) ++ [retag i T]) eqn:Heq.
    + apply app_eq_nil in Heq. destruct Heq as [_ Heq]. discriminate.
    + rewrite <- Heq, removelast_last. rewrite (IH (S i) _ Hfuel).
      now rewrite <- app_assoc.
Qed.

Lemma drive_list (l : list NeighborBond) :
  forall (nb : NeighborBond) (seen : list NeighborBond) (fuel : nat),
    (length l + 2 <= fuel)%nat ->
    NeighborComputeFunctional_h.drive fuel nb (mkListIterator T l false) seen
    = Some (Returns (seen ++ nb :: l)).
Proof.
  induction l as [| b l IH]; intros nb seen fuel Hfuel;
    (destruct fuel as [| fuel]; [cbn in Hfuel; lia |]);
    cbn [NeighborComputeFunctional_h.drive end_ next ListIterator_ops
           li_finished li_pending li_terminator].
  - destruct fuel as [| fuel]; [cbn in Hfuel; lia |]. reflexivity.
  - rewrite IH by (cbn in Hfuel; lia). now rewrite <- app_assoc.
Qed.

(** The live path of the driver hands every yielded bond to [cf]. *)
Lemma drive_all_list (fuel : nat) (n : nat) :
  forall (i : nat) (seen : list NeighborBond),
    (forall j, (length (bs j) + 2 <= fuel)%nat) ->
    NeighborComputeFunctional_h.drive_all list_stream fuel i n seen
    = Some (Returns (seen ++ flat_map bs (seq i n))).
Proof.
  induction n as [| n IH]; intros i seen Hfuel;
    cbn [NeighborComputeFunctional_h.drive_all seq flat_map].
  - now rewrite app_nil_r.
  - unfold list_stream at 1.
    cbn [next ListIterator_ops li_pending li_terminator].
    destruct (bs i) as [| b l] eqn:Hb.
    + destruct fuel as [| fuel]; [specialize (Hfuel i); lia |].
      cbn [NeighborComputeFunctional_h.drive end_ ListIterator_ops li_finished].
      rewrite (IH (S i) seen Hfuel). reflexivity.
    + rewrite drive_list by (specialize (Hfuel i); rewrite Hb in Hfuel; cbn in *; lia).
      rewrite (IH (S i) _ Hfuel). now rewrite <- app_assoc.
Qed.

End round_trip.

(** The writes of the second loop of [toNeighborList], bond by bond. *)
Lemma write_bonds_prefix (lb : list NeighborBond) (nl : NeighborList_cc.NeighborList)
    (k : nat) :
  (k <= length lb)%nat ->
  length (NeighborList_cc.m_neighbors nl) = length lb ->
  length (NeighborList_cc.m_distances nl) = length lb ->
  let nl' := fold_left (write_bond lb) (seq 0 k) nl in
  NeighborList_cc.m_neighbors nl'
    = map (fun b => (id b, ref_id b)) (take k lb)
      ++ drop k (NeighborList_cc.m_neighbors nl)
  /\ NeighborList_cc.m_distances nl'
    = map distance (take k lb) ++ drop k (NeighborList_cc.m_distances nl)
  /\ NeighborList_cc.m_weights nl' = NeighborList_cc.m_weights nl.
Proof.
  intros Hk Hn Hd. cbn zeta. induction k as [| k IH].
  - cbn. rewrite !drop_0. repeat split.
  - rewrite seq_S, fold_left_app. cbn [fold_left Nat.add].
    destruct (IH ltac:(lia)) as (IHn & IHd & IHw). clear IH.
    set (nlk := fold_left (write_bond lb) (seq 0 k) nl) in *.
    destruct (lookup_lt_is_Some_2 lb k ltac:(lia)) as [x Hx].
    unfold write_bond. rewrite Hx.
    cbn [NeighborList_cc.set_distances NeighborList_cc.set_neighbors
           NeighborList_cc.m_neighbors NeighborList_cc.m_distances
           NeighborList_cc.m_weights].
    rewrite IHn, IHd, IHw, (take_S_r lb k x Hx), !map_app. cbn [map].
    assert (Hins : forall (A : Type) (pre l : list A) (v : A),
               length pre = k -> (k < length l)%nat ->
               <[k := v]> (pre ++ drop k l) = (pre ++ [v]) ++ drop (S k) l).
    { intros A pre l v Hpre Hl.
      rewrite insert_app_r_alt by lia. rewrite Hpre, Nat.sub_diag.
      destruct (lookup_lt_is_Some_2 l k Hl) as [y Hy].
      rewrite (drop_S l y k Hy). cbn. now rewrite <- app_assoc. }
    rewrite !Hins by (rewrite ?length_map, ?length_take; lia).
    repeat split.
Qed.

Lemma memset_prefix (v : float) (w : list float) (k : nat) :
  (k <= length w)%nat ->
  fold_left (fun w b => <[b := v]> w) (seq 0 k) w = replicate k v ++ drop k w.
Proof.
  intros Hk. induction k as [| k IH].
  - cbn. now rewrite drop_0.
  - rewrite seq_S, fold_left_app. cbn [fold_left Nat.add].
    rewrite IH by lia.
    rewrite insert_app_r_alt by (rewrite length_replicate; lia).
    rewrite length_replicate, Nat.sub_diag.
    destruct (lookup_lt_is_Some_2 w k ltac:(lia)) as [y Hy].
    rewrite (drop_S w y k Hy). cbn.
    change (v :: replicate k v ++ drop (S k) w)
      with ((v :: replicate k v) ++ drop (S k) w).
    rewrite replicate_cons_app, <- app_assoc. reflexivity.
Qed.

(** After [fill_lists] the list holds the sorted bonds, each with the
    weight [memset] leaves. *)
Lemma fill_lists_bonds (lb : list NeighborBond) (nl : NeighborList_cc.NeighborList) :
  length (NeighborList_cc.m_neighbors nl) = length lb ->
  length (NeighborList_cc.m_distances nl) = length lb ->
  length (NeighborList_cc.m_weights nl) = length lb ->
  NeighborList_cc.bonds (fill_lists nl lb)
  = map (fun b => mkNeighborBond (id b) (ref_id b) (distance b) (memset_float 1)) lb.
Proof.
  intros Hn Hd Hw. unfold fill_lists.
  destruct (write_bonds_prefix lb nl (length lb) (Nat.le_refl _) Hn Hd)
    as (Wn & Wd & Ww). cbn zeta in Wn, Wd, Ww.
  set (nl1 := fold_left (write_bond lb) (seq 0 (length lb)) nl) in *.
  rewrite firstn_all in Wn, Wd.
  rewrite drop_ge, app_nil_r in Wn by lia.
  rewrite drop_ge, app_nil_r in Wd by lia.
  unfold memset_weights, NeighborList_cc.bonds, NeighborList_cc.getNumBonds.
  cbn [NeighborList_cc.set_weights NeighborList_cc.m_neighbors].
  rewrite memset_prefix by (rewrite Ww; lia).
  rewrite drop_ge, app_nil_r by (rewrite Ww; lia).
  rewrite Wn, length_map.
  set (d0 := mkNeighborBond 0 0 0 0).
  set (F := fun b => mkNeighborBond (id b) (ref_id b) (distance b) (memset_float 1)).
  transitivity (map (fun b => F (nth b lb d0)) (seq 0 (length lb))).
  - apply map_ext_in. intros b Hb. apply in_seq in Hb.
    unfold NeighborList_cc.bond_at, NeighborList_cc.get2,
      NeighborList_cc.set_weights.
    cbn [NeighborList_cc.m_neighbors NeighborList_cc.m_distances
           NeighborList_cc.m_weights Nat.eqb].
    rewrite Wn, Wd.
    assert (E1 : nth b (map (fun b => (id b, ref_id b)) lb) (0, 0)%nat
                 = (id (nth b lb d0), ref_id (nth b lb d0)))
      by (apply (map_nth (fun b => (id b, ref_id b)) lb d0 b)).
    assert (E2 : nth b (map distance lb) 0%Q = distance (nth b lb d0))
      by (apply (map_nth distance lb d0 b)).
    assert (E3 : nth b (replicate (length lb) (memset_float 1)) 0%Q = memset_float 1)
      by (apply nth_lookup_Some, lookup_replicate_2; lia).
    rewrite E1, E2, E3. reflexivity.
  - rewrite <- (map_map (fun b => nth b lb d0) F).
    rewrite (map_nth_seq d0 lb (length lb) (Nat.le_refl _)).
    now rewrite firstn_all.
Qed.

Lemma fresh_list_sized (default_reset : bool) (m a b : nat) :
  let nl := NeighborList_cc.setNumBonds default_reset
              (NeighborList_cc.resize NeighborList_cc.NeighborList_default m
                 default_reset) m a b in
  length (NeighborList_cc.m_neighbors nl) = m
  /\ length (NeighborList_cc.m_distances nl) = m
  /\ length (NeighborList_cc.m_weights nl) = m.
Proof.
  cbn zeta. unfold NeighborList_cc.setNumBonds.
  cbn [NeighborList_cc.m_neighbors NeighborList_cc.m_distances
         NeighborList_cc.m_weights].
  assert (H0 : ListSpec.consistent NeighborList_cc.NeighborList_default)
    by (split; reflexivity).
  destruct (NeighborList_facts.resize_consistent _ m default_reset H0) as [H1 Hm1].
  destruct (NeighborList_facts.resize_consistent _ m default_reset H1) as [[Hw Hd] Hm].
  unfold NeighborList_cc.getNumBonds in *. rewrite Hw, Hd, Hm. repeat split.
Qed.

(** The round trip in general, for iterators that yield the bonds of
    their own query point and no self-exclusion: the driver sees, after
    materialisation, the bonds of the live stream up to order, each
    with its weight replaced by the float [memset] leaves. *)
Lemma round_trip_resets_weights (T : NeighborBond) (default_weight : float)
    (default_reset : bool) (nq : NeighborQuery) (bs : nat -> list NeighborBond)
    (tbb : NeighborComputeFunctional_h.schedule) (parallel : bool) (n fuel : nat) :
  (forall j, (length (bs j) + 2 <= fuel)%nat) ->
  (forall j b, In b (bs j) -> id b = j) ->
  exists nl live back,
    toNeighborList default_weight default_reset nq n false (list_stream T bs) fuel
      = Some (Returns nl)
    /\ NeighborComputeFunctional_h.loopOverNeighbors tbb (list_stream T bs) n None
         parallel fuel
       = Some (Returns live)
    /\ NeighborComputeFunctional_h.loopOverNeighbors tbb (list_stream T bs) n (Some nl)
         parallel fuel
       = Some (Returns back)
    /\ Permutation back (map (with_weight (memset_float 1)) live).
Proof.
  intros Hfuel Hid. unfold toNeighborList.
  rewrite (collect_all_list T default_weight bs fuel n 0 [] Hfuel). cbn [app].
  set (collected := flat_map (fun j => map (retag default_weight j) (bs j)) (seq 0 n)).
  set (linear := sort_by NeighborList_cc.compareNeighborBond collected).
  destruct (fresh_list_sized default_reset (length linear) n (getNPoints nq))
    as (Hl1 & Hl2 & Hl3).
  set (nl := fill_lists
               (NeighborList_cc.setNumBonds default_reset
                  (NeighborList_cc.resize NeighborList_cc.NeighborList_default
                     (length linear) default_reset)
                  (length linear) n (getNPoints nq)) linear).
  exists nl,
    (flat_map bs (if parallel then TraversalSpec.scheduled tbb 0 n else seq 0 n)),
    (map (NeighborList_cc.bond_at nl)
       (if parallel
        then TraversalSpec.scheduled tbb 0 (NeighborList_cc.getNumBonds nl)
        else seq 0 (NeighborList_cc.getNumBonds nl))).
  split; [reflexivity |]. split; [| split].
  - unfold NeighborComputeFunctional_h.loopOverNeighbors.
    rewrite (Schedule_facts.forLoopWrapper_indices tbb _
               (fun i seen => Some (Returns (seen ++ bs i)))).
    + now rewrite Schedule_facts.run_indices_append.
    + intros b e st. rewrite Schedule_facts.run_indices_append.
      apply (drive_all_list T bs fuel (e - b) b st Hfuel).
  - apply Schedule_facts.loopOverNeighbors_list.
  - rewrite (Permutation_map _ (Schedule_facts.run_order_perm tbb _ parallel)).
    rewrite (Permutation_flat_map _ (Schedule_facts.run_order_perm tbb n parallel)).
    fold (NeighborList_cc.bonds nl). unfold nl.
    rewrite (fill_lists_bonds linear _ Hl1 Hl2 Hl3).
    fold (with_weight (memset_float 1)).
    unfold linear. rewrite (sort_by_perm _ collected). unfold collected.
    rewrite !flat_map_concat_map, !concat_map, !map_map.
    erewrite map_ext_in; [reflexivity |].
    intros j _. cbn beta. rewrite map_map. apply map_ext_in.
    intros b Hb. unfold with_weight, retag. cbn.
    now rewrite (Hid j b Hb).
Qed.

(** C7 on the code: one query point whose iterator yields the single
    bond (0, 1, 1/2) of weight 1.  The live per-pair driver sees that
    bond; after materialisation the driver sees the same indices and
    distance, but the weight is the float whose four bytes are 1, which
    is not 1. *)
Theorem round_trip_weight_differs (T : NeighborBond) (default_weight : float)
    (default_reset : bool) (nq : NeighborQuery)
    (tbb : NeighborComputeFunctional_h.schedule) (parallel : bool) :
  let stream := fun i : nat =>
    Returns (mkListIterator T [mkNeighborBond i 1 (1 # 2) 1] false) in
  NeighborComputeFunctional_h.loopOverNeighbors tbb stream 1 None parallel 3
    = Some (Returns [mkNeighborBond 0 1 (1 # 2) 1])
  /\ (exists nl,
        toNeighborList default_weight default_reset nq 1 false stream 3
          = Some (Returns nl)
        /\ NeighborComputeFunctional_h.loopOverNeighbors tbb stream 1 (Some nl)
             parallel 3
          = Some (Returns [mkNeighborBond 0 1 (1 # 2) (memset_float 1)]))
  /\ ~ (memset_float 1 == 1)%Q
  /\ (float_of_bits 1065353216 == 1)%Q.
Proof.
  intros stream.
  assert (Hone : forall (St : Type) (body : nat -> nat -> St -> option (outcome St))
                        (st : St),
            NeighborComputeFunctional_h.forLoopWrapper tbb 0 1 body parallel st
            = match body 0%nat 1%nat st with
              | Some (Returns st') => Some (Returns st')
              | r => r
              end).
  { intros St body st. unfold NeighborComputeFunctional_h.forLoopWrapper.
    destruct parallel.
    - rewrite Schedule_facts.blocks_one.
      cbn [NeighborComputeFunctional_h.run_blocks].
      destruct (body 0%nat 1%nat st) as [[st' | e |] |]; reflexivity.
    - destruct (body 0%nat 1%nat st) as [[st' | e |] |]; reflexivity. }
  split; [| split].
  - unfold NeighborComputeFunctional_h.loopOverNeighbors. rewrite Hone. reflexivity.
  - destruct default_reset;
      (eexists; split; [reflexivity |];
       unfold NeighborComputeFunctional_h.loopOverNeighbors;
       change (NeighborList_cc.getNumBonds _) with 1%nat; rewrite Hone; reflexivity).
  - split; [| reflexivity].
    intros Heq. vm_compute in Heq. discriminate Heq.
Qed.

End NeighborQuery_facts.

(** * Properties of AABBQuery.cc *)

Module AABBQuery_facts.
Import AABBQuery_cc ImageSpec.

Lemma Qle_bool_true (x y : Q) : Qle_bool x y = true <-> (x <= y)%Q.
Proof. apply Qle_bool_iff. Qed.

Lemma rcut_too_large_spec (box : Box) (rmax : float) :
  rcut_too_large box rmax = true <->
    (periodic_x box = true /\ (vx (getNearestPlaneDistance box) <= 2 * rmax)%Q)
    \/ (periodic_y box = true /\ (vy (getNearestPlaneDistance box) <= 2 * rmax)%Q)
    \/ (is2D box = false /\ periodic_z box = true
        /\ (vz (getNearestPlaneDistance box) <= 2 * rmax)%Q).
Proof.
  unfold rcut_too_large.
  rewrite !orb_true_iff, !andb_true_iff, negb_true_iff, !Qle_bool_true.
  replace (rmax * 2)%Q with (rmax * 2)%Q by reflexivity.
  assert (Hc : forall x, (x <= rmax * 2 <-> x <= 2 * rmax)%Q)
    by (intros x; split; intros; lra).
  rewrite !Hc. tauto.
Qed.

(** Writing the first [n] slots of a list that has them. *)
Ltac split_list L HL :=
  repeat (destruct L as [| ? L]; [cbn in HL; lia |]).

Lemma updateImageVectors_images (box : Box) (l0 : list vec3) (rmax : float) :
  rcut_too_large box rmax = false ->
  exists imgs,
    updateImageVectors box l0 rmax = Returns (pow3 (n_dim_periodic box), imgs)
    /\ take (pow3 (n_dim_periodic box)) imgs = shift_list box.
Proof.
  intros Hok. unfold updateImageVectors. rewrite Hok.
  unfold n_dim_periodic, shift_list, shift.
  destruct box as [lv npd px py pz d2]. cbn [periodic_x periodic_y periodic_z is2D
    getLatticeVector getNearestPlaneDistance].
  set (n := pow3 _).
  set (L := if (length l0 <? n)%nat then _ else l0).
  assert (HL : (n <= length L)%nat).
  { subst L. destruct (Nat.ltb_spec (length l0) n).
    - rewrite length_app, length_replicate. lia.
    - lia. }
  clearbody L.
  destruct px, py, pz, d2; cbn in n; subst n; split_list L HL;
    (eexists; split; [reflexivity | reflexivity]).
Qed.

(** C4. [updateImageVectors] throws exactly when some periodic axis (the
    z axis only in 3D) has a nearest-plane distance of at most
    [2 * rmax]; when it does not throw, it returns [3 ^ d] images for
    [d] the count of periodic dimensions, and the image list starts with
    the zero shift followed by the other shifts of the periodic axes. *)
Theorem updateImageVectors_throws_iff (box : Box) (l0 : list vec3) (rmax : float) :
  (updateImageVectors box l0 rmax
     = Throws (runtime_error "The AABBData rcut is too large for this box.") <->
     (periodic_x box = true /\ (vx (getNearestPlaneDistance box) <= 2 * rmax)%Q)
     \/ (periodic_y box = true /\ (vy (getNearestPlaneDistance box) <= 2 * rmax)%Q)
     \/ (is2D box = false /\ periodic_z box = true
         /\ (vz (getNearestPlaneDistance box) <= 2 * rmax)%Q))
  /\ (is_throw (updateImageVectors box l0 rmax) = false ->
      exists imgs,
        updateImageVectors box l0 rmax = Returns (3 ^ n_dim_periodic box, imgs)%nat
        /\ length (take (3 ^ n_dim_periodic box) imgs) = (3 ^ n_dim_periodic box)%nat
        /\ take (3 ^ n_dim_periodic box) imgs = shift_list box
        /\ imgs !! 0%nat = Some vzero).
Proof.
  assert (Hpow : forall n, pow3 n = (3 ^ n)%nat).
  { induction n as [| n IH]; cbn; [reflexivity | rewrite IH; lia]. }
  assert (Hthrow : is_throw (updateImageVectors box l0 rmax) = rcut_too_large box rmax).
  { unfold updateImageVectors. destruct (rcut_too_large box rmax); reflexivity. }
  split.
  { rewrite <- rcut_too_large_spec. unfold updateImageVectors.
    destruct (rcut_too_large box rmax); split; congruence. }
  rewrite Hthrow. intros Hok.
  destruct (updateImageVectors_images box l0 rmax Hok) as (imgs & Hret & Htake).
  rewrite Hpow in Hret, Htake.
  exists imgs. split; [exact Hret |].
  assert (Hlen : length (shift_list box) = (3 ^ n_dim_periodic box)%nat).
  { unfold shift_list, n_dim_periodic.
    destruct (periodic_x box), (periodic_y box), (periodic_z box), (is2D box);
      reflexivity. }
  split; [now rewrite Htake |]. split; [exact Htake |].
  assert (H0 : take (3 ^ n_dim_periodic box) imgs !! 0%nat = Some vzero)
    by (rewrite Htake; reflexivity).
  rewrite lookup_take_Some in H0. apply H0.
Qed.

(** ** The ball iterator *)

Import BallSpec Numeric_facts.






Section ball.
Variable F : FloatOps.
Variable sqrt : float -> float.
Variable T : NeighborPoint.
Variable data : AABBQuery.
Variable r : float.

Let tree := m_aabb_tree data.

(** The neighbor the iterator makes of point [j] seen from [c], if it
    is one. *)
Definition hit (c : vec3) (j : nat) : list NeighborPoint :=
  if Qltb (dr_sq F data c j) (fmul F r r)
  then [mkNeighborPoint j (sqrt (dr_sq F data c j))] else [].

Definition tags_hits (c : vec3) (tags : list nat) : list NeighborPoint :=
  flat_map (hit c) tags.

Definition node_hits (c : vec3) (nd : AABBNode) (p : nat) : list NeighborPoint :=
  tags_hits c (drop p (leaf_tags nd)).

Definition nodes_hits (c : vec3) (nds : list AABBNode) : list NeighborPoint :=
  flat_map (fun nd => node_hits c nd 0) nds.

(** What is left to yield for the sphere at [c] from the cursor
    ([node], [p]) on. *)
Definition tree_hits (c : vec3) (node p : nat) : list NeighborPoint :=
  match drop node tree with
  | [] => []
  | nd :: rest => node_hits c nd p ++ nodes_hits c rest
  end.

(** No miss of the traversal for the sphere at [c] loses a neighbor. *)
Definition safe_at (c : vec3) : Prop :=
  forall idx, (idx < getNumNodes tree)%nat -> miss_safe F data r c idx = true.

Lemma drop_nth_cons {A : Type} (l : list A) (i : nat) (d : A) :
  (i < length l)%nat -> drop i l = nth i l d :: drop (S i) l.
Proof.
  revert i. induction l as [| x l IH]; intros [| i] Hi; cbn in *;
    try lia; try reflexivity.
  apply IH. lia.
Qed.

Lemma particle_loop_spec (c : vec3) (node : nat) (n : nat) :
  forall p,
    n = (getNodeNumParticles tree node - p)%nat ->
    match particle_loop F sqrt data n (fmul F r r) c node p with
    | inl (np, p') =>
        tags_hits c (drop p (node_particles (nth node tree null_node)))
          = np :: tags_hits c (drop p' (node_particles (nth node tree null_node)))
    | inr _ =>
        tags_hits c (drop p (node_particles (nth node tree null_node))) = []
    end.
Proof.
  unfold getNodeNumParticles.
  induction n as [| n IH]; intros p Hn; cbn [particle_loop].
  - rewrite drop_ge by lia. reflexivity.
  - assert (Hstep :
      tags_hits c (drop p (node_particles (nth node tree null_node)))
      = hit c (nth p (node_particles (nth node tree null_node)) 0%nat)
        ++ tags_hits c (drop (S p) (node_particles (nth node tree null_node)))).
    { rewrite (drop_nth_cons _ p 0%nat) by lia. reflexivity. }
    unfold getNodeParticleTag. fold tree.
    destruct (Qltb (dr_sq F data c (nth p (node_particles (nth node tree null_node)) 0%nat))
                (fmul F r r)) eqn:Hhit.
    + rewrite Hstep. unfold hit. rewrite Hhit. reflexivity.
    + specialize (IH (S p) ltac:(lia)).
      destruct (particle_loop F sqrt data n (fmul F r r) c node (S p)) as [[np p'] | p'];
        rewrite Hstep; unfold hit; rewrite Hhit; exact IH.
Qed.

Lemma flat_map_nil {A B : Type} (f : A -> list B) (l : list A) :
  (forall x, In x l -> f x = []) -> flat_map f l = [].
Proof.
  induction l as [| x l IH]; intros Hf; cbn; [reflexivity |].
  rewrite (Hf x) by (left; reflexivity). apply IH.
  intros y Hy. apply Hf. right. exact Hy.
Qed.

(** The nodes a safe miss bypasses yield nothing. *)
Lemma bypassed_no_hits (c : vec3) (idx : nat) (nd : AABBNode) (p : nat) :
  miss_safe F data r c idx = true ->
  overlap F (getNodeAABB tree idx) (mkAABBSphere c r) = false ->
  In nd (take (S (getNodeSkip tree idx)) (drop idx tree)) ->
  node_hits c nd p = [].
Proof.
  intros Hsafe Hmiss Hnd. unfold miss_safe in Hsafe. fold tree in Hsafe.
  rewrite Hmiss in Hsafe. cbn [orb] in Hsafe.
  rewrite forallb_forall in Hsafe. specialize (Hsafe nd Hnd).
  rewrite forallb_forall in Hsafe.
  apply flat_map_nil. intros j Hj.
  assert (Hin : In j (leaf_tags nd)).
  { apply list_elem_of_In. apply list_elem_of_In in Hj.
    eapply (subseteq_drop p). exact Hj. }
  specialize (Hsafe j Hin).
  unfold hit. destruct (Qltb (dr_sq F data c j) (fmul F r r)); [discriminate | reflexivity].
Qed.

Lemma tree_hits_0 (c : vec3) (node : nat) :
  tree_hits c node 0 = nodes_hits c (drop node tree).
Proof. unfold tree_hits. destruct (drop node tree); reflexivity. Qed.

Lemma tree_hits_lt (c : vec3) (node p : nat) :
  (node < getNumNodes tree)%nat ->
  tree_hits c node p
  = node_hits c (nth node tree null_node) p ++ tree_hits c (S node) 0.
Proof.
  intros Hlt. rewrite tree_hits_0. unfold tree_hits.
  now rewrite (drop_nth_cons tree node null_node Hlt).
Qed.

Lemma tree_hits_ge (c : vec3) (node p : nat) :
  (getNumNodes tree <= node)%nat -> tree_hits c node p = [].
Proof. intros Hge. unfold tree_hits. now rewrite drop_ge. Qed.

Lemma nodes_hits_app (c : vec3) (l1 l2 : list AABBNode) :
  nodes_hits c (l1 ++ l2) = nodes_hits c l1 ++ nodes_hits c l2.
Proof. apply flat_map_app. Qed.

(** The traversal of the tree for one image, resumed at ([node], [p]):
    a returned neighbor is the next one left to yield, and the loop
    ends only when none is left, with the bucket cursor back at 0. *)
Lemma node_loop_spec (c : vec3) :
  safe_at c ->
  forall fuel node p,
    (getNumNodes tree - node <= fuel)%nat ->
    match node_loop F sqrt data fuel (fmul F r r) c (mkAABBSphere c r) node p with
    | inl (np, (node', p')) =>
        tree_hits c node p = np :: tree_hits c node' p'
        /\ (node' < getNumNodes tree)%nat
    | inr (_, p') =>
        tree_hits c node p = []
        /\ ((node < getNumNodes tree)%nat \/ p = 0%nat -> p' = 0%nat)
    end.
Proof.
  intros Hb. induction fuel as [| fuel IH]; intros node p Hfuel;
    cbn [node_loop].
  - split; [apply tree_hits_ge; lia | intros [? | ?]; [lia | assumption]].
  - fold tree. destruct (Nat.ltb_spec node (getNumNodes tree)) as [Hlt | Hge];
      [| split; [apply tree_hits_ge; lia | intros [? | ?]; [lia | assumption]]].
    rewrite (tree_hits_lt c node p Hlt).
    assert (Hrec : forall node2,
      (node < node2)%nat ->
      node_hits c (nth node tree null_node) p ++ tree_hits c (S node) 0
        = tree_hits c node2 0 ->
      match node_loop F sqrt data fuel (fmul F r r) c (mkAABBSphere c r) node2 0 with
      | inl (np, (node', p')) =>
          node_hits c (nth node tree null_node) p ++ tree_hits c (S node) 0
            = np :: tree_hits c node' p'
          /\ (node' < getNumNodes tree)%nat
      | inr (_, p') =>
          node_hits c (nth node tree null_node) p ++ tree_hits c (S node) 0 = []
          /\ ((node < getNumNodes tree)%nat \/ p = 0%nat -> p' = 0%nat)
      end).
    { intros node2 Hn2 Heq. rewrite Heq.
      specialize (IH node2 0%nat ltac:(lia)).
      destruct (node_loop F sqrt data fuel (fmul F r r) c (mkAABBSphere c r) node2 0)
        as [[np [node' p'']] | [node' p'']].
      - exact IH.
      - destruct IH as [IH1 IH2]. split; [exact IH1 |].
        intros _. apply IH2. right. reflexivity. }
    destruct (overlap F (getNodeAABB tree node) (mkAABBSphere c r)) eqn:Hov.
    + unfold isNodeLeaf.
      destruct (node_leaf (nth node tree null_node)) eqn:Hleaf.
      * assert (Hnh : forall q, node_hits c (nth node tree null_node) q
                  = tags_hits c (drop q (node_particles (nth node tree null_node))))
          by (intros q; unfold node_hits, leaf_tags; now rewrite Hleaf).
        pose proof (particle_loop_spec c node
                      (getNodeNumParticles tree node - p) p eq_refl) as Hpl.
        destruct (particle_loop F sqrt data (getNodeNumParticles tree node - p)
                    (fmul F r r) c node p) as [[np p'] | p'].
        -- rewrite Hnh, Hpl. rewrite (tree_hits_lt c node p' Hlt), Hnh.
           split; [reflexivity | exact Hlt].
        -- apply Hrec; [lia |]. now rewrite Hnh, Hpl.
      * apply Hrec; [lia |].
        unfold node_hits, leaf_tags. rewrite Hleaf. now rewrite drop_nil.
    + apply Hrec; [lia |].
      assert (Htake : take (S (getNodeSkip tree node)) (drop node tree)
                      = nth node tree null_node
                        :: take (getNodeSkip tree node) (drop (S node) tree)).
      { now rewrite (drop_nth_cons tree node null_node Hlt). }
      rewrite (bypassed_no_hits c node _ p (Hb node Hlt) Hov)
        by (rewrite Htake; left; reflexivity).
      cbn [app]. rewrite !tree_hits_0.
      rewrite <- (take_drop (getNodeSkip tree node) (drop (S node) tree)) at 1.
      rewrite nodes_hits_app.
      replace (nodes_hits c (take (getNodeSkip tree node) (drop (S node) tree)))
        with (@nil NeighborPoint).
      * cbn [app]. rewrite drop_drop. reflexivity.
      * symmetry. apply flat_map_nil. intros nd Hnd.
        apply (bypassed_no_hits c node nd 0 (Hb node Hlt) Hov).
        rewrite Htake. right. exact Hnd.
Qed.

(** The image shifts an iterator goes through. *)
Definition shifts (it : AABBQueryBallIterator) : list vec3 :=
  map (fun i => nth i (b_image_list it) vzero) (seq 0 (b_n_images it)).

(** What is left to yield from the cursor ([image], [node], [p]) on. *)
Definition all_hits (it : AABBQueryBallIterator) (pos_i : vec3)
    (image node p : nat) : list NeighborPoint :=
  match drop image (shifts it) with
  | [] => []
  | s :: rest =>
      tree_hits (fvadd F pos_i s) node p
      ++ flat_map (fun s => tree_hits (fvadd F pos_i s) 0 0) rest
  end.

Lemma length_shifts (it : AABBQueryBallIterator) :
  length (shifts it) = b_n_images it.
Proof. unfold shifts. now rewrite length_map, length_seq. Qed.

Lemma drop_shifts (it : AABBQueryBallIterator) (image : nat) :
  (image < b_n_images it)%nat ->
  drop image (shifts it)
  = nth image (b_image_list it) vzero :: drop (S image) (shifts it).
Proof.
  intros Hlt. rewrite (drop_nth_cons (shifts it) image vzero)
    by (rewrite length_shifts; exact Hlt).
  f_equal. unfold shifts.
  rewrite (nth_indep _ vzero (nth 0 (b_image_list it) vzero))
    by (rewrite length_map, length_seq; exact Hlt).
  rewrite (map_nth (fun i => nth i (b_image_list it) vzero)).
  now rewrite seq_nth.
Qed.

Lemma all_hits_S (it : AABBQueryBallIterator) (pos_i : vec3) (image : nat) :
  all_hits it pos_i (S image) 0 0
  = flat_map (fun s => tree_hits (fvadd F pos_i s) 0 0) (drop (S image) (shifts it)).
Proof. unfold all_hits. destruct (drop (S image) (shifts it)); reflexivity. Qed.

(** No miss loses a neighbor, under any image shift of the iterator. *)
Definition images_safe (it : AABBQueryBallIterator) (pos_i : vec3) : Prop :=
  forall image, (image < b_n_images it)%nat ->
    safe_at (fvadd F pos_i (nth image (b_image_list it) vzero)).

Lemma image_loop_spec (it : AABBQueryBallIterator) (pos_i : vec3) :
  images_safe it pos_i -> b_r it = r ->
  forall fuel image node p,
    (b_n_images it - image <= fuel)%nat ->
    ((node < getNumNodes tree)%nat \/ p = 0%nat) ->
    match image_loop F sqrt data fuel it (fmul F r r) pos_i image node p with
    | inl (np, (image', node', p')) =>
        all_hits it pos_i image node p = np :: all_hits it pos_i image' node' p'
        /\ (node' < getNumNodes tree)%nat
    | inr _ => all_hits it pos_i image node p = []
    end.
Proof.
  intros Hb Hr. induction fuel as [| fuel IH]; intros image node p Hfuel Hcur;
    cbn [image_loop].
  - unfold all_hits. rewrite drop_ge by (rewrite length_shifts; lia). reflexivity.
  - destruct (Nat.ltb_spec image (b_n_images it)) as [Hlt | Hge].
    + rewrite Hr. fold tree.
      pose proof (node_loop_spec (fvadd F pos_i (nth image (b_image_list it) vzero))
                    (Hb image Hlt) (getNumNodes tree - node) node p ltac:(lia)) as Hnl.
      destruct (node_loop F sqrt data (getNumNodes tree - node) (fmul F r r)
                  (fvadd F pos_i (nth image (b_image_list it) vzero))
                  (mkAABBSphere (fvadd F pos_i (nth image (b_image_list it) vzero)) r)
                  node p) as [[np [node' p']] | [node' p']].
      * destruct Hnl as [Hnl Hnode']. split; [| exact Hnode'].
        unfold all_hits. rewrite (drop_shifts it image Hlt), Hnl. reflexivity.
      * destruct Hnl as [Hnl Hp']. rewrite (Hp' Hcur).
        specialize (IH (S image) 0%nat 0%nat ltac:(lia) ltac:(right; reflexivity)).
        assert (Heq : all_hits it pos_i image node p = all_hits it pos_i (S image) 0 0).
        { rewrite all_hits_S. unfold all_hits.
          rewrite (drop_shifts it image Hlt), Hnl. reflexivity. }
        rewrite Heq.
        destruct (image_loop F sqrt data fuel it (fmul F r r) pos_i (S image) 0 0)
          as [[np [[image' node''] p'']] | ?]; exact IH.
    + unfold all_hits. rewrite drop_ge by (rewrite length_shifts; lia). reflexivity.
Qed.

(** The query position the iterator starts from. *)
Definition pos_of (it : AABBQueryBallIterator) : vec3 :=
  flatten (m_box data) (b_point it).

Definition total_hits (it : AABBQueryBallIterator) : list NeighborPoint :=
  all_hits it (pos_of it) (cur_image it) (cur_node_idx it) (cur_p it).

Definition cursor_ok (it : AABBQueryBallIterator) : Prop :=
  (cur_node_idx it < getNumNodes tree)%nat \/ cur_p it = 0%nat.

Definition same_query (it it' : AABBQueryBallIterator) : Prop :=
  b_point it' = b_point it /\ b_r it' = b_r it
  /\ b_n_images it' = b_n_images it /\ b_image_list it' = b_image_list it.

(** One call of [next]: either the next neighbor left to yield, or,
    when none is left, the terminator with [m_finished] set. *)
Lemma ball_next_spec (it : AABBQueryBallIterator) :
  images_safe it (pos_of it) -> b_r it = r -> cursor_ok it ->
  let '(np, it') := ball_next F sqrt T data it in
  same_query it it' /\
  ((total_hits it = np :: total_hits it' /\ cursor_ok it'
    /\ b_finished it' = b_finished it)
   \/ (total_hits it = [] /\ np = T /\ b_finished it' = true)).
Proof.
  intros Hb Hr Hcur. unfold ball_next.
  pose proof (image_loop_spec it (pos_of it) Hb Hr
                (b_n_images it - cur_image it) (cur_image it)
                (cur_node_idx it) (cur_p it) ltac:(lia) Hcur) as Hil.
  unfold pos_of, flatten in Hil. rewrite Hr.
  destruct (image_loop F sqrt data (b_n_images it - cur_image it) it (fmul F r r)
              (if is2D (m_box data) then set_z (b_point it) 0 else b_point it)
              (cur_image it) (cur_node_idx it) (cur_p it))
    as [[np [[image' node'] p']] | [[image' node'] p']].
  - destruct Hil as [Hil Hnode'].
    split; [repeat split; symmetry; exact Hr |]. left. repeat split.
    + exact Hil.
    + left. exact Hnode'.
  - split; [repeat split; symmetry; exact Hr |]. right. repeat split. exact Hil.
Qed.

Lemma same_query_total_hits_r (it it' : AABBQueryBallIterator) :
  same_query it it' -> b_r it = r -> b_r it' = r.
Proof. intros (_ & Hr' & _) Hr. congruence. Qed.

Lemma same_query_images_safe (it it' : AABBQueryBallIterator) :
  same_query it it' -> images_safe it (pos_of it) -> images_safe it' (pos_of it').
Proof.
  intros (Hp & _ & Hn & Hl) Hs. unfold images_safe, pos_of in *.
  rewrite Hp, Hn, Hl. exact Hs.
Qed.

(** Draining an iterator collects exactly what is left to yield, then
    the terminator. *)
Lemma ball_collect_spec (n : nat) :
  forall (it : AABBQueryBallIterator) (v : list NeighborPoint) (fuel : nat),
    images_safe it (pos_of it) ->
    b_r it = r -> cursor_ok it -> b_finished it = false ->
    length (total_hits it) = n -> (n + 2 <= fuel)%nat ->
    ball_collect F sqrt T data fuel it v = Some (v ++ total_hits it ++ [T]).
Proof.
  induction n as [| n IH]; intros it v fuel Hb Hr Hcur Hfin Hlen Hfuel;
    (destruct fuel as [| fuel]; [lia |]); cbn [ball_collect]; rewrite Hfin;
    pose proof (ball_next_spec it Hb Hr Hcur) as Hnext;
    destruct (ball_next F sqrt T data it) as [np it'];
    destruct Hnext as [Hsame [(Hhits & Hcur' & Hfin') | (Hhits & Hnp & Hfin')]].
  - rewrite Hhits in Hlen. discriminate Hlen.
  - destruct fuel as [| fuel]; [lia |]. cbn [ball_collect].
    rewrite Hfin', Hhits, Hnp. reflexivity.
  - rewrite Hhits in Hlen. cbn in Hlen.
    rewrite (IH it' (v ++ [np]) fuel
               (same_query_images_safe it it' Hsame Hb)
               (same_query_total_hits_r it it' Hsame Hr) Hcur'
               ltac:(congruence) ltac:(lia) ltac:(lia)).
    rewrite Hhits, <- app_assoc. reflexivity.
  - rewrite Hhits in Hlen. discriminate Hlen.
Qed.

Lemma nodes_hits_tags (c : vec3) (nds : list AABBNode) :
  nodes_hits c nds = flat_map (hit c) (flat_map leaf_tags nds).
Proof.
  induction nds as [| nd nds IH]; [reflexivity |].
  cbn [flat_map]. rewrite flat_map_app, <- IH. reflexivity.
Qed.


End ball.

(** The neighbors of the ball of radius [r] around [q], in the order in
    which a fresh iterator yields them: image by image, bucket by
    bucket. *)
Definition ball_hits (F : FloatOps) (sqrt : float -> float) (data : AABBQuery)
    (q : vec3) (r : float) : list NeighborPoint :=
  flat_map (fun s =>
    flat_map (hit F sqrt data r (fvadd F (flatten (m_box data) q) s))
      (flat_map leaf_tags (m_aabb_tree data)))
    (shift_list (m_box data)).




(** What [queryBall] hands out: a fresh iterator over the enumerated
    image shifts. *)
Lemma queryBall_inv (data : AABBQuery) (q : vec3) (r : float)
    (it : AABBQueryBallIterator) :
  queryBall data q r = Returns it ->
  exists imgs,
    it = mkBallIterator q r (pow3 (n_dim_periodic (m_box data))) imgs 0 0 0 false
    /\ take (pow3 (n_dim_periodic (m_box data))) imgs = shift_list (m_box data)
    /\ (pow3 (n_dim_periodic (m_box data)) <= length imgs)%nat
    /\ (pow3 (n_dim_periodic (m_box data)) <= 27)%nat.
Proof.
  intros Hquery. unfold queryBall in Hquery.
  destruct (rcut_too_large (m_box data) r) eqn:Hcut.
  { unfold updateImageVectors in Hquery. rewrite Hcut in Hquery. discriminate. }
  destruct (updateImageVectors_images (m_box data) [] r Hcut) as (imgs & Hret & Htake).
  rewrite Hret in Hquery. cbn in Hquery. inversion Hquery as [Hit]. clear Hquery.
  exists imgs. split; [reflexivity |]. split; [exact Htake |].
  assert (Hl : length (take (pow3 (n_dim_periodic (m_box data))) imgs)
               = pow3 (n_dim_periodic (m_box data))).
  { rewrite Htake. unfold shift_list, n_dim_periodic.
    destruct (periodic_x (m_box data)), (periodic_y (m_box data)),
      (periodic_z (m_box data)), (is2D (m_box data)); reflexivity. }
  rewrite length_take in Hl. split; [lia |].
  unfold n_dim_periodic.
  destruct (periodic_x (m_box data)), (periodic_y (m_box data)),
    (periodic_z (m_box data)), (is2D (m_box data)); cbn; lia.
Qed.

Lemma queryBall_returns (data : AABBQuery) (q : vec3) (r : float) :
  rcut_too_large (m_box data) r = false ->
  exists it, queryBall data q r = Returns it.
Proof.
  intros Hcut. unfold queryBall.
  destruct (updateImageVectors_images (m_box data) [] r Hcut) as (imgs & Hret & _).
  rewrite Hret. eexists. reflexivity.
Qed.

(** A fresh iterator has every neighbor of every image left to yield. *)
Lemma total_hits_fresh (F : FloatOps) (sqrt : float -> float) (data : AABBQuery)
    (q : vec3) (r : float) (n : nat) (imgs : list vec3) :
  (n <= length imgs)%nat ->
  total_hits F sqrt data r (mkBallIterator q r n imgs 0 0 0 false)
  = flat_map (fun s =>
      flat_map (hit F sqrt data r (fvadd F (flatten (m_box data) q) s))
        (flat_map leaf_tags (m_aabb_tree data)))
      (take n imgs).
Proof.
  intros Hn. unfold total_hits, all_hits, pos_of.
  cbn [cur_image cur_node_idx cur_p b_point].
  rewrite drop_0. unfold shifts. cbn [b_image_list b_n_images].
  rewrite (map_nth_seq vzero imgs n Hn).
  transitivity (flat_map (fun s => tree_hits F sqrt data r
                                      (fvadd F (flatten (m_box data) q) s) 0 0)
                  (take n imgs)).
  - destruct (take n imgs); reflexivity.
  - apply flat_map_ext. intros s.
    now rewrite tree_hits_0, drop_0, nodes_hits_tags.
Qed.

(** The condition on the misses, for a fresh iterator over the
    enumerated image shifts. *)
Lemma prune_sound_images_safe (F : FloatOps) (data : AABBQuery) (q : vec3)
    (r : float) (n : nat) (imgs : list vec3) :
  (n <= length imgs)%nat ->
  prune_sound F data q r (take n imgs) = true ->
  images_safe F data r (mkBallIterator q r n imgs 0 0 0 false)
    (flatten (m_box data) q).
Proof.
  intros Hn Hp image Himage idx Hidx. cbn [b_n_images b_image_list] in *.
  unfold prune_sound in Hp. rewrite forallb_forall in Hp.
  assert (Hin : In (nth image imgs vzero) (take n imgs)).
  { apply list_elem_of_In. apply list_elem_of_lookup. exists image.
    rewrite lookup_take_lt by exact Himage.
    destruct (nth_lookup_or_length imgs image vzero) as [Hl | Hl]; [exact Hl | lia]. }
  specialize (Hp _ Hin). rewrite forallb_forall in Hp.
  apply Hp. apply in_seq. lia.
Qed.

(** Draining the fresh iterator of a ball query. *)
Lemma ball_collect_fresh (F : FloatOps) (sqrt : float -> float) (T : NeighborPoint)
    (data : AABBQuery) (q : vec3) (r : float) (b : AABBQueryBallIterator)
    (fuel : nat) :
  queryBall data q r = Returns b ->
  prune_sound F data q r (shift_list (m_box data)) = true ->
  (length (ball_hits F sqrt data q r) + 2 <= fuel)%nat ->
  ball_collect F sqrt T data fuel b [] = Some (ball_hits F sqrt data q r ++ [T]).
Proof.
  intros Hq Hp Hfuel.
  destruct (queryBall_inv data q r b Hq) as (imgs & -> & Htake & Hn & _).
  set (n := pow3 (n_dim_periodic (m_box data))) in *.
  assert (Hhits : total_hits F sqrt data r (mkBallIterator q r n imgs 0 0 0 false)
                  = ball_hits F sqrt data q r).
  { rewrite (total_hits_fresh F sqrt data q r n imgs Hn), Htake. reflexivity. }
  rewrite <- Hhits in *.
  apply (ball_collect_spec F sqrt T data r
           (length (total_hits F sqrt data r (mkBallIterator q r n imgs 0 0 0 false)))
           (mkBallIterator q r n imgs 0 0 0 false) [] fuel).
  - apply prune_sound_images_safe; [exact Hn | now rewrite Htake].
  - reflexivity.
  - right. reflexivity.
  - reflexivity.
  - reflexivity.
  - exact Hfuel.
Qed.


Import Scenes.


(** The neighbors of scenario S1 (in units of 0.1): point 1 at distance
    2; point 0 sits at distance 3, exactly the cutoff, and is no
    neighbor. *)
Example s1_yield :
  exists it, queryBall s1_data s1_query 3 = Returns it
    /\ ball_yield binary32 isqrt scene_terminator s1_data 5 it
       = Some [mkNeighborPoint 1 2].
Proof. eexists. split; [reflexivity | vm_compute; reflexivity]. Qed.

(** Scenario S2 (in units of 0.01): the point across the periodic
    face is a neighbor through the image shifted by one lattice vector,
    at the same distance 5 as the point next to the query. *)
Example s2_yield :
  exists it, queryBall s2_data (mkvec3 0 0 0) 10 = Returns it
    /\ b_n_images it = 27%nat
    /\ ball_yield binary32 isqrt scene_terminator s2_data 5 it
       = Some [mkNeighborPoint 0 5; mkNeighborPoint 1 5].
Proof.
  eexists. split; [reflexivity |]. split; [reflexivity | vm_compute; reflexivity].
Qed.

(** Scenario S3: in the periodic unit cube a ball query of radius 0.6
    is refused. *)
Example s3_throws :
  queryBall (mkAABBQuery (periodic_cube 1) [] 0 []) (mkvec3 0 0 0) (6 # 10)
  = Throws (runtime_error "The AABBData rcut is too large for this box.").
Proof. reflexivity. Qed.




(** The cutoff in binary32.  A point at (3 - 2^-22, 4, 0), a float
    position, lies at a distance below 5 from the origin.  The squared
    distance rounds to 25, the square of the radius 5, and the strict
    test fails: the ball query of radius 5 around the origin yields
    nothing.  Without rounding the point is yielded. *)
Example cutoff_rounds_in_binary32 :
  let p := mkvec3 (3 - 2 ^ (-22)) 4 0 in
  let data := mkAABBQuery (open_cube 100) [p] 1 [mkAABBNode (mkAABB p p 0) 0 true [0%nat]] in
  (round32 (vx p) == vx p)%Q
  /\ (dot p p < 5 * 5)%Q
  /\ exists it,
       queryBall data vzero 5 = Returns it
       /\ prune_sound binary32 data vzero 5 (shift_list (m_box data)) = true
       /\ ball_yield binary32 isqrt scene_terminator data 3 it = Some []
       /\ exists d, ball_yield exact isqrt scene_terminator data 3 it
                    = Some [mkNeighborPoint 0 d].
Proof.
  intros p data. split; [vm_compute; reflexivity |]. split; [vm_compute; reflexivity |].
  eexists. split; [reflexivity |].
  split; [vm_compute; reflexivity |]. split; [vm_compute; reflexivity |].
  eexists. vm_compute. reflexivity.
Qed.

(** ** The k-nearest-neighbor iterator *)

Lemma length_flat_map_le {A B : Type} (f : A -> list B) (l : list A) (m : nat) :
  (forall x, (length (f x) <= m)%nat) ->
  (length (flat_map f l) <= length l * m)%nat.
Proof.
  intros Hf. induction l as [| x l IH]; cbn; [lia |].
  rewrite length_app. specialize (Hf x). lia.
Qed.

(** The calls of [next] that drain any ball iterator of [data]: one per
    image and bucket entry, one for the terminator, one to see
    [end()]. *)
Definition drain_steps (data : AABBQuery) : nat :=
  27 * length (flat_map leaf_tags (m_aabb_tree data)) + 2.

Lemma length_ball_hits (F : FloatOps) (sqrt : float -> float) (data : AABBQuery)
    (q : vec3) (r : float) :
  (length (ball_hits F sqrt data q r) + 2 <= drain_steps data)%nat.
Proof.
  unfold drain_steps, ball_hits.
  set (tags := flat_map leaf_tags (m_aabb_tree data)).
  assert (Hlen : (length (flat_map (fun s =>
                     flat_map (hit F sqrt data r (fvadd F (flatten (m_box data) q) s)) tags)
                     (shift_list (m_box data)))
                  <= length (shift_list (m_box data)) * length tags)%nat).
  { apply length_flat_map_le. intros s.
    rewrite <- (Nat.mul_1_r (length tags)).
    apply length_flat_map_le. intros j. unfold hit.
    destruct (Qltb _ _); cbn; lia. }
  assert (H27 : (length (shift_list (m_box data)) <= 27)%nat).
  { unfold shift_list.
    destruct (periodic_x (m_box data)), (periodic_y (m_box data)),
      (periodic_z (m_box data)), (is2D (m_box data)); cbn; lia. }
  nia.
Qed.

(** Every ball query whose misses are safe is drained within
    [drain_steps]. *)
Lemma ball_collect_total (F : FloatOps) (sqrt : float -> float) (T : NeighborPoint)
    (data : AABBQuery) (q : vec3) (r : float) (b : AABBQueryBallIterator)
    (steps : nat) :
  queryBall data q r = Returns b ->
  prune_sound F data q r (shift_list (m_box data)) = true ->
  (drain_steps data <= steps)%nat ->
  ball_collect F sqrt T data steps b [] = Some (ball_hits F sqrt data q r ++ [T]).
Proof.
  intros Hq Hp Hsteps.
  apply (ball_collect_fresh F sqrt T data q r b steps Hq Hp).
  pose proof (length_ball_hits F sqrt data q r). lia.
Qed.





Section knn.
Variable F : FloatOps.
Variable sqrt : float -> float.
Variable T : NeighborPoint.
Variable data : AABBQuery.

(** The iterator a round leaves: radius [r] and buffer [buf]. *)
Definition after_round (it : AABBQueryIterator) (r : float) (buf : list NeighborPoint)
    : AABBQueryIterator :=
  mkQueryIterator (q_point it) (m_k it) r (m_scale it) buf (q_finished it).

(** One round of the radius loop whose ball query is accepted and
    loses no neighbor. *)
Lemma expand_step (steps fuel : nat) (mpd : float) (it : AABBQueryIterator) :
  rcut_too_large (m_box data) (m_r it) = false ->
  prune_sound F data (q_point it) (m_r it) (shift_list (m_box data)) = true ->
  (drain_steps data <= steps)%nat ->
  expand F sqrt T data (S fuel) steps mpd it
  = let hits := ball_hits F sqrt data (q_point it) (m_r it) in
    if (m_k it <=? length hits)%nat
    then Some (Returns tt, after_round it (m_r it) hits)
    else if Qltb (fdiv F mpd 2) (fmul F (m_r it) (m_scale it))
         then Some (Returns tt, after_round it (fmul F (m_r it) (m_scale it)) hits)
         else expand F sqrt T data fuel steps mpd
                (after_round it (fmul F (m_r it) (m_scale it)) hits).
Proof.
  intros Hcut Hp Hsteps. cbn [expand].
  cbn [set_current_neighbors q_point m_r m_current_neighbors m_k m_scale].
  destruct (queryBall_returns data (q_point it) (m_r it) Hcut) as [b Hq].
  rewrite Hq, (ball_collect_total F sqrt T data _ _ b steps Hq Hp Hsteps).
  rewrite removelast_last. cbn zeta.
  destruct (m_k it <=? length (ball_hits F sqrt data (q_point it) (m_r it)))%nat;
    [reflexivity |].
  cbn [set_r m_r m_scale m_current_neighbors q_point m_k q_finished].
  reflexivity.
Qed.





(** The radius loop touches neither [m_finished] nor [m_k]. *)
Lemma expand_keeps (steps : nat) (mpd : float) (fuel : nat) :
  forall it it1,
    expand F sqrt T data fuel steps mpd it = Some (Returns tt, it1) ->
    q_finished it1 = q_finished it /\ m_k it1 = m_k it.
Proof.
  induction fuel as [| fuel IH]; intros it it1 Hex; cbn [expand] in Hex;
    [discriminate |].
  cbn [set_current_neighbors q_point m_r m_current_neighbors m_k m_scale] in Hex.
  destruct (queryBall data (q_point it) (m_r it)) as [ball_it | e |];
    try discriminate.
  destruct (ball_collect F sqrt T data steps ball_it []) as [v |];
    try discriminate.
  destruct (m_k it <=? length (removelast v))%nat.
  - inversion Hex; subst it1. split; reflexivity.
  - cbn [set_r m_r m_scale m_current_neighbors] in Hex.
    destruct (Qltb _ _).
    + inversion Hex; subst it1. split; reflexivity.
    + apply IH in Hex. exact Hex.
Qed.

(** The first call of [next] on a fresh iterator runs the radius loop
    and then acts on the buffer the loop leaves: a call on an empty
    buffer reaches the end of the function without a [return]. *)
Lemma knn_next_fresh (fuel steps : nat) (it0 it1 : AABBQueryIterator) :
  q_finished it0 = false -> m_current_neighbors it0 = [] ->
  expand F sqrt T data fuel steps (min_plane_distance data) it0
    = Some (Returns tt, it1) ->
  knn_next F sqrt T data fuel steps it0
  = match m_current_neighbors it1 with
    | [] => Some (Undefined, it1)
    | _ :: _ => knn_next F sqrt T data fuel steps it1
    end.
Proof.
  intros Hfresh Hempty Hloop.
  destruct (expand_keeps steps _ fuel it0 it1 Hloop) as [Hfin1 _].
  rewrite Hfresh in Hfin1.
  unfold knn_next at 1. rewrite Hfresh, Hempty. cbn [length Nat.eqb].
  fold (min_plane_distance data). rewrite Hloop.
  destruct (m_current_neighbors it1) as [| y l] eqn:Hb; [reflexivity |].
  cbn [length Nat.eqb negb].
  unfold knn_next. rewrite Hfin1, Hb. cbn [length Nat.eqb negb]. rewrite Hb.
  reflexivity.
Qed.

(** The first call of [next] fills the buffer and then pops from it
    like any later call. *)
Lemma knn_collect_fill (calls fuel steps : nat) (it0 it1 : AABBQueryIterator)
    (v : list NeighborPoint) :
  q_finished it0 = false -> m_current_neighbors it0 = [] ->
  expand F sqrt T data fuel steps (min_plane_distance data) it0
    = Some (Returns tt, it1) ->
  m_current_neighbors it1 <> [] ->
  knn_collect F sqrt T data (S calls) fuel steps it0 v
  = knn_collect F sqrt T data (S calls) fuel steps it1 v.
Proof.
  intros Hfresh Hempty Hloop Hhits.
  destruct (expand_keeps steps _ fuel it0 it1 Hloop) as [Hfin1 _].
  rewrite Hfresh in Hfin1.
  cbn [knn_collect]. rewrite Hfresh, Hfin1.
  rewrite (knn_next_fresh fuel steps it0 it1 Hfresh Hempty Hloop).
  destruct (m_current_neighbors it1) as [| y l]; [congruence | reflexivity].
Qed.

End knn.




(** Scenario S4 of the spec: three points, [k = 5], an open box of
    edge 100.  The loop stops once the radius passes half the plane
    distance and the three points come out in ascending distance. *)
Example s4_yield :
  knn_collect binary32 isqrt scene_terminator
      (mkAABBQuery (open_cube 100) s1_points 3 s1_tree) 5 8 5
      (mkQueryIterator s1_query 5 1 2 [] false) []
    = Some (Returns [mkNeighborPoint 1 2; mkNeighborPoint 0 3; mkNeighborPoint 2 6],
            mkQueryIterator s1_query 5 64 2 [] true).
Proof. vm_compute. reflexivity. Qed.


(** The radius can stall in binary32.  The product of the smallest
    positive float, 2^-149, and the float nearest to 1.1 rounds back to
    2^-149: with that radius and scale the loop of [next] repeats the
    same round for ever when the ball holds fewer than [k] points. *)
Example knn_radius_stalls_in_binary32 :
  let r := round32 (2 ^ (-149)) in
  let s := round32 (11 # 10) in
  (0 < r)%Q /\ (1 < s)%Q /\ fmul binary32 r s = r
  /\ forall fuel,
       knn_next binary32 isqrt scene_terminator s1_data fuel 83
         (mkQueryIterator s1_query 1 r s [] false) = None.
Proof.
  intros r s.
  assert (Hstall : fmul binary32 r s = r) by (vm_compute; reflexivity).
  split; [vm_compute; reflexivity |]. split; [vm_compute; reflexivity |].
  split; [exact Hstall |].
  assert (Hround : forall fuel,
            expand binary32 isqrt scene_terminator s1_data fuel 83
              (min_plane_distance s1_data) (mkQueryIterator s1_query 1 r s [] false)
            = None).
  { induction fuel as [| fuel IH]; [reflexivity |].
    rewrite (expand_step binary32 isqrt scene_terminator s1_data 83 fuel);
      [| vm_compute; reflexivity | vm_compute; reflexivity | vm_compute; lia].
    cbn zeta. cbn [m_r m_scale m_k q_point after_round q_finished].
    replace (ball_hits binary32 isqrt s1_data s1_query r) with (@nil NeighborPoint)
      by (vm_compute; reflexivity).
    cbn [length Nat.leb]. rewrite Hstall.
    replace (Qltb (fdiv binary32 (min_plane_distance s1_data) 2) r) with false
      by (vm_compute; reflexivity).
    exact IH. }
  intros fuel. unfold knn_next. cbn [q_finished m_current_neighbors length Nat.eqb].
  fold (min_plane_distance s1_data). now rewrite Hround.
Qed.

(** C5 on the code.  In scenario S1 with [k = 1], initial radius 1 and
    scale 6, the first ball query finds nothing and the scaled radius 6
    exceeds half the plane distance: the radius loop ends with an empty
    buffer, control reaches the end of [next] without a [return], and
    [m_finished] is still false.  The same happens in an empty system.
    The numbers are floats and the run is the same with and without
    rounding. *)
Theorem knn_next_falls_off_the_end :
  (knn_next binary32 isqrt scene_terminator s1_data 3 5
      (mkQueryIterator s1_query 1 1 6 [] false)
    = Some (Undefined, mkQueryIterator s1_query 1 6 6 [] false)
   /\ knn_next binary32 isqrt scene_terminator (mkAABBQuery (open_cube 10) [] 0 []) 3 5
        (mkQueryIterator s1_query 1 1 6 [] false)
      = Some (Undefined, mkQueryIterator s1_query 1 6 6 [] false))
  /\ (knn_next exact isqrt scene_terminator s1_data 3 5
        (mkQueryIterator s1_query 1 1 6 [] false)
      = Some (Undefined, mkQueryIterator s1_query 1 6 6 [] false)
      /\ knn_next exact isqrt scene_terminator (mkAABBQuery (open_cube 10) [] 0 []) 3 5
           (mkQueryIterator s1_query 1 1 6 [] false)
         = Some (Undefined, mkQueryIterator s1_query 1 6 6 [] false))
  /\ q_finished (mkQueryIterator s1_query 1 6 6 [] false) = false.
Proof.
  split; [split; vm_compute; reflexivity |].
  split; [split; reflexivity | reflexivity].
Qed.

End AABBQuery_facts.

(** * Properties of NeighborList.cc: indices, segments and sizes *)

Module NeighborList_index_facts.
Import NeighborList_cc ListSpec IndexSpec Numeric_facts.

Lemma nondecreasing_nth (l : list nat) :
  nondecreasing l = true ->
  forall a b, (a <= b < length l)%nat -> (nth a l 0 <= nth b l 0)%nat.
Proof.
  induction l as [| x l IH]; intros Hs a b Hab; [cbn in Hab; lia |].
  assert (Hl : nondecreasing l = true).
  { destruct l as [| y l]; [reflexivity |]. cbn in Hs.
    apply andb_true_iff in Hs. apply Hs. }
  assert (Hhd : forall b, (b < length l)%nat -> (x <= nth b l 0)%nat).
  { intros c Hc. destruct l as [| y l]; [cbn in Hc; lia |].
    cbn in Hs. apply andb_true_iff in Hs. destruct Hs as [Hxy _].
    apply Nat.leb_le in Hxy.
    specialize (IH Hl 0%nat c ltac:(lia)). change (nth 0 (y :: l) 0)%nat with y in IH. lia. }
  destruct a as [| a], b as [| b]; cbn [nth]; cbn in Hab; try lia.
  - apply Hhd. lia.
  - apply IH; [exact Hl | lia].
Qed.

Lemma uadd_small (a b : nat) :
  (Z.of_nat a + Z.of_nat b <= UINT_MAX)%Z -> uadd a b = (a + b)%nat.
Proof.
  intros H. unfold uadd. rewrite Z.mod_small by (unfold UINT_MAX in *; lia).
  lia.
Qed.

Lemma at2_ids (outside : forall A : Type, outcome A) (nl : NeighborList) (i : nat) :
  (i < getNumBonds nl)%nat ->
  at2 outside (m_neighbors nl) i 0 = Returns (nth i (ids nl) 0%nat).
Proof.
  intros Hi. unfold at2, getNumBonds, ids in *.
  destruct (lookup_lt_is_Some_2 (m_neighbors nl) i Hi) as [row Hrow].
  rewrite Hrow. cbn. f_equal.
  change 0%nat with (fst (0%nat, 0%nat)). rewrite map_nth.
  f_equal. symmetry. apply nth_lookup_Some with (d := (0, 0)%nat). exact Hrow.
Qed.

Lemma length_ids (nl : NeighborList) : length (ids nl) = getNumBonds nl.
Proof. unfold ids, getNumBonds. apply length_map. Qed.

(** The recursion of [bisection_search] on a sorted column: the result
    splits the rows from 1 on into those below [val] and the others. *)
Lemma bisection_search_spec (outside : forall A : Type, outcome A)
    (nl : NeighborList) (val : nat) :
  nondecreasing (ids nl) = true ->
  (Z.of_nat (getNumBonds nl) <= 2147483648)%Z ->
  forall fuel left right,
    (left < right <= getNumBonds nl)%nat -> (right - left <= fuel)%nat ->
    (forall j, (0 < j <= left)%nat -> (nth j (ids nl) 0 < val)%nat) ->
    (forall j, (right <= j < getNumBonds nl)%nat -> (val <= nth j (ids nl) 0)%nat) ->
    exists r,
      bisection_search outside fuel nl val left right = Some (Returns r)
      /\ (r < getNumBonds nl)%nat
      /\ (forall j, (0 < j <= r)%nat -> (nth j (ids nl) 0 < val)%nat)
      /\ (forall j, (r < j < getNumBonds nl)%nat -> (val <= nth j (ids nl) 0)%nat).
Proof.
  intros Hs Hn. induction fuel as [| fuel IH]; intros left right Hlr Hfuel Hlo Hhi;
    [lia |].
  cbn [bisection_search].
  rewrite (uadd_small left 1) by (unfold UINT_MAX; lia).
  destruct (Nat.leb_spec right (left + 1)) as [Hdone | Hmore].
  - exists left. split; [reflexivity |]. split; [lia |]. split; [exact Hlo |].
    intros j Hj. apply Hhi. lia.
  - rewrite (uadd_small left right) by (unfold UINT_MAX; lia).
    assert (Hmid : (left < (left + right) / 2 < right)%nat).
    { split.
      - apply Nat.div_le_lower_bound; lia.
      - apply Nat.Div0.div_lt_upper_bound; lia. }
    set (middle := ((left + right) / 2)%nat) in *.
    rewrite (at2_ids outside nl middle) by lia.
    destruct (Nat.ltb_spec (nth middle (ids nl) 0%nat) val) as [Hlt | Hge].
    + apply IH; [lia | lia | | exact Hhi].
      intros j Hj.
      pose proof (nondecreasing_nth _ Hs j middle
                    ltac:(rewrite length_ids; lia)). lia.
    + apply IH; [lia | lia | exact Hlo |].
      intros j Hj.
      pose proof (nondecreasing_nth _ Hs middle j
                    ltac:(rewrite length_ids; lia)). lia.
Qed.

Lemma below_split (i : nat) (l : list nat) :
  forall b, (b <= length l)%nat ->
    (forall j, (j < b)%nat -> (nth j l 0 < i)%nat) ->
    (forall j, (b <= j < length l)%nat -> (i <= nth j l 0)%nat) ->
    below i l = b.
Proof.
  unfold below. induction l as [| x l IH]; intros b Hb Hlo Hhi.
  - cbn in *. lia.
  - cbn [List.filter]. destruct b as [| b].
    + specialize (Hhi 0%nat ltac:(cbn; lia)) as Hx. cbn in Hx.
      destruct (Nat.ltb_spec x i) as [Hlt | _]; [lia |].
      apply IH; [lia | intros j Hj; lia |].
      intros j Hj. apply (Hhi (S j)). cbn. lia.
    + specialize (Hlo 0%nat ltac:(lia)) as Hx. cbn in Hx.
      destruct (Nat.ltb_spec x i) as [_ | Hge]; [| lia].
      cbn [length]. f_equal. apply IH; [cbn in Hb; lia | |].
      * intros j Hj. apply (Hlo (S j)). lia.
      * intros j Hj. apply (Hhi (S j)). cbn. lia.
Qed.

Lemma below_none (q : nat) (l : list nat) :
  (forall y, In y l -> (q <= y)%nat) -> below q l = 0%nat.
Proof.
  unfold below. induction l as [| x l IH]; intros Hq; [reflexivity |].
  cbn [List.filter]. destruct (Nat.ltb_spec x q) as [Hlt | _].
  - specialize (Hq x ltac:(left; reflexivity)). lia.
  - apply IH. intros y Hy. apply Hq. right. exact Hy.
Qed.

Lemma nondecreasing_tail (x : nat) (l : list nat) :
  nondecreasing (x :: l) = true ->
  nondecreasing l = true /\ forall y, In y l -> (x <= y)%nat.
Proof.
  intros Hs. split.
  - destruct l as [| y l]; [reflexivity |]. cbn in Hs.
    apply andb_true_iff in Hs. apply Hs.
  - intros y Hy. apply (In_nth _ _ 0%nat) in Hy. destruct Hy as (j & Hj & <-).
    apply (nondecreasing_nth (x :: l) Hs 0 (S j)). cbn. lia.
Qed.

(** In a sorted column the entries below [q] come first. *)
Lemma below_sorted_split (q : nat) (l : list nat) :
  nondecreasing l = true ->
  (below q l <= length l)%nat
  /\ (forall j, (j < below q l)%nat -> (nth j l 0 < q)%nat)
  /\ (forall j, (below q l <= j < length l)%nat -> (q <= nth j l 0)%nat).
Proof.
  induction l as [| x l IH]; intros Hs.
  - cbn. repeat split; intros; lia.
  - destruct (nondecreasing_tail x l Hs) as [Hl Hx].
    destruct (IH Hl) as (IH1 & IH2 & IH3).
    destruct (Nat.ltb_spec x q) as [Hlt | Hge].
    + assert (Hb : below q (x :: l) = S (below q l)).
      { unfold below. cbn [List.filter].
        destruct (Nat.ltb_spec x q); [reflexivity | lia]. }
      rewrite Hb. cbn [length]. split; [lia |]. split.
      * intros [| j] Hj; cbn [nth]; [exact Hlt | apply IH2; lia].
      * intros [| j] Hj; cbn [nth]; [lia | apply IH3; lia].
    + assert (Hb : below q (x :: l) = 0%nat).
      { apply below_none. intros y [<- | Hy]; [exact Hge |].
        specialize (Hx y Hy). lia. }
      rewrite Hb. cbn [length]. split; [lia |]. split; [intros; lia |].
      intros [| j] Hj; cbn [nth]; [exact Hge |].
      specialize (Hx (nth j l 0%nat) ltac:(apply nth_In; lia)). lia.
Qed.

(** [find_first_index] on a sorted list returns the number of bonds
    whose query index is below [i]. *)
Lemma find_first_index_run (outside : forall A : Type, outcome A)
    (nl : NeighborList) (i : nat) :
  nondecreasing (ids nl) = true ->
  (Z.of_nat (getNumBonds nl) <= 2147483648)%Z ->
  forall fuel, (getNumBonds nl <= fuel)%nat ->
    find_first_index outside fuel nl i = Some (Returns (below i (ids nl))).
Proof.
  intros Hsorted Hsize fuel Hfuel. unfold find_first_index.
  destruct (Nat.eqb_spec (getNumBonds nl) 0) as [Hz | Hnz]; cbn [negb].
  - do 2 f_equal. symmetry. unfold below.
    rewrite <- length_ids in Hz. destruct (ids nl); [reflexivity | discriminate].
  - assert (Hfirst : forall j, (j < getNumBonds nl)%nat ->
              (nth 0 (ids nl) 0 <= nth j (ids nl) 0)%nat).
    { intros j Hj. apply (nondecreasing_nth _ Hsorted).
      rewrite length_ids. lia. }
    destruct (bisection_search_spec outside nl i Hsorted Hsize
                fuel 0 (getNumBonds nl) ltac:(lia) ltac:(lia)
                ltac:(intros; lia) ltac:(intros; lia))
      as (r & Hrun & Hr & Hlo & Hhi).
    rewrite Hrun, (at2_ids outside nl 0) by lia. cbn [obind].
    do 2 f_equal. symmetry.
    destruct (Nat.ltb_spec (nth 0 (ids nl) 0%nat) i) as [Hlt | Hge].
    + rewrite uadd_small by (unfold UINT_MAX; lia).
      apply below_split; rewrite ?length_ids; [lia | |].
      * intros j Hj. destruct j as [| j]; [exact Hlt | apply Hlo; lia].
      * intros j Hj. apply Hhi. lia.
    + rewrite uadd_small by (unfold UINT_MAX; lia). rewrite Nat.add_0_r.
      apply below_split; rewrite ?length_ids; [lia | |].
      * intros j Hj. destruct (Nat.eq_dec r 0) as [-> | Hr0]; [lia |].
        specialize (Hlo r ltac:(lia)). specialize (Hfirst r Hr). lia.
      * intros j Hj. destruct (Nat.eq_dec j r) as [-> | Hne].
        -- specialize (Hfirst r Hr). lia.
        -- apply Hhi. lia.
Qed.

(** X1. [find_first_index] on a list sorted by query index (at most
    2^31 bonds): the call returns, and its result [b] is the index of
    the first bond whose query index is at least [i]: every bond before
    [b] has a smaller query index and every bond from [b] on has one
    that is at least [i].  So [b] is the number of bonds with a query
    index below [i]: the number of bonds when all are below, 0 on an
    empty list. *)
Theorem find_first_index_lower_bound (outside : forall A : Type, outcome A)
    (nl : NeighborList) (i : nat)
    (Hsorted : nondecreasing (ids nl) = true)
    (Hsize : (Z.of_nat (getNumBonds nl) <= 2147483648)%Z) :
  exists b,
    (forall fuel, (getNumBonds nl <= fuel)%nat ->
       find_first_index outside fuel nl i = Some (Returns b))
    /\ (b <= getNumBonds nl)%nat
    /\ (forall j, (j < b)%nat -> (nth j (ids nl) 0 < i)%nat)
    /\ (forall j, (b <= j < getNumBonds nl)%nat -> (i <= nth j (ids nl) 0)%nat)
    /\ b = below i (ids nl).
Proof.
  exists (below i (ids nl)).
  destruct (below_sorted_split i (ids nl) Hsorted) as (H1 & H2 & H3).
  rewrite length_ids in H1, H3.
  repeat split; try assumption.
  apply (find_first_index_run outside nl i Hsorted Hsize).
Qed.

Lemma find_first_index_lower_bound_witness :
  let nl := mkNeighborList 4 4 [(0, 1); (0, 2); (2, 0); (2, 3); (3, 0)]%nat
              [1; 1; 1; 1; 1]%Q [1; 1; 1; 1; 1]%Q [0; 0; 0; 0]%nat [0; 0; 0; 0]%nat in
  find_first_index (fun _ => Undefined) 5 nl 2 = Some (Returns 2%nat)
  /\ find_first_index (fun _ => Undefined) 5 nl 1 = Some (Returns 2%nat)
  /\ find_first_index (fun _ => Undefined) 5 nl 4 = Some (Returns 5%nat).
Proof.
  intros nl.
  assert (H : forall i, find_first_index (fun _ => Undefined) 5 nl i
                        = Some (Returns (below i (ids nl)))).
  { intros i.
    destruct (find_first_index_lower_bound (fun _ => Undefined) nl i)
      as (b & Hrun & _ & _ & _ & Hb).
    - reflexivity.
    - cbn. lia.
    - rewrite <- Hb. apply Hrun. cbn. lia. }
  rewrite !H. repeat split.
Defined.

Lemma for_range_inv {St : Type} (body : nat -> St -> outcome St)
    (Inv : nat -> St -> Prop) (N : nat) :
  (forall i st, (i < N)%nat -> Inv i st ->
     exists st', body i st = Returns st' /\ Inv (S i) st') ->
  forall n start st, (start + n = N)%nat -> Inv start st ->
    exists st', for_range body start n st = Returns st' /\ Inv N st'.
Proof.
  intros Hstep. induction n as [| n IH]; intros start st Hn Hinv; cbn [for_range].
  - exists st. split; [reflexivity |]. replace N with start by lia. exact Hinv.
  - destruct (Hstep start st ltac:(lia) Hinv) as (st1 & Hb & Hinv1).
    rewrite Hb. cbn [obind]. apply (IH (S start) st1); [lia | exact Hinv1].
Qed.

Lemma below_app (q : nat) (l : list nat) (x : nat) :
  below q (l ++ [x]) = (below q l + (if (x <? q)%nat then 1 else 0))%nat.
Proof.
  unfold below. rewrite List.filter_app, length_app. cbn [List.filter].
  destruct (x <? q)%nat; reflexivity.
Qed.

Lemma count_app (q : nat) (l : list nat) (x : nat) :
  count q (l ++ [x]) = (count q l + (if (x =? q)%nat then 1 else 0))%nat.
Proof.
  unfold count. rewrite List.filter_app, length_app. cbn [List.filter].
  destruct (x =? q)%nat; reflexivity.
Qed.

Lemma count_absent (q : nat) (l : list nat) : ~ In q l -> count q l = 0%nat.
Proof.
  unfold count. induction l as [| x l IH]; intros Hq; [reflexivity |].
  cbn [List.filter]. destruct (Nat.eqb_spec x q) as [-> | _].
  - exfalso. apply Hq. left. reflexivity.
  - apply IH. intros H. apply Hq. right. exact H.
Qed.

Lemma below_all (q : nat) (l : list nat) :
  (forall y, In y l -> (y < q)%nat) -> below q l = length l.
Proof.
  unfold below. induction l as [| x l IH]; intros Hq; [reflexivity |].
  cbn [List.filter]. destruct (Nat.ltb_spec x q) as [_ | Hge].
  - cbn [length]. f_equal. apply IH. intros y Hy. apply Hq. right. exact Hy.
  - specialize (Hq x ltac:(left; reflexivity)). lia.
Qed.

Lemma to_int_small (q : nat) : (Z.of_nat q <= 2147483647)%Z -> to_int q = Z.of_nat q.
Proof.
  intros Hq. unfold to_int, UINT_MAX. cbn zeta.
  rewrite Z.mod_small by lia.
  destruct (Z.leb_spec (Z.of_nat q) 2147483647); [reflexivity | lia].
Qed.

Lemma put_int_in (outside : forall A : Type, outcome A) {A : Type}
    (arr : list A) (q : nat) (v : A) :
  (q < length arr)%nat ->
  put_int outside arr (Z.of_nat q) v = Returns (<[q := v]> arr).
Proof.
  intros Hq. unfold put_int, put.
  destruct (Z.ltb_spec (Z.of_nat q) 0); [lia |].
  rewrite Nat2Z.id.
  destruct (Nat.ltb_spec q (length arr)); [reflexivity | lia].
Qed.

Lemma take_S_nth (l : list nat) (i : nat) :
  (i < length l)%nat -> take (S i) l = take i l ++ [nth i l 0%nat].
Proof.
  intros Hi. destruct (lookup_lt_is_Some_2 l i Hi) as [x Hx].
  rewrite (take_S_r l i x Hx). f_equal. f_equal.
  symmetry. apply nth_lookup_Some with (d := 0%nat). exact Hx.
Qed.

Lemma In_take_nth (l : list nat) (i : nat) (y : nat) :
  In y (take i l) -> exists j, (j < i)%nat /\ (j < length l)%nat /\ nth j l 0%nat = y.
Proof.
  intros Hy. apply (In_nth _ _ 0%nat) in Hy. destruct Hy as (j & Hj & Hnth).
  rewrite length_take in Hj. exists j. split; [lia |]. split; [lia |].
  rewrite <- Hnth. symmetry. apply NeighborList_facts.nth_take. lia.
Qed.

Section segments.
Variable outside : forall A : Type, outcome A.
Variable nl : NeighborList.
Hypothesis Hsorted : nondecreasing (ids nl) = true.
Hypothesis Hindexable : indexable nl = true.

Let l := ids nl.
Let N := getNumBonds nl.

(** The last query index seen after [i] bonds, as the loop keeps it. *)
Definition last_seen (i : nat) : Z :=
  match i with
  | O => (-1)%Z
  | S j => Z.of_nat (nth j (ids nl) 0%nat)
  end.

(** The invariant of the loop of [updateSegmentCounts] after [i] bonds:
    [m_segments] holds the first bond of every query index seen,
    [m_counts] the number of bonds of every query index seen before the
    current one, and [counter] the bonds of the current one. *)
Definition segments_inv (i : nat) (st : segment_state) : Prop :=
  length (ss_segments st) = length (m_segments nl)
  /\ length (ss_counts st) = length (m_counts nl)
  /\ ss_last_index st = last_seen i
  /\ ss_counter st = match i with
                     | O => 0%nat
                     | S j => count (nth j (ids nl) 0%nat) (take i (ids nl))
                     end
  /\ (forall q, nth q (ss_segments st) 0%nat
                = if existsb (Nat.eqb q) (take i (ids nl))
                  then below q (take i (ids nl))
                  else nth q (m_segments nl) 0%nat)
  /\ (forall q, nth q (ss_counts st) 0%nat
                = if existsb (Nat.eqb q) (take i (ids nl))
                     && negb (Z.of_nat q =? last_seen i)%Z
                  then count q (take i (ids nl))
                  else nth q (m_counts nl) 0%nat).

Lemma indexable_nth (i : nat) :
  (i < N)%nat ->
  (nth i (ids nl) 0 < length (m_segments nl))%nat
  /\ (nth i (ids nl) 0 < length (m_counts nl))%nat
  /\ (Z.of_nat (nth i (ids nl) 0%nat) <= 2147483647)%Z.
Proof.
  intros Hi. unfold indexable in Hindexable. rewrite forallb_forall in Hindexable.
  specialize (Hindexable (nth i (ids nl) 0%nat)
                ltac:(apply nth_In; rewrite length_ids; exact Hi)).
  rewrite !andb_true_iff in Hindexable.
  destruct Hindexable as [[H1 H2] H3].
  apply Nat.ltb_lt in H1, H2. apply Z.leb_le in H3. auto.
Qed.

Lemma existsb_eqb_In (q : nat) (P : list nat) :
  existsb (Nat.eqb q) P = true <-> In q P.
Proof.
  rewrite existsb_exists. split.
  - intros (x & Hx & Heq). apply Nat.eqb_eq in Heq. now subst.
  - intros Hq. exists q. split; [exact Hq | apply Nat.eqb_refl].
Qed.

Lemma segments_step (i : nat) (st : segment_state) :
  (i < N)%nat -> segments_inv i st ->
  exists st', segment_body outside (m_neighbors nl) i st = Returns st'
              /\ segments_inv (S i) st'.
Proof.
  intros Hi (Hls & Hlc & Hlast & Hcounter & Hseg & Hcnt).
  destruct (indexable_nth i Hi) as (Hxs & Hxc & Hxi).
  unfold segment_body. rewrite (at2_ids outside nl i Hi). cbn [obind].
  set (x := nth i (ids nl) 0%nat) in *.
  rewrite (to_int_small x Hxi).
  assert (HP : take (S i) (ids nl) = take i (ids nl) ++ [x])
    by (apply take_S_nth; rewrite length_ids; exact Hi).
  assert (Hle : forall y, In y (take i (ids nl)) -> (y <= x)%nat).
  { intros y Hy. destruct (In_take_nth _ _ _ Hy) as (j & Hj & Hjl & <-).
    apply (nondecreasing_nth _ Hsorted). rewrite length_ids. lia. }
  assert (Hex : forall q, existsb (Nat.eqb q) (take (S i) (ids nl))
                          = existsb (Nat.eqb q) (take i (ids nl)) || (q =? x)%nat).
  { intros q. rewrite HP, existsb_app. cbn. now rewrite orb_false_r. }
  rewrite Hlast.
  destruct (Z.eqb_spec (Z.of_nat x) (last_seen i)) as [Hsame | Hdiff]; cbn [negb obind].
  - (* the same query index as the bond before *)
    destruct i as [| j]; [cbn in Hsame; lia |].
    cbn [last_seen] in Hsame. apply Nat2Z.inj in Hsame.
    assert (HxP : In x (take (S j) (ids nl))).
    { rewrite Hsame.
      rewrite (take_S_nth (ids nl) j) by (rewrite length_ids; lia).
      apply in_or_app. right. left. reflexivity. }
    eexists. split; [reflexivity |].
    unfold segments_inv. cbn [ss_segments ss_counts ss_last_index ss_counter last_seen].
    fold x. repeat split; try assumption.
    + rewrite Hcounter, HP, count_app, <- Hsame, Nat.eqb_refl. lia.
    + intros q. rewrite Hseg, Hex, HP, below_app.
      destruct (existsb (Nat.eqb q) (take (S j) (ids nl))) eqn:HqP; cbn [orb].
      * apply existsb_eqb_In in HqP. specialize (Hle q HqP).
        destruct (Nat.ltb_spec x q); [lia | lia].
      * destruct (Nat.eqb_spec q x) as [-> | _]; [| reflexivity].
        apply existsb_eqb_In in HxP. congruence.
    + intros q. rewrite Hcnt, Hex, HP, count_app. cbn [last_seen].
      rewrite <- Hsame.
      destruct (Z.eqb_spec (Z.of_nat q) (Z.of_nat x)) as [Hq | Hq];
        cbn [negb]; rewrite ?andb_false_r; [reflexivity |].
      rewrite !andb_true_r.
      destruct (Nat.eqb_spec q x) as [-> | Hne]; [lia |].
      rewrite orb_false_r.
      destruct (Nat.eqb_spec x q) as [-> | _]; [lia |].
      now rewrite Nat.add_0_r.
  - (* a new query index *)
    assert (Hlt : forall y, In y (take i (ids nl)) -> (y < x)%nat).
    { intros y Hy. specialize (Hle y Hy) as Hyx.
      destruct (Nat.eq_dec y x) as [-> | Hne]; [| lia].
      exfalso. destruct i as [| j]; [cbn in Hy; exact Hy |].
      cbn [last_seen] in Hdiff.
      destruct (In_take_nth _ _ _ Hy) as (k & Hk & Hkl & Hkx).
      pose proof (nondecreasing_nth _ Hsorted k j ltac:(rewrite length_ids; lia)).
      pose proof (nondecreasing_nth _ Hsorted j (S j) ltac:(rewrite length_ids; lia)).
      fold x in H0. apply Hdiff. f_equal. lia. }
    assert (HxP : existsb (Nat.eqb x) (take i (ids nl)) = false).
    { apply not_true_iff_false. intros H. apply existsb_eqb_In in H.
      specialize (Hlt x H). lia. }
    rewrite (put_int_in outside (ss_segments st) x i) by lia. cbn [obind].
    assert (Hsegs' : forall q,
              nth q (<[x := i]> (ss_segments st)) 0%nat
              = if existsb (Nat.eqb q) (take (S i) (ids nl))
                then below q (take (S i) (ids nl))
                else nth q (m_segments nl) 0%nat).
    { intros q. rewrite NeighborList_facts.nth_insert by lia.
      rewrite Hex, HP, below_app.
      destruct (Nat.eqb_spec q x) as [-> | Hne].
      - rewrite orb_true_r, Nat.ltb_irrefl, Nat.add_0_r.
        rewrite (below_all x _ Hlt), length_take, length_ids. lia.
      - rewrite orb_false_r, Hseg.
        destruct (existsb (Nat.eqb q) (take i (ids nl))) eqn:HqP; [| reflexivity].
        apply existsb_eqb_In in HqP. specialize (Hle q HqP).
        destruct (Nat.ltb_spec x q); lia. }
    assert (Hcount1 : count x (take (S i) (ids nl)) = 1%nat).
    { rewrite HP, count_app, Nat.eqb_refl, count_absent; [reflexivity |].
      intros H. specialize (Hlt x H). lia. }
    destruct (Z.ltb_spec 0 (Z.of_nat x)) as [Hpos | Hzero].
    + (* index > 0 *)
      destruct i as [| j].
      * (* first bond *)
        cbn [last_seen]. cbn [Z.leb obind].
        eexists. split; [reflexivity |].
        unfold segments_inv.
        cbn [ss_segments ss_counts ss_last_index ss_counter last_seen].
        fold x. rewrite length_insert.
        repeat split; try assumption.
        -- now rewrite Hcount1.
        -- intros q. rewrite Hcnt, HP, take_0. cbn [app existsb andb].
           destruct (Nat.eqb_spec q x) as [-> | Hne]; cbn [orb andb].
           ++ now rewrite Z.eqb_refl.
           ++ reflexivity.
      * cbn [last_seen]. set (y := nth j (ids nl) 0%nat) in *.
        destruct (indexable_nth j ltac:(lia)) as (_ & Hyc & _). fold y in Hyc.
        destruct (Z.leb_spec 0 (Z.of_nat y)) as [_ | Hneg]; [| lia].
        rewrite (put_int_in outside (ss_counts st) y (ss_counter st)) by lia.
        cbn [obind].
        eexists. split; [reflexivity |].
        unfold segments_inv.
        cbn [ss_segments ss_counts ss_last_index ss_counter last_seen].
        fold x. rewrite !length_insert.
        repeat split; try assumption.
        -- now rewrite Hcount1.
        -- intros q. rewrite NeighborList_facts.nth_insert by lia.
           rewrite Hex, HP, count_app.
           assert (HyP : In y (take (S j) (ids nl))).
           { rewrite (take_S_nth (ids nl) j) by (rewrite length_ids; lia).
             apply in_or_app. right. left. reflexivity. }
           destruct (Nat.eqb_spec q y) as [-> | Hqy].
           ++ rewrite (proj2 (existsb_eqb_In y _) HyP). cbn [orb].
              specialize (Hlt y HyP).
              destruct (Z.eqb_spec (Z.of_nat y) (Z.of_nat x)); [lia |].
              cbn [negb andb].
              destruct (Nat.eqb_spec x y); [lia |].
              rewrite Hcounter. lia.
           ++ rewrite Hcnt. cbn [last_seen]. fold y.
              destruct (Nat.eqb_spec q x) as [-> | Hqx].
              ** rewrite HxP, orb_true_r, Z.eqb_refl. reflexivity.
              ** rewrite orb_false_r.
                 destruct (Z.eqb_spec (Z.of_nat q) (Z.of_nat y)); [lia |].
                 destruct (Z.eqb_spec (Z.of_nat q) (Z.of_nat x)); [lia |].
                 destruct (Nat.eqb_spec x q); [lia |].
                 now rewrite Nat.add_0_r.
    + (* index = 0: only before the first bond *)
      assert (Hx0 : x = 0%nat) by lia.
      destruct i as [| j].
      * cbn [obind].
        eexists. split; [reflexivity |].
        unfold segments_inv.
        cbn [ss_segments ss_counts ss_last_index ss_counter last_seen].
        fold x. rewrite length_insert.
        repeat split; try assumption.
        -- rewrite Hcounter, Hcount1. reflexivity.
        -- intros q. rewrite Hcnt, HP, take_0. cbn [app existsb andb].
           destruct (Nat.eqb_spec q x) as [-> | Hne]; cbn [orb andb].
           ++ now rewrite Z.eqb_refl.
           ++ reflexivity.
      * exfalso.
        assert (HyP : In (nth j (ids nl) 0%nat) (take (S j) (ids nl))).
        { rewrite (take_S_nth (ids nl) j) by (rewrite length_ids; lia).
          apply in_or_app. right. left. reflexivity. }
        specialize (Hlt _ HyP). lia.
Qed.

End segments.

Lemma below_S (q : nat) (l : list nat) :
  below (S q) l = (below q l + count q l)%nat.
Proof.
  unfold below, count. induction l as [| x l IH]; [reflexivity |].
  cbn [List.filter].
  destruct (Nat.ltb_spec x (S q)), (Nat.ltb_spec x q), (Nat.eqb_spec x q);
    cbn [length]; lia.
Qed.

(** What [updateSegmentCounts] leaves in the two arrays on a sorted
    list. *)
Lemma updateSegmentCounts_run (outside : forall A : Type, outcome A)
    (nl : NeighborList) :
  nondecreasing (ids nl) = true -> indexable nl = true ->
  exists counts segments,
    updateSegmentCounts outside nl
      = Returns (mkNeighborList (m_num_points nl) (m_num_query_points nl)
                   (m_neighbors nl) (m_weights nl) (m_distances nl) counts segments)
    /\ length counts = length (m_counts nl)
    /\ length segments = length (m_segments nl)
    /\ forall q,
         nth q segments 0%nat
           = (if existsb (Nat.eqb q) (ids nl) then below q (ids nl)
              else nth q (m_segments nl) 0%nat)
         /\ nth q counts 0%nat
           = (if existsb (Nat.eqb q) (ids nl) then count q (ids nl)
              else nth q (m_counts nl) 0%nat).
Proof.
  intros Hsorted Hindexable. unfold updateSegmentCounts.
  destruct (for_range_inv (segment_body outside (m_neighbors nl))
              (segments_inv nl) (getNumBonds nl)
              (fun i st => segments_step outside nl Hsorted Hindexable i st)
              (getNumBonds nl) 0 (mksegment_state (-1) 0 (m_counts nl) (m_segments nl))
              eq_refl)
    as (st & Hrun & Hls & Hlc & Hlast & Hcounter & Hseg & Hcnt).
  { unfold segments_inv. cbn. repeat split. }
  rewrite Hrun. cbn [obind]. rewrite Hlast.
  assert (Hall : take (getNumBonds nl) (ids nl) = ids nl)
    by (apply take_ge; rewrite length_ids; lia).
  rewrite Hall in *.
  destruct (getNumBonds nl) as [| j] eqn:HN.
  - cbn [last_seen Z.leb obind].
    eexists _, _. split; [reflexivity |]. repeat split; try assumption.
    + apply Hseg.
    + rewrite Hcnt.
      rewrite <- length_ids in HN. destruct (ids nl); [reflexivity | discriminate].
  - cbn [last_seen]. set (y := nth j (ids nl) 0%nat) in *.
    destruct (indexable_nth nl Hindexable j ltac:(lia)) as (_ & Hyc & _).
    fold y in Hyc.
    destruct (Z.leb_spec 0 (Z.of_nat y)) as [_ | Hneg]; [| lia].
    rewrite (put_int_in outside (ss_counts st) y (ss_counter st)) by lia.
    cbn [obind].
    eexists _, _. split; [reflexivity |].
    rewrite length_insert. repeat split; try assumption.
    + apply Hseg.
    + rewrite NeighborList_facts.nth_insert by lia.
      assert (Hy : In y (ids nl))
        by (apply nth_In; rewrite length_ids; lia).
      destruct (Nat.eqb_spec q y) as [-> | Hne].
      * rewrite (proj2 (existsb_eqb_In y _) Hy). exact Hcounter.
      * rewrite Hcnt. cbn [last_seen]. fold y.
        destruct (Z.eqb_spec (Z.of_nat q) (Z.of_nat y)); [lia |].
        cbn [negb]. now rewrite andb_true_r.
Qed.

(** The bonds of a query index in a sorted column: a run that starts
    after the bonds of the smaller indices. *)
Lemma sorted_run (q : nat) (l : list nat) :
  nondecreasing l = true ->
  forall j, (j < length l)%nat ->
    (nth j l 0%nat = q <-> (below q l <= j < below q l + count q l)%nat).
Proof.
  intros Hs j Hj.
  destruct (below_sorted_split q l Hs) as (_ & Hlo & Hhi).
  destruct (below_sorted_split (S q) l Hs) as (_ & Hlo' & Hhi').
  rewrite below_S in Hlo', Hhi'.
  split.
  - intros Hq. split.
    + destruct (Nat.le_gt_cases (below q l) j) as [H | H]; [exact H |].
      specialize (Hlo j H). lia.
    + destruct (Nat.le_gt_cases (below q l + count q l) j) as [H | H]; [| exact H].
      specialize (Hhi' j ltac:(lia)). lia.
  - intros [H1 H2]. specialize (Hhi j ltac:(lia)). specialize (Hlo' j H2). lia.
Qed.

(** X2. [updateSegmentCounts] on a list sorted by query index whose
    query indices address both arrays: the call returns and changes
    only [m_counts] and [m_segments], which keep their lengths.  For a
    query index [q] that has bonds, [m_counts[q]] is the number of its
    bonds and [m_segments[q]] the index of its first bond; the slots of
    the query indices without bonds keep the values they had. *)
Theorem updateSegmentCounts_sorted (outside : forall A : Type, outcome A)
    (nl : NeighborList)
    (Hsorted : nondecreasing (ids nl) = true)
    (Hindexable : indexable nl = true) :
  exists nl',
    updateSegmentCounts outside nl = Returns nl'
    /\ bonds nl' = bonds nl
    /\ getNumPoints nl' = getNumPoints nl
    /\ getNumQueryPoints nl' = getNumQueryPoints nl
    /\ length (m_counts nl') = length (m_counts nl)
    /\ length (m_segments nl') = length (m_segments nl)
    /\ (forall q, In q (ids nl) ->
          nth q (m_counts nl') 0%nat = count q (ids nl)
          /\ (nth q (m_segments nl') 0 < getNumBonds nl)%nat
          /\ nth (nth q (m_segments nl') 0%nat) (ids nl) 0%nat = q
          /\ forall j, (j < nth q (m_segments nl') 0)%nat -> (nth j (ids nl) 0 < q)%nat)
    /\ (forall q, ~ In q (ids nl) ->
          nth q (m_counts nl') 0%nat = nth q (m_counts nl) 0%nat
          /\ nth q (m_segments nl') 0%nat = nth q (m_segments nl) 0%nat).
Proof.
  destruct (updateSegmentCounts_run outside nl Hsorted Hindexable)
    as (counts & segments & Hrun & Hlc & Hls & Hval).
  eexists. split; [exact Hrun |].
  cbn [m_counts m_segments]. repeat split; try assumption.
  - destruct (Hval q) as [_ Hc]. rewrite Hc.
    now rewrite (proj2 (existsb_eqb_In q _) H).
  - destruct (Hval q) as [Hs _]. rewrite Hs.
    rewrite (proj2 (existsb_eqb_In q _) H).
    apply (In_nth _ _ 0%nat) in H. destruct H as (k & Hk & Hq).
    apply (sorted_run q _ Hsorted k Hk) in Hq. rewrite <- length_ids. lia.
  - destruct (Hval q) as [Hs _]. rewrite Hs.
    rewrite (proj2 (existsb_eqb_In q _) H).
    apply (In_nth _ _ 0%nat) in H. destruct H as (k & Hk & Hq).
    apply (sorted_run q _ Hsorted k Hk) in Hq.
    apply (sorted_run q _ Hsorted); lia.
  - intros j Hj. destruct (Hval q) as [Hs _]. rewrite Hs in Hj.
    rewrite (proj2 (existsb_eqb_In q _) H) in Hj.
    apply (below_sorted_split q _ Hsorted). exact Hj.
  - destruct (Hval q) as [_ Hc]. rewrite Hc.
    destruct (existsb (Nat.eqb q) (ids nl)) eqn:E; [| reflexivity].
    apply existsb_eqb_In in E. contradiction.
  - destruct (Hval q) as [Hs _]. rewrite Hs.
    destruct (existsb (Nat.eqb q) (ids nl)) eqn:E; [| reflexivity].
    apply existsb_eqb_In in E. contradiction.
Qed.

Lemma updateSegmentCounts_sorted_witness :
  let nl := mkNeighborList 4 4 [(0, 1); (0, 2); (2, 0); (2, 3); (3, 0)]%nat
              [1; 1; 1; 1; 1]%Q [1; 1; 1; 1; 1]%Q [7; 7; 7; 7]%nat [7; 7; 7; 7]%nat in
  exists nl',
    updateSegmentCounts (fun _ => Undefined) nl = Returns nl'
    /\ m_counts nl' = [2; 7; 2; 1]%nat /\ m_segments nl' = [0; 7; 2; 4]%nat.
Proof.
  intros nl.
  destruct (updateSegmentCounts_sorted (fun _ => Undefined) nl eq_refl eq_refl)
    as (nl' & Hrun & _).
  exists nl'. split; [exact Hrun |].
  vm_compute in Hrun. inversion Hrun. split; reflexivity.
Defined.

(** X3. After [updateSegmentCounts] on a sorted list, the two arrays
    describe the bonds of every query index [q] that has bonds:
    [m_segments[q]] is what [find_first_index(q)] returns, and the
    bonds of [q] are exactly the [m_counts[q]] bonds from that index
    on. *)
Theorem segments_match_find_first_index (outside : forall A : Type, outcome A)
    (nl : NeighborList)
    (Hsorted : nondecreasing (ids nl) = true)
    (Hindexable : indexable nl = true)
    (Hsize : (Z.of_nat (getNumBonds nl) <= 2147483648)%Z) :
  exists nl',
    updateSegmentCounts outside nl = Returns nl'
    /\ forall q, In q (ids nl) ->
         (forall fuel, (getNumBonds nl' <= fuel)%nat ->
            find_first_index outside fuel nl' q
            = Some (Returns (nth q (m_segments nl') 0%nat)))
         /\ (forall j, (j < getNumBonds nl')%nat ->
               (id (bond_at nl' j) = q <->
                (nth q (m_segments nl') 0 <= j
                 < nth q (m_segments nl') 0 + nth q (m_counts nl') 0)%nat)).
Proof.
  destruct (updateSegmentCounts_run outside nl Hsorted Hindexable)
    as (counts & segments & Hrun & Hlc & Hls & Hval).
  eexists. split; [exact Hrun |].
  intros q Hq. cbn [m_counts m_segments].
  destruct (Hval q) as [Hs Hc].
  rewrite (proj2 (existsb_eqb_In q _) Hq) in Hs, Hc. rewrite Hs, Hc.
  split.
  - intros fuel Hfuel.
    exact (find_first_index_run outside
             (mkNeighborList (m_num_points nl) (m_num_query_points nl)
                (m_neighbors nl) (m_weights nl) (m_distances nl) counts segments)
             q Hsorted Hsize fuel Hfuel).
  - intros j Hj.
    assert (Hid : id (bond_at
                        (mkNeighborList (m_num_points nl) (m_num_query_points nl)
                           (m_neighbors nl) (m_weights nl) (m_distances nl)
                           counts segments) j) = nth j (ids nl) 0%nat).
    { unfold bond_at, get2, ids. cbn.
      symmetry. apply (map_nth fst (m_neighbors nl) (0, 0)%nat j). }
    rewrite Hid. apply (sorted_run q _ Hsorted). rewrite length_ids. exact Hj.
Qed.

Lemma segments_match_find_first_index_witness :
  let nl := mkNeighborList 4 4 [(0, 1); (0, 2); (2, 0); (2, 3); (3, 0)]%nat
              [1; 1; 1; 1; 1]%Q [1; 1; 1; 1; 1]%Q [7; 7; 7; 7]%nat [7; 7; 7; 7]%nat in
  exists nl',
    updateSegmentCounts (fun _ => Undefined) nl = Returns nl'
    /\ find_first_index (fun _ => Undefined) 5 nl' 2
       = Some (Returns (nth 2 (m_segments nl') 0%nat)).
Proof.
  intros nl.
  destruct (segments_match_find_first_index (fun _ => Undefined) nl eq_refl eq_refl)
    as (nl' & Hrun & Hq).
  - cbn. lia.
  - exists nl'. split; [exact Hrun |].
    apply (Hq 2%nat).
    + cbn. tauto.
    + vm_compute in Hrun. inversion Hrun. cbn. lia.
Defined.

(** ** [filter] *)

Lemma filter_loop_spec (filt : list bool) (n : nat) :
  forall (i g : nat) (nl : NeighborList),
    consistent nl -> (i + n = getNumBonds nl)%nat -> (g <= i)%nat ->
    let r := filter_loop filt n i g nl in
    consistent r.2 /\ getNumBonds r.2 = getNumBonds nl /\
    (g <= r.1 <= g + n)%nat /\
    map (bond_at r.2) (seq 0 r.1) =
      map (bond_at nl) (seq 0 g) ++
      map (bond_at nl) (List.filter (fun j => nth j filt false) (seq i n)).
Proof.
  induction n as [| n IH]; intros i g nl Hc Hn Hg; cbn zeta.
  - cbn. rewrite app_nil_r. repeat split; try apply Hc; lia.
  - cbn [filter_loop seq List.filter].
    destruct (nth i filt false) eqn:Hin.
    + destruct (NeighborList_facts.move_bond_consistent nl g i Hc) as [Hc' Hlen'].
      specialize (IH (S i) (S g) (move_bond nl g i) Hc' ltac:(lia) ltac:(lia)).
      cbn zeta in IH. destruct IH as (IH1 & IH2 & IH3 & IH4).
      repeat split; try apply IH1; try lia.
      rewrite IH4.
      replace (seq 0 (S g)) with (seq 0 g ++ [g]) by (now rewrite seq_S).
      rewrite map_app, <- app_assoc. cbn [map app].
      rewrite (NeighborList_facts.bond_at_move_bond nl g i g Hc ltac:(lia)),
        Nat.eqb_refl.
      f_equal.
      * apply map_ext_in. intros j Hj. apply in_seq in Hj.
        rewrite (NeighborList_facts.bond_at_move_bond nl g i j Hc ltac:(lia)).
        destruct (Nat.eqb_spec j g); [lia | reflexivity].
      * f_equal.
        apply map_ext_in. intros j Hj. apply filter_In in Hj.
        destruct Hj as [Hj _]. apply in_seq in Hj.
        rewrite (NeighborList_facts.bond_at_move_bond nl g i j Hc ltac:(lia)).
        destruct (Nat.eqb_spec j g); [lia | reflexivity].
    + specialize (IH (S i) g nl Hc ltac:(lia) ltac:(lia)).
      cbn zeta in IH. destruct IH as (IH1 & IH2 & IH3 & IH4).
      repeat split; try apply IH1; try lia. exact IH4.
Qed.

Lemma filter_seq_combine {A : Type} (f : nat -> A) (filt : list bool) :
  forall s,
    map f (List.filter (fun j => nth (j - s) filt false) (seq s (length filt)))
    = map snd (List.filter fst (combine filt (map f (seq s (length filt))))).
Proof.
  induction filt as [| b filt IH]; intros s; [reflexivity |].
  cbn [length seq map combine List.filter fst]. rewrite Nat.sub_diag. cbn [nth].
  assert (Hrest : List.filter (fun j => nth (j - s) (b :: filt) false)
                    (seq (S s) (length filt))
                  = List.filter (fun j => nth (j - S s) filt false)
                      (seq (S s) (length filt))).
  { apply List.filter_ext_in. intros j Hj. apply in_seq in Hj.
    replace (j - s)%nat with (S (j - S s)) by lia. reflexivity. }
  destruct b; cbn [nth] in Hrest; cbn [map snd]; rewrite Hrest, IH; reflexivity.
Qed.

Lemma length_filter_combine {A : Type} (filt : list bool) :
  forall l : list A, length filt = length l ->
    length (List.filter fst (combine filt l))
    = length (List.filter (fun b => b) filt).
Proof.
  induction filt as [| f filt IH]; intros l Hl; [reflexivity |].
  destruct l as [| x l]; [discriminate |].
  cbn [combine List.filter fst]. destruct f; cbn [length];
    rewrite (IH l) by (cbn in Hl; lia); reflexivity.
Qed.

(** X4. [filter] on a list whose arrays agree in length, with one flag
    per bond: the bonds that remain are exactly the bonds whose flag is
    set, in their original order; nothing else is added and the list
    does not grow. *)
Theorem filter_keeps_flagged (nl : NeighborList) (filt : list bool)
    (Hc : consistent nl)
    (Hfilt : length filt = getNumBonds nl) :
  bonds (filter nl filt).1 = map snd (List.filter fst (combine filt (bonds nl)))
  /\ (forall j, (j < getNumBonds nl)%nat -> nth j filt false = true ->
        In (bond_at nl j) (bonds (filter nl filt).1))
  /\ (forall b, In b (bonds (filter nl filt).1) ->
        exists j, (j < getNumBonds nl)%nat /\ nth j filt false = true
                  /\ b = bond_at nl j)
  /\ getNumBonds (filter nl filt).1 = length (List.filter (fun b => b) filt)
  /\ (getNumBonds (filter nl filt).1 <= getNumBonds nl)%nat.
Proof.
  assert (Hb : bonds (filter nl filt).1
               = map (bond_at nl)
                   (List.filter (fun j => nth j filt false) (seq 0 (getNumBonds nl)))).
  { unfold filter.
    pose proof (filter_loop_spec filt (getNumBonds nl) 0 0 nl Hc
                  ltac:(lia) ltac:(lia)) as Hspec.
    cbn zeta in Hspec.
    destruct (filter_loop filt (getNumBonds nl) 0 0 nl) as [g nl'].
    cbn [fst snd] in *. destruct Hspec as (_ & Hlen & Hg & Hb).
    destruct (NeighborList_facts.bonds_resize_shrink nl' g ltac:(lia)) as [_ Hbonds].
    rewrite Hbonds, Hb. reflexivity. }
  assert (Hcomb : bonds (filter nl filt).1
                  = map snd (List.filter fst (combine filt (bonds nl)))).
  { rewrite Hb. unfold bonds. rewrite <- Hfilt.
    rewrite <- (filter_seq_combine (bond_at nl) filt 0).
    f_equal. apply List.filter_ext. intros j. now rewrite Nat.sub_0_r. }
  split; [exact Hcomb |]. split; [| split; [| split]].
  - intros j Hj Hflag. rewrite Hb. apply in_map. apply filter_In.
    split; [apply in_seq; lia | exact Hflag].
  - intros b Hin. rewrite Hb in Hin. apply in_map_iff in Hin.
    destruct Hin as (j & Hbj & Hj). apply filter_In in Hj.
    destruct Hj as [Hj Hflag]. apply in_seq in Hj.
    exists j. repeat split; [lia | exact Hflag | now symmetry].
  - rewrite <- NeighborList_facts.length_bonds, Hcomb, length_map.
    apply length_filter_combine.
    rewrite NeighborList_facts.length_bonds. exact Hfilt.
  - rewrite <- (NeighborList_facts.length_bonds (filter nl filt).1), Hb, length_map.
    etransitivity; [apply List.filter_length_le |]. rewrite length_seq. lia.
Qed.

Lemma filter_keeps_flagged_witness :
  bonds (filter Scenes.ten_bonds
           [true; false; false; true; false; false; false; false; false; true]).1
  = map (bond_at Scenes.ten_bonds) [0; 3; 9]%nat.
Proof.
  destruct (filter_keeps_flagged Scenes.ten_bonds
              [true; false; false; true; false; false; false; false; false; true])
    as (Hb & _).
  - split; reflexivity.
  - reflexivity.
  - rewrite Hb. reflexivity.
Defined.

Lemma usub_spec (a b : nat) :
  (Z.of_nat a <= Z.of_nat b <= UINT_MAX)%Z ->
  Z.of_nat (usub a b) = ((Z.of_nat a - Z.of_nat b) mod 4294967296)%Z
  /\ (usub a b = 0%nat <-> a = b)
  /\ ((a < b)%nat -> Z.of_nat (usub a b) = (4294967296 - Z.of_nat (b - a))%Z).
Proof.
  intros Hab. unfold usub, UINT_MAX in *.
  change (4294967295 + 1)%Z with 4294967296%Z.
  assert (H0 : (0 <= (Z.of_nat a - Z.of_nat b) mod 4294967296 < 4294967296)%Z)
    by (apply Z.mod_pos_bound; lia).
  rewrite Z2Nat.id by lia. split; [reflexivity |].
  destruct (Nat.eq_dec a b) as [-> | Hne].
  - rewrite Z.sub_diag. cbn. split; [tauto | lia].
  - assert (Hm : ((Z.of_nat a - Z.of_nat b) mod 4294967296
                  = 4294967296 - Z.of_nat (b - a))%Z).
    { rewrite Nat2Z.inj_sub by lia.
      symmetry. apply (Z.mod_unique _ _ (-1)); lia. }
    rewrite Hm. split; [split; [intros H; lia | intros H; lia] | intros _; reflexivity].
Qed.

(** X5. The [unsigned int] that [filter] and [filter_r] return is the
    new number of bonds minus the old one, computed modulo 2^32: 0 when
    no bond is removed, and 2^32 minus the number of removed bonds
    otherwise. *)
Theorem filter_returns_unsigned_difference (nl : NeighborList) (filt : list bool)
    (r_max r_min : float)
    (Hc : consistent nl)
    (Hsize : (Z.of_nat (getNumBonds nl) <= UINT_MAX)%Z) :
  let old := getNumBonds nl in
  let by_flag := filter nl filt in
  let by_r := filter_r nl r_max r_min in
  (by_flag.2 = usub (getNumBonds by_flag.1) old
   /\ (by_flag.2 = 0%nat <-> getNumBonds by_flag.1 = old)
   /\ ((getNumBonds by_flag.1 < old)%nat ->
       Z.of_nat by_flag.2 = (4294967296 - Z.of_nat (old - getNumBonds by_flag.1))%Z))
  /\ (by_r.2 = usub (getNumBonds by_r.1) old
      /\ (by_r.2 = 0%nat <-> getNumBonds by_r.1 = old)
      /\ ((getNumBonds by_r.1 < old)%nat ->
          Z.of_nat by_r.2 = (4294967296 - Z.of_nat (old - getNumBonds by_r.1))%Z)).
Proof.
  cbn zeta. split.
  - unfold filter.
    pose proof (filter_loop_spec filt (getNumBonds nl) 0 0 nl Hc
                  ltac:(lia) ltac:(lia)) as Hspec.
    cbn zeta in Hspec.
    destruct (filter_loop filt (getNumBonds nl) 0 0 nl) as [g nl'].
    cbn [fst snd] in *. destruct Hspec as (_ & Hlen & Hg & _).
    destruct (NeighborList_facts.bonds_resize_shrink nl' g ltac:(lia)) as [Hsz _].
    rewrite Hsz, Hlen.
    destruct (usub_spec g (getNumBonds nl) ltac:(lia)) as (_ & H0 & Hlt).
    repeat split; try apply H0. exact Hlt.
  - unfold filter_r.
    pose proof (NeighborList_facts.filter_r_loop_spec r_max r_min (getNumBonds nl)
                  0 0 nl Hc ltac:(lia) ltac:(lia)) as Hspec.
    cbn zeta in Hspec.
    destruct (filter_r_loop r_max r_min (getNumBonds nl) 0 0 nl) as [g nl'].
    cbn [fst snd] in *. destruct Hspec as (_ & Hlen & Hg & _).
    destruct (NeighborList_facts.bonds_resize_shrink nl' g ltac:(lia)) as [Hsz _].
    rewrite Hsz, Hlen.
    destruct (usub_spec g (getNumBonds nl) ltac:(lia)) as (_ & H0 & Hlt).
    repeat split; try apply H0. exact Hlt.
Qed.

Lemma filter_returns_unsigned_difference_witness :
  Z.of_nat (filter_r Scenes.ten_bonds (3 # 4) (1 # 4)).2 = 4294967291%Z
  /\ (filter_r Scenes.ten_bonds 2 0).2 = 0%nat.
Proof.
  assert (E5 : getNumBonds (filter_r Scenes.ten_bonds (3 # 4) (1 # 4)).1 = 5%nat)
    by reflexivity.
  assert (E10 : getNumBonds (filter_r Scenes.ten_bonds 2 0).1 = 10%nat)
    by reflexivity.
  assert (E : getNumBonds Scenes.ten_bonds = 10%nat) by reflexivity.
  destruct (filter_returns_unsigned_difference Scenes.ten_bonds [] (3 # 4) (1 # 4))
    as (_ & _ & _ & Hlt).
  - split; reflexivity.
  - rewrite E. unfold UINT_MAX. lia.
  - destruct (filter_returns_unsigned_difference Scenes.ten_bonds [] 2 0)
      as (_ & _ & H0 & _).
    + split; reflexivity.
    + rewrite E. unfold UINT_MAX. lia.
    + split.
      * rewrite Hlt; rewrite E5, E; [reflexivity | lia].
      * apply H0. rewrite E10, E. reflexivity.
Defined.

(** ** The sizes a list declares *)

Lemma ctor_body_sizes (qpi pi : list nat) (d w : list float) (i : nat)
    (st st' : nat * NeighborList) :
  ctor_body qpi pi d w i st = Returns st' ->
  m_num_points st'.2 = m_num_points st.2
  /\ m_num_query_points st'.2 = m_num_query_points st.2
  /\ getNumBonds st'.2 = getNumBonds st.2.
Proof.
  destruct st as [last nl]. unfold ctor_body.
  destruct (read qpi i) as [index | |]; cbn [obind]; try discriminate.
  destruct (index <? last)%nat; try discriminate.
  destruct (m_num_query_points nl <=? index)%nat; try discriminate.
  destruct (read pi i) as [p | |]; cbn [obind]; try discriminate.
  destruct (m_num_points nl <=? p)%nat; try discriminate.
  destruct (read w i) as [wi | |]; cbn [obind]; try discriminate.
  destruct (read d i) as [di | |]; cbn [obind]; try discriminate.
  intros H. inversion H; subst; clear H. cbn.
  unfold getNumBonds, set2. cbn. rewrite !length_insert. repeat split.
Qed.

Lemma ctor_loop_sizes (qpi pi : list nat) (d w : list float) (n : nat) :
  forall start st st',
    for_range (ctor_body qpi pi d w) start n st = Returns st' ->
    m_num_points st'.2 = m_num_points st.2
    /\ m_num_query_points st'.2 = m_num_query_points st.2
    /\ getNumBonds st'.2 = getNumBonds st.2.
Proof.
  induction n as [| n IH]; intros start st st' Hrun; cbn [for_range] in Hrun.
  - inversion Hrun; subst. repeat split.
  - destruct (ctor_body qpi pi d w start st) as [st1 | |] eqn:Hb;
      cbn [obind] in Hrun; try discriminate.
    destruct (ctor_body_sizes _ _ _ _ _ _ _ Hb) as (H1 & H2 & H3).
    destruct (IH _ _ _ Hrun) as (H4 & H5 & H6).
    repeat split; congruence.
Qed.

(** X6. Whenever the constructor from flat arrays returns a list, the
    list has [num_bonds] bonds and declares the sizes it was given:
    [validate] accepts exactly the pair ([num_points],
    [num_query_points]) and throws for every other pair. *)
Theorem from_arrays_validates (B Nq Np : nat) (qpi pi : list nat) (d w : list float)
    (nl : NeighborList)
    (Hctor : NeighborList_from_arrays B qpi Nq pi Np d w = Returns nl) :
  getNumBonds nl = B
  /\ getNumPoints nl = Np /\ getNumQueryPoints nl = Nq
  /\ forall np nq,
       (np = Np /\ nq = Nq -> validate nl np nq = Returns tt)
       /\ (np <> Np \/ nq <> Nq ->
           validate nl np nq
           = Throws (runtime_error "NeighborList found inconsistent array sizes.")).
Proof.
  unfold NeighborList_from_arrays in Hctor.
  destruct (for_range _ _ _ _) as [st | |] eqn:Hrun; cbn [obind] in Hctor;
    try discriminate.
  inversion Hctor; subst; clear Hctor.
  destruct (ctor_loop_sizes _ _ _ _ _ _ _ _ Hrun) as (H1 & H2 & H3).
  cbn [snd m_num_points m_num_query_points] in H1, H2.
  unfold getNumBonds in H3 at 2. cbn [snd m_neighbors] in H3.
  rewrite NeighborList_facts.prepare_length in H3.
  unfold getNumPoints, getNumQueryPoints.
  repeat split; try assumption.
  - intros [-> ->]. unfold validate. rewrite H1, H2, !Nat.eqb_refl. reflexivity.
  - intros Hne. unfold validate. rewrite H1, H2.
    destruct (Nat.eqb_spec np Np) as [-> | _]; cbn [negb]; [| reflexivity].
    destruct (Nat.eqb_spec nq Nq) as [-> | _]; cbn [negb]; [| reflexivity].
    destruct Hne as [Hne | Hne]; congruence.
Qed.

Lemma from_arrays_validates_witness :
  exists nl,
    NeighborList_from_arrays 2 [0; 1]%nat 2 [1; 0]%nat 3 [1 # 2; 1 # 2]%Q [1; 1]%Q
      = Returns nl
    /\ validate nl 3 2 = Returns tt
    /\ validate nl 2 3
       = Throws (runtime_error "NeighborList found inconsistent array sizes.").
Proof.
  eexists. split; [reflexivity |].
  destruct (from_arrays_validates 2 2 3 [0; 1]%nat [1; 0]%nat
              [1 # 2; 1 # 2]%Q [1; 1]%Q _ eq_refl) as (_ & _ & _ & Hv).
  split.
  - apply (Hv 3 2)%nat. split; reflexivity.
  - apply (Hv 2 3)%nat. left. discriminate.
Defined.

End NeighborList_index_facts.

(** * Properties of NeighborQuery.h: validation, order and exclusion *)

Module NeighborQuery_more_facts.
Import NeighborQuery_h Scenes Numeric_facts IndexSpec.

(** X8. [validateQueryArgs] throws exactly for an explicit [ball] mode
    without [r_max] and for an explicit [nearest] mode without
    [num_neigh]; with the mode left at [none] it never throws.  When it
    returns, the record is the one [inferMode] gives, only the mode may
    differ from the input, and the parameter of the mode is set. *)
Theorem validateQueryArgs_throws_iff (args : QueryArgs) :
  (is_throw (validateQueryArgs args) = true <->
     (mode args = ball /\ (r_max args == -1)%Q)
     \/ (mode args = nearest /\ num_neigh args = (-1)%Z))
  /\ (is_throw (validateQueryArgs args) = false ->
      validateQueryArgs args = Returns (inferMode args)
      /\ num_neigh (inferMode args) = num_neigh args
      /\ r_max (inferMode args) = r_max args
      /\ scale (inferMode args) = scale args
      /\ exclude_ii (inferMode args) = exclude_ii args
      /\ (mode (inferMode args) = ball -> ~ (r_max args == -1)%Q)
      /\ (mode (inferMode args) = nearest -> num_neigh args <> (-1)%Z)
      /\ (mode (inferMode args) = none ->
          mode args = none /\ num_neigh args = (-1)%Z /\ (r_max args == -1)%Q)).
Proof.
  unfold validateQueryArgs, inferMode.
  destruct args as [m k r s e]. cbn [mode num_neigh r_max scale exclude_ii].
  destruct (Z.eqb_spec k (-1)) as [Hk | Hk];
    destruct (Qeq_bool r (-1)) eqn:Hr;
    (assert (Hr' : (r == -1)%Q \/ ~ (r == -1)%Q)
       by (destruct (Qeq_dec r (-1)); tauto));
    pose proof (Qeq_bool_iff r (-1)) as Hiff;
    destruct m; cbn; rewrite ?Hr; cbn;
      try (destruct (Z.eqb_spec k (-1)); try contradiction; try lia); cbn;
      (split; [split; [intros; try discriminate; tauto
                      | intros [[? ?] | [? ?]]; try discriminate; try reflexivity;
                        try tauto; try lia;
                        try (exfalso; rewrite <- Hiff in *; congruence)]
              | intros; try discriminate;
                repeat split; intros; try discriminate; try tauto; try lia;
                try (rewrite <- Hiff in *; congruence)]).
Qed.

(** X9. An explicit mode is never overridden by inference: with
    mode [ball] the call is the ball query when [r_max] is set and
    throws when it is not, whatever [num_neigh] holds; with mode
    [nearest] the call is the k-nearest query when [num_neigh] is set
    and throws when it is not, whatever [r_max] holds. *)
Theorem queryWithArgs_explicit_mode {I : Type} `{NeighborQueryOps I}
    (query_points : list vec3) (n : nat) (args : QueryArgs) :
  (mode args = ball ->
     (~ (r_max args == -1)%Q ->
        queryWithArgs query_points n args
        = queryBall query_points n (r_max args) (exclude_ii args))
     /\ ((r_max args == -1)%Q ->
        queryWithArgs (I := I) query_points n args
        = Throws (runtime_error
            "You must set r_max in the query arguments when performing ball queries.")))
  /\ (mode args = nearest ->
        (num_neigh args <> (-1)%Z ->
           queryWithArgs query_points n args
           = query query_points n (to_unsigned (num_neigh args)) (exclude_ii args))
        /\ (num_neigh args = (-1)%Z ->
           queryWithArgs (I := I) query_points n args
           = Throws (runtime_error
               "You must set num_neigh in the query arguments when performing number of neighbor queries."))).
Proof.
  unfold queryWithArgs, validateQueryArgs, inferMode.
  split; intros Hm; rewrite Hm; cbn [mode]; rewrite Hm.
  - destruct (Qeq_bool (r_max args) (-1)) eqn:Hr.
    + apply Qeq_bool_iff in Hr. split; [tauto | reflexivity].
    + split; [| intros Hq; apply Qeq_bool_iff in Hq; congruence].
      intros _. cbn [obind]. now rewrite Hm.
  - destruct (Z.eqb_spec (num_neigh args) (-1)) as [Hk | Hk].
    + split; [tauto | reflexivity].
    + split; [| tauto]. intros _. cbn [obind]. now rewrite Hm.
Qed.

(** X10. A [RawPoints] object answers no query: through
    [queryWithArgs] every argument record ends in an exception, and no
    iterator is ever handed out. *)
Theorem RawPoints_never_answers (I : Type) (query_points : list vec3) (n : nat)
    (args : QueryArgs) :
  is_throw (queryWithArgs (H := RawPoints I) query_points n args) = true
  /\ (forall it, queryWithArgs (H := RawPoints I) query_points n args <> Returns it)
  /\ (mode (inferMode args) = nearest -> num_neigh args <> (-1)%Z ->
      queryWithArgs (H := RawPoints I) query_points n args
      = Throws (runtime_error "The query method is not implemented for RawPoints."))
  /\ (mode (inferMode args) = ball -> ~ (r_max args == -1)%Q ->
      queryWithArgs (H := RawPoints I) query_points n args
      = Throws (runtime_error "The queryBall method is not implemented for RawPoints.")).
Proof.
  assert (Hthrow : is_throw (queryWithArgs (H := RawPoints I) query_points n args)
                   = true).
  { unfold queryWithArgs, validateQueryArgs.
    destruct (mode (inferMode args)) eqn:Hm.
    - cbn [obind]. now rewrite Hm.
    - destruct (Qeq_bool _ _); [reflexivity |]. cbn [obind]. now rewrite Hm.
    - destruct (_ =? _)%Z; [reflexivity |]. cbn [obind]. now rewrite Hm. }
  split; [exact Hthrow |]. split; [| split].
  - intros it Hit. rewrite Hit in Hthrow. discriminate.
  - intros Hm Hk. unfold queryWithArgs, validateQueryArgs. rewrite Hm.
    assert (Hk' : num_neigh (inferMode args) = num_neigh args).
    { unfold inferMode. destruct (mode args); try reflexivity.
      destruct (negb _); [reflexivity |]. destruct (negb _); reflexivity. }
    rewrite Hk'. destruct (Z.eqb_spec (num_neigh args) (-1)); [contradiction |].
    cbn [obind]. now rewrite Hm.
  - intros Hm Hr. unfold queryWithArgs, validateQueryArgs. rewrite Hm.
    assert (Hr' : r_max (inferMode args) = r_max args).
    { unfold inferMode. destruct (mode args); try reflexivity.
      destruct (negb _); [reflexivity |]. destruct (negb _); reflexivity. }
    rewrite Hr'. destruct (Qeq_bool (r_max args) (-1)) eqn:E.
    + apply Qeq_bool_iff in E. contradiction.
    + cbn [obind]. now rewrite Hm.
Qed.

(** ** The order of a materialised list *)

Lemma less_as_tuple_spec (l r : NeighborBond) :
  less_as_tuple l r = true <->
  (id l < id r)%nat
  \/ (id l = id r
      /\ ((distance l < distance r)%Q
          \/ ((distance l == distance r)%Q /\ (ref_id l < ref_id r)%nat))).
Proof.
  unfold less_as_tuple.
  repeat (rewrite orb_true_iff || rewrite andb_true_iff).
  rewrite !Nat.ltb_lt, Nat.eqb_eq, Qltb_lt, Qeq_bool_iff.
  reflexivity.
Qed.

(** [a] is not after [b]: [b] is not less than [a]. *)
Definition not_after (a b : NeighborBond) : Prop :=
  NeighborList_cc.compareNeighborBond b a = false.

Lemma not_after_spec (a b : NeighborBond) :
  not_after a b <->
  (id a < id b)%nat
  \/ (id a = id b
      /\ ((distance a < distance b)%Q
          \/ ((distance a == distance b)%Q /\ (ref_id a <= ref_id b)%nat))).
Proof.
  unfold not_after, NeighborList_cc.compareNeighborBond.
  rewrite <- not_true_iff_false, less_as_tuple_spec.
  destruct (Nat.lt_trichotomy (id a) (id b)) as [H | [H | H]];
    destruct (Q_dec (distance a) (distance b)) as [[Hd | Hd] | Hd];
    destruct (Nat.le_gt_cases (ref_id a) (ref_id b)) as [Hr | Hr];
    split; intros Hx;
    try (left; lia);
    try (right; split; [lia |]; first [left; lra | right; split; [lra | lia]]);
    try (intros [Hy | [Hy [Hz | [Hz Hw]]]]; try lia; try lra;
         destruct Hx as [Hx | [Hx [Hv | [Hv Hu]]]]; try lia; try lra);
    try (exfalso; apply Hx;
         first [left; lia
               | right; split; [lia |];
                 first [left; lra | right; split; [lra | lia]]]).
Qed.

Lemma not_after_of_less (a b : NeighborBond) :
  NeighborList_cc.compareNeighborBond a b = true -> not_after a b.
Proof.
  unfold NeighborList_cc.compareNeighborBond. rewrite less_as_tuple_spec, not_after_spec.
  intros [H | [H [Hd | [Hd Hr]]]]; [left; lia | right | right];
    (split; [lia |]); [left; lra | right; split; [lra | lia]].
Qed.

Lemma not_after_trans (a b c : NeighborBond) :
  not_after a b -> not_after b c -> not_after a c.
Proof.
  rewrite !not_after_spec.
  intros [H1 | [H1 [Hd1 | [Hd1 Hr1]]]] [H2 | [H2 [Hd2 | [Hd2 Hr2]]]];
    try (left; lia);
    right; (split; [lia |]);
    first [left; lra | right; split; [lra | lia]].
Qed.

Lemma insert_by_sorted (x : NeighborBond) (l : list NeighborBond) :
  StronglySorted not_after l ->
  StronglySorted not_after (insert_by NeighborList_cc.compareNeighborBond x l).
Proof.
  induction l as [| y l IH]; intros Hs; cbn [insert_by].
  - constructor; constructor.
  - apply StronglySorted_inv in Hs. destruct Hs as [Hl Hy].
    destruct (NeighborList_cc.compareNeighborBond y x) eqn:Hyx.
    + constructor; [apply IH; exact Hl |].
      apply (Permutation_Forall (Permutation_sym (insert_by_perm _ x l))).
      constructor; [apply not_after_of_less; exact Hyx | exact Hy].
    + constructor; [constructor; assumption |].
      constructor; [exact Hyx |].
      eapply Forall_impl; [exact Hy |].
      intros z Hz. apply (not_after_trans x y z); [exact Hyx | exact Hz].
Qed.

Lemma sort_by_sorted (l : list NeighborBond) :
  StronglySorted not_after (sort_by NeighborList_cc.compareNeighborBond l).
Proof.
  induction l as [| x l IH]; cbn [sort_by]; [constructor |].
  apply insert_by_sorted. exact IH.
Qed.

Lemma sorted_with_weight (w : float) (l : list NeighborBond) :
  StronglySorted not_after l ->
  StronglySorted not_after (map (NeighborQuery_facts.with_weight w) l).
Proof.
  induction 1 as [| a l Hl IH Ha]; cbn [map]; constructor; [exact IH |].
  apply Forall_map. eapply Forall_impl; [exact Ha |].
  intros b Hab. exact Hab.
Qed.

Lemma StronglySorted_nth_lt {A : Type} (R : A -> A -> Prop) (l : list A) (d : A) :
  StronglySorted R l ->
  forall a b, (a < b < length l)%nat -> R (nth a l d) (nth b l d).
Proof.
  induction 1 as [| x l Hl IH Hx]; intros a b Hab; [cbn in Hab; lia |].
  destruct b as [| b]; [lia |]. destruct a as [| a]; cbn [nth].
  - rewrite Forall_forall in Hx. apply Hx.
    apply list_elem_of_In, nth_In. cbn in Hab. lia.
  - apply IH. cbn in Hab. lia.
Qed.

Lemma sorted_ids_nondecreasing (l : list NeighborBond) :
  StronglySorted not_after l -> nondecreasing (map id l) = true.
Proof.
  induction l as [| a l IH]; intros Hs; [reflexivity |].
  apply StronglySorted_inv in Hs. destruct Hs as [Hl Ha].
  destruct l as [| b l]; [reflexivity |].
  cbn [map nondecreasing]. apply andb_true_iff. split.
  - apply Nat.leb_le. apply Forall_inv in Ha. apply not_after_spec in Ha. lia.
  - apply IH. exact Hl.
Qed.

Lemma ids_bonds (nl : NeighborList_cc.NeighborList) :
  map id (NeighborList_cc.bonds nl) = ids nl.
Proof.
  unfold NeighborList_cc.bonds, ids, NeighborList_cc.getNumBonds.
  rewrite map_map. cbn [id NeighborList_cc.bond_at].
  unfold NeighborList_cc.get2. cbn [Nat.eqb].
  rewrite <- (map_map (fun b => nth b (NeighborList_cc.m_neighbors nl) (0, 0)%nat) fst).
  rewrite (map_nth_seq (0, 0)%nat _ _ (Nat.le_refl _)).
  now rewrite firstn_all.
Qed.

Lemma fill_lists_sizes (lb : list NeighborBond) (nl : NeighborList_cc.NeighborList) :
  NeighborList_cc.m_num_points (fill_lists nl lb) = NeighborList_cc.m_num_points nl
  /\ NeighborList_cc.m_num_query_points (fill_lists nl lb)
     = NeighborList_cc.m_num_query_points nl.
Proof.
  unfold fill_lists, memset_weights.
  cbn [NeighborList_cc.set_weights NeighborList_cc.m_num_points
         NeighborList_cc.m_num_query_points].
  generalize (seq 0 (length lb)). intros js. revert nl.
  induction js as [| j js IH]; intros nl; cbn [fold_left]; [split; reflexivity |].
  destruct (IH (write_bond lb nl j)) as [H1 H2]. rewrite H1, H2.
  unfold write_bond. destruct (lb !! j); split; reflexivity.
Qed.

(** What [toNeighborList] returns, for any kind of iterator: the
    collected bonds, sorted, with the weight [memset] leaves, in a
    list that declares the number of query points as its number of
    points and the number of points as its number of query points (the
    order in which the call of [setNumBonds] passes them). *)
Lemma toNeighborList_inv {S : Type} `{NeighborIterator S}
    (default_weight : float) (default_reset : bool) (nq : NeighborQuery)
    (n : nat) (ex : bool) (query_idx : nat -> outcome S) (fuel : nat)
    (nl : NeighborList_cc.NeighborList) :
  toNeighborList default_weight default_reset nq n ex query_idx fuel
    = Some (Returns nl) ->
  exists collected,
    collect_all default_weight ex query_idx fuel 0 n [] = Some (Returns collected)
    /\ NeighborList_cc.bonds nl
       = map (NeighborQuery_facts.with_weight (memset_float 1))
           (sort_by NeighborList_cc.compareNeighborBond collected)
    /\ NeighborList_cc.m_num_points nl = n
    /\ NeighborList_cc.m_num_query_points nl = getNPoints nq.
Proof.
  unfold toNeighborList.
  destruct (collect_all default_weight ex query_idx fuel 0 n [])
    as [[collected | e |] |]; try discriminate.
  intros Hnl. inversion Hnl as [Heq]. clear Hnl.
  exists collected. split; [reflexivity |].
  set (linear := sort_by NeighborList_cc.compareNeighborBond collected) in *.
  destruct (NeighborQuery_facts.fresh_list_sized default_reset (length linear) n
              (getNPoints nq)) as (Hl1 & Hl2 & Hl3).
  split; [apply (NeighborQuery_facts.fill_lists_bonds linear _ Hl1 Hl2 Hl3) |].
  destruct (fill_lists_sizes linear
              (NeighborList_cc.setNumBonds default_reset
                 (NeighborList_cc.resize NeighborList_cc.NeighborList_default
                    (length linear) default_reset)
                 (length linear) n (getNPoints nq))) as [H1 H2].
  rewrite H1, H2. split; reflexivity.
Qed.

(** X11. The list [toNeighborList] returns declares its sizes the
    other way round: its number of points is the number of query
    points of the iterator and its number of query points is the
    number of points of the query object.  [validate], called with the
    number of points and the number of query points, accepts the list
    exactly when the two numbers coincide. *)
Theorem toNeighborList_swaps_sizes {S : Type} `{NeighborIterator S}
    (default_weight : float) (default_reset : bool) (nq : NeighborQuery)
    (n : nat) (ex : bool) (query_idx : nat -> outcome S) (fuel : nat)
    (nl : NeighborList_cc.NeighborList)
    (Hrun : toNeighborList default_weight default_reset nq n ex query_idx fuel
            = Some (Returns nl)) :
  NeighborList_cc.getNumPoints nl = n
  /\ NeighborList_cc.getNumQueryPoints nl = getNPoints nq
  /\ NeighborList_cc.validate nl n (getNPoints nq) = Returns tt
  /\ (NeighborList_cc.validate nl (getNPoints nq) n = Returns tt
      <-> getNPoints nq = n)
  /\ (getNPoints nq <> n ->
      NeighborList_cc.validate nl (getNPoints nq) n
      = Throws (runtime_error "NeighborList found inconsistent array sizes.")).
Proof.
  destruct (toNeighborList_inv _ _ _ _ _ _ _ _ Hrun) as (_ & _ & _ & Hp & Hq).
  unfold NeighborList_cc.getNumPoints, NeighborList_cc.getNumQueryPoints,
    NeighborList_cc.validate.
  rewrite Hp, Hq, !Nat.eqb_refl. cbn [negb].
  repeat split.
  - destruct (Nat.eqb_spec (getNPoints nq) n) as [Heq | Hne]; cbn [negb];
      [tauto | discriminate].
  - intros Heq. rewrite Heq, !Nat.eqb_refl. reflexivity.
  - intros Hne. destruct (Nat.eqb_spec (getNPoints nq) n); [contradiction |].
    reflexivity.
Qed.

Lemma toNeighborList_swaps_sizes_witness :
  let nq := mkNeighborQuery (open_cube 1) [vzero; vzero; vzero] 3 in
  let stream := fun i : nat =>
    Returns (mkListIterator (mkNeighborBond 9 9 0 0) [mkNeighborBond i 2 (1 # 2) 1] false) in
  exists nl,
    toNeighborList 1%Q false nq 1 false stream 3 = Some (Returns nl)
    /\ NeighborList_cc.getNumPoints nl = 1%nat
    /\ NeighborList_cc.getNumQueryPoints nl = 3%nat
    /\ NeighborList_cc.validate nl 3 1
       = Throws (runtime_error "NeighborList found inconsistent array sizes.").
Proof.
  intros nq stream.
  assert (Hrun : exists nl, toNeighborList 1%Q false nq 1 false stream 3
                            = Some (Returns nl)) by (eexists; reflexivity).
  destruct Hrun as [nl Hrun]. exists nl. split; [exact Hrun |].
  destruct (toNeighborList_swaps_sizes 1%Q false nq 1 false stream 3 nl Hrun)
    as (Hp & Hq & _ & _ & Hv).
  split; [exact Hp |]. split; [exact Hq |]. apply Hv. discriminate.
Defined.

(** X12. The bonds of the list [toNeighborList] returns are in the
    order of [compareNeighborBond]: no bond is less than a bond before
    it.  In particular the query indices never decrease along the
    list, which is what [find_first_index] and [updateSegmentCounts]
    rely on; and every weight is the float [memset] leaves. *)
Theorem toNeighborList_sorted {S : Type} `{NeighborIterator S}
    (default_weight : float) (default_reset : bool) (nq : NeighborQuery)
    (n : nat) (ex : bool) (query_idx : nat -> outcome S) (fuel : nat)
    (nl : NeighborList_cc.NeighborList)
    (Hrun : toNeighborList default_weight default_reset nq n ex query_idx fuel
            = Some (Returns nl)) :
  StronglySorted not_after (NeighborList_cc.bonds nl)
  /\ (forall a b, (a < b < NeighborList_cc.getNumBonds nl)%nat ->
        NeighborList_cc.compareNeighborBond (NeighborList_cc.bond_at nl b)
          (NeighborList_cc.bond_at nl a) = false)
  /\ nondecreasing (ids nl) = true
  /\ (forall b, In b (NeighborList_cc.bonds nl) -> weight b = memset_float 1).
Proof.
  destruct (toNeighborList_inv _ _ _ _ _ _ _ _ Hrun) as (collected & _ & Hb & _).
  assert (Hs : StronglySorted not_after (NeighborList_cc.bonds nl)).
  { rewrite Hb. apply sorted_with_weight, sort_by_sorted. }
  split; [exact Hs |]. split; [| split].
  - intros a b Hab.
    assert (Hnth : forall j, (j < NeighborList_cc.getNumBonds nl)%nat ->
              NeighborList_cc.bond_at nl j
              = nth j (NeighborList_cc.bonds nl) (NeighborList_cc.bond_at nl 0)).
    { intros j Hj. unfold NeighborList_cc.bonds.
      rewrite (map_nth (NeighborList_cc.bond_at nl)), seq_nth by exact Hj.
      reflexivity. }
    rewrite (Hnth a), (Hnth b) by lia.
    apply (StronglySorted_nth_lt _ _ _ Hs).
    rewrite NeighborList_facts.length_bonds. lia.
  - rewrite <- ids_bonds. apply sorted_ids_nondecreasing. exact Hs.
  - intros b Hin. rewrite Hb in Hin. apply in_map_iff in Hin.
    destruct Hin as (b0 & <- & _). reflexivity.
Qed.

Lemma toNeighborList_sorted_witness :
  let nq := mkNeighborQuery (open_cube 1) [vzero; vzero; vzero] 3 in
  let T := mkNeighborBond 9 9 0 0 in
  let stream := fun i : nat =>
    Returns (mkListIterator T
               [mkNeighborBond i 2 (3 # 4) 1; mkNeighborBond i 1 (1 # 4) 1] false) in
  exists nl,
    toNeighborList 1%Q false nq 2 false stream 4 = Some (Returns nl)
    /\ nondecreasing (ids nl) = true
    /\ map (fun b => (id b, ref_id b)) (NeighborList_cc.bonds nl)
       = [(0, 1); (0, 2); (1, 1); (1, 2)]%nat.
Proof.
  intros nq T stream.
  assert (Hrun : exists nl, toNeighborList 1%Q false nq 2 false stream 4
                            = Some (Returns nl)) by (eexists; reflexivity).
  destruct Hrun as [nl Hrun]. exists nl. split; [exact Hrun |].
  destruct (toNeighborList_sorted 1%Q false nq 2 false stream 4 nl Hrun)
    as (_ & _ & Hs & _).
  split; [exact Hs |].
  vm_compute in Hrun. inversion Hrun. reflexivity.
Defined.

(** ** Self-exclusion *)

Section exclusion.
Variable T : NeighborBond.
Variable default_weight : float.
Variable bs : nat -> list NeighborBond.

(** The test of the collecting loop on a yielded bond. *)
Definition kept (ex : bool) (i : nat) (np : NeighborBond) : bool :=
  negb ex || negb (i =? ref_id np)%nat.

Lemma collect_list_kept (ex : bool) (i : nat) (l : list NeighborBond) :
  forall (local_bonds : list NeighborBond) (fuel : nat),
    (length l + 2 <= fuel)%nat ->
    collect default_weight ex fuel i (mkListIterator T l false) local_bonds
    = Some (Returns (local_bonds
                     ++ map (NeighborQuery_facts.retag default_weight i)
                          (List.filter (kept ex i) (l ++ [T])))).
Proof.
  induction l as [| b l IH]; intros local_bonds fuel Hfuel;
    (destruct fuel as [| fuel]; [cbn in Hfuel; lia |]); cbn [collect end_ next
      ListIterator_ops li_finished li_pending li_terminator].
  - destruct fuel as [| fuel]; [cbn in Hfuel; lia |].
    cbn [collect end_ ListIterator_ops li_finished app List.filter].
    fold (kept ex i T). destruct (kept ex i T); cbn [map];
      [reflexivity | now rewrite app_nil_r].
  - rewrite IH by (cbn in Hfuel; lia). cbn [app List.filter].
    fold (kept ex i b). destruct (kept ex i b); cbn [map].
    + now rewrite <- app_assoc.
    + reflexivity.
Qed.

Lemma collect_all_list_kept (ex : bool) (fuel : nat) (n : nat) :
  forall (i : nat) (local_bonds : list NeighborBond),
    (forall j, (length (bs j) + 2 <= fuel)%nat) ->
    (forall j, (i <= j < i + n)%nat -> kept ex j T = true) ->
    collect_all default_weight ex (NeighborQuery_facts.list_stream T bs) fuel i n
      local_bonds
    = Some (Returns (local_bonds
                     ++ flat_map (fun j =>
                          map (NeighborQuery_facts.retag default_weight j)
                            (List.filter (kept ex j) (bs j))) (seq i n))).
Proof.
  induction n as [| n IH]; intros i local_bonds Hfuel HT;
    cbn [collect_all seq flat_map].
  - now rewrite app_nil_r.
  - unfold NeighborQuery_facts.list_stream at 1.
    rewrite (collect_list_kept ex i (bs i) local_bonds fuel (Hfuel i)).
    rewrite List.filter_app. cbn [List.filter].
    rewrite (HT i ltac:(lia)). rewrite map_app. cbn [map].
    rewrite !app_assoc. unfold pop_back.
    destruct ((local_bonds
               ++ map (NeighborQuery_facts.retag default_weight i)
                    (List.filter (kept ex i) (bs i)))
              ++ [NeighborQuery_facts.retag default_weight i T]) eqn:Heq.
    + apply app_eq_nil in Heq. destruct Heq as [_ Heq]. discriminate.
    + rewrite <- Heq, removelast_last.
      rewrite (IH (S i) _ Hfuel) by (intros j Hj; apply HT; lia).
      now rewrite <- app_assoc.
Qed.

End exclusion.

(** X13. Materialisation with [exclude_ii] set, over iterators that
    hand out the bonds [bs i] of query point [i] and then a terminator
    whose point index is no query index: the call returns, and the
    list holds exactly the yielded bonds whose point index differs
    from their query index (each once, with its query index, point
    index and distance); no bond of a point with itself remains. *)
Theorem toNeighborList_excludes_self (T : NeighborBond) (default_weight : float)
    (default_reset : bool) (nq : NeighborQuery) (bs : nat -> list NeighborBond)
    (n fuel : nat)
    (Hfuel : forall j, (length (bs j) + 2 <= fuel)%nat)
    (Hterm : forall i, (i < n)%nat -> ref_id T <> i) :
  exists nl,
    toNeighborList default_weight default_reset nq n true
      (NeighborQuery_facts.list_stream T bs) fuel = Some (Returns nl)
    /\ Permutation (NeighborList_cc.bonds nl)
         (flat_map (fun i =>
            map (fun b => mkNeighborBond i (ref_id b) (distance b) (memset_float 1))
              (List.filter (fun b => negb (i =? ref_id b)%nat) (bs i)))
            (seq 0 n))
    /\ (forall b, In b (NeighborList_cc.bonds nl) -> id b <> ref_id b).
Proof.
  assert (Hcollect :
    collect_all default_weight true (NeighborQuery_facts.list_stream T bs) fuel 0 n []
    = Some (Returns (flat_map (fun j =>
                       map (NeighborQuery_facts.retag default_weight j)
                         (List.filter (kept true j) (bs j))) (seq 0 n)))).
  { rewrite (collect_all_list_kept T default_weight bs true fuel n 0 [] Hfuel);
      [reflexivity |].
    intros j Hj. unfold kept. cbn [negb orb].
    specialize (Hterm j ltac:(lia)).
    destruct (Nat.eqb_spec j (ref_id T)); [congruence | reflexivity]. }
  assert (Hrun : exists nl,
            toNeighborList default_weight default_reset nq n true
              (NeighborQuery_facts.list_stream T bs) fuel = Some (Returns nl)).
  { unfold toNeighborList. rewrite Hcollect. eexists. reflexivity. }
  destruct Hrun as [nl Hrun]. exists nl. split; [exact Hrun |].
  destruct (toNeighborList_inv _ _ _ _ _ _ _ _ Hrun) as (collected & Hc & Hb & _).
  rewrite Hcollect in Hc. inversion Hc as [Hc']. clear Hc.
  assert (Hperm : Permutation (NeighborList_cc.bonds nl)
            (flat_map (fun i =>
               map (fun b => mkNeighborBond i (ref_id b) (distance b) (memset_float 1))
                 (List.filter (fun b => negb (i =? ref_id b)%nat) (bs i)))
               (seq 0 n))).
  { rewrite Hb, (sort_by_perm _ collected), <- Hc'.
    rewrite !flat_map_concat_map, !concat_map, !map_map.
    erewrite map_ext; [reflexivity |].
    intros j. cbn beta. rewrite map_map. reflexivity. }
  split; [exact Hperm |].
  intros b Hin. apply (Permutation_in _ Hperm) in Hin.
  apply in_flat_map in Hin. destruct Hin as (i & _ & Hin).
  apply in_map_iff in Hin. destruct Hin as (b0 & <- & Hb0).
  apply filter_In in Hb0. destruct Hb0 as [_ Hne]. cbn [id ref_id].
  apply negb_true_iff, Nat.eqb_neq in Hne. exact Hne.
Qed.

Lemma toNeighborList_excludes_self_witness :
  let nq := mkNeighborQuery (open_cube 1) [vzero; vzero] 2 in
  let T := mkNeighborBond 9 9 0 0 in
  let bs := fun i : nat => [mkNeighborBond i i 0 1; mkNeighborBond i (1 - i) (1 # 2) 1] in
  exists nl,
    toNeighborList 1%Q false nq 2 true (NeighborQuery_facts.list_stream T bs) 4
      = Some (Returns nl)
    /\ map (fun b => (id b, ref_id b)) (NeighborList_cc.bonds nl)
       = [(0, 1); (1, 0)]%nat
    /\ (forall b, In b (NeighborList_cc.bonds nl) -> id b <> ref_id b).
Proof.
  intros nq T bs.
  destruct (toNeighborList_excludes_self T 1%Q false nq bs 2 4)
    as (nl & Hrun & _ & Hself).
  - intros j. cbn. lia.
  - intros i Hi. cbn. lia.
  - exists nl. split; [exact Hrun |]. split; [| exact Hself].
    vm_compute in Hrun. inversion Hrun. reflexivity.
Defined.

(** X14. The wrapper of the k-nearest iterator resets [m_k] only on
    the way of an exception.  Without [exclude_ii] it is the parent's
    materialisation and leaves the iterator as it was.  With
    [exclude_ii], a call that returns a list leaves [m_k] raised by
    one (modulo 2^32), so that the next call on the same iterator
    collects with the count raised by two. *)
Theorem QueryIterator_toNeighborList_keeps_increment {S : Type} `{NeighborIterator S}
    (default_weight : float) (default_reset : bool)
    (query_idx : nat -> nat -> outcome S) (fuel : nat)
    (it : NeighborQueryQueryIterator) :
  let parent := fun k =>
    toNeighborList default_weight default_reset (qi_neighbor_query it)
      (qi_n_query_points it) (qi_exclude_ii it) (query_idx k) fuel in
  let call := QueryIterator_toNeighborList default_weight default_reset query_idx fuel in
  (qi_exclude_ii it = false ->
     call it = match parent (m_k it) with
               | Some r => Some (r, it)
               | None => None
               end)
  /\ (qi_exclude_ii it = true ->
      forall nl, parent (uadd (m_k it) 1) = Some (Returns nl) ->
        call it = Some (Returns nl, set_k it (uadd (m_k it) 1))
        /\ NeighborQuery_h.m_k (set_k it (uadd (m_k it) 1)) = uadd (m_k it) 1
        /\ forall nl2, parent (uadd (uadd (m_k it) 1) 1) = Some (Returns nl2) ->
             call (set_k it (uadd (m_k it) 1))
             = Some (Returns nl2, set_k it (uadd (uadd (m_k it) 1) 1))).
Proof.
  cbn zeta. destruct it as [nq n ex k].
  cbn [qi_exclude_ii qi_neighbor_query qi_n_query_points NeighborQuery_h.m_k].
  split; intros ->; unfold QueryIterator_toNeighborList;
    cbn [qi_exclude_ii qi_neighbor_query qi_n_query_points NeighborQuery_h.m_k set_k].
  - destruct (toNeighborList default_weight default_reset nq n false (query_idx k) fuel)
      as [[nl | e |] |]; reflexivity.
  - intros nl Hnl. rewrite Hnl. split; [reflexivity |]. split; [reflexivity |].
    intros nl2 Hnl2. rewrite Hnl2. reflexivity.
Qed.

End NeighborQuery_more_facts.

(** * Properties of NeighborComputeFunctional.h: iterating per query point *)

Module PerPoint_facts.
Import NeighborList_cc NeighborQuery_h NeighborComputeFunctional_h.
Import ListSpec IndexSpec TraversalSpec Numeric_facts NeighborList_index_facts.

Lemma fold_body_app {St : Type} (body : NeighborBond -> St -> outcome St)
    (l1 l2 : list NeighborBond) (st : St) :
  fold_body body (l1 ++ l2) st = (st <-- fold_body body l1 st ;; fold_body body l2 st).
Proof.
  revert st. induction l1 as [| x l1 IH]; intros st; cbn [app fold_body obind];
    [reflexivity |].
  destruct (body x st) as [st1 | e |]; cbn [obind]; [apply IH | reflexivity..].
Qed.

Lemma drive_as_loop {S : Type} `{NeighborIterator S} (fuel : nat) :
  forall (nb : NeighborBond) (it : S) (seen : list NeighborBond),
    drive fuel nb it seen
    = neighbors_loop (fun nb seen => Returns (seen ++ [nb])) fuel nb it seen.
Proof.
  induction fuel as [| fuel IH]; intros nb it seen; cbn [drive neighbors_loop];
    [reflexivity |].
  destruct (end_ it); [reflexivity |].
  destruct (next it) as [[nb' it'] | e |]; [apply IH | reflexivity..].
Qed.

Lemma fold_body_append (l : list NeighborBond) (seen : list NeighborBond) :
  fold_body (fun nb seen => Returns (seen ++ [nb])) l seen = Returns (seen ++ l).
Proof.
  revert seen. induction l as [| x l IH]; intros seen; cbn [fold_body obind].
  - now rewrite app_nil_r.
  - rewrite IH, <- app_assoc. reflexivity.
Qed.

(** The loop over an iterator that hands out the bonds of a list. *)
Lemma list_iterator_loop {St : Type} (body : NeighborBond -> St -> outcome St)
    (T : NeighborBond) (l : list NeighborBond) :
  forall (nb : NeighborBond) (st : St) (fuel : nat),
    (length l + 2 <= fuel)%nat ->
    neighbors_loop body fuel nb (mkListIterator T l false) st
    = Some (fold_body body (nb :: l) st).
Proof.
  induction l as [| b l IH]; intros nb st fuel Hfuel;
    (destruct fuel as [| fuel]; [cbn in Hfuel; lia |]);
    cbn [neighbors_loop end_ next ListIterator_ops li_finished li_pending
           li_terminator fold_body].
  - destruct (body nb st) as [st1 | e |]; cbn [obind]; try reflexivity.
    destruct fuel as [| fuel]; [cbn in Hfuel; lia |]. reflexivity.
  - destruct (body nb st) as [st1 | e |]; cbn [obind]; try reflexivity.
    rewrite IH by (cbn in Hfuel; lia). reflexivity.
Qed.

Lemma at_in (outside : forall A : Type, outcome A) {A : Type} (arr : list A)
    (i : nat) (d : A) :
  (i < length arr)%nat -> at_ outside arr i = Returns (nth i arr d).
Proof.
  intros Hi. unfold at_.
  destruct (lookup_lt_is_Some_2 arr i Hi) as [x Hx]. rewrite Hx.
  f_equal. symmetry. apply nth_lookup_Some with (d := d). exact Hx.
Qed.

Lemma id_bond_at (nl : NeighborList) (j : nat) :
  id (bond_at nl j) = nth j (ids nl) 0%nat.
Proof.
  unfold bond_at, get2, ids. cbn.
  symmetry. apply (map_nth fst (m_neighbors nl) (0, 0)%nat j).
Qed.

Section per_point.
Variable outside : forall A : Type, outcome A.
Variable T : NeighborBond.
Variable nl : NeighborList.
Hypothesis Hc : consistent nl.
Hypothesis Hsorted : nondecreasing (ids nl) = true.

Let N := getNumBonds nl.

Lemma per_point_next_in (i cur ret : nat) (fin : bool) :
  (cur < N)%nat ->
  per_point_next outside T (mkNeighborListPerPointIterator nl i cur ret fin)
  = Returns (bond_at nl cur,
             mkNeighborListPerPointIterator nl i (S cur) (id (bond_at nl cur)) fin).
Proof.
  intros Hcur. destruct Hc as [Hw Hd]. unfold per_point_next.
  cbn [m_nlist m_current_index m_query_point_idx m_returned_point_index pp_finished].
  fold N. destruct (Nat.eqb_spec cur N); [lia |].
  unfold at2. unfold N, getNumBonds in *.
  destruct (lookup_lt_is_Some_2 (m_neighbors nl) cur Hcur) as [row Hrow].
  rewrite Hrow.
  rewrite (at_in outside (m_distances nl) cur 0%Q) by lia.
  rewrite (at_in outside (m_weights nl) cur 0%Q) by lia.
  cbn [obind Nat.eqb]. unfold bond_at, get2. cbn [Nat.eqb id].
  rewrite (nth_lookup_Some _ _ (0, 0)%nat _ Hrow). reflexivity.
Qed.

(** The loop from a bond of query point [i] on: it runs through the
    rest of the run of [i] and stops at the first bond of another
    query point, or at the end of the list. *)
Lemma per_point_run {St : Type} (body : NeighborBond -> St -> outcome St)
    (i : nat) (m : nat) :
  forall (j : nat) (st : St) (fuel : nat),
    (below i (ids nl) < j)%nat ->
    (j + m = below i (ids nl) + count i (ids nl))%nat ->
    (m + 2 <= fuel)%nat ->
    neighbors_loop (H := NeighborListPerPointIterator_ops outside T) body fuel
      (bond_at nl (j - 1)) (mkNeighborListPerPointIterator nl i j i false) st
    = Some (fold_body body (map (bond_at nl) (seq (j - 1) (S m))) st).
Proof.
  pose proof (below_sorted_split (S i) (ids nl) Hsorted) as (Hle & _ & Hhi).
  rewrite below_S, length_ids in Hle, Hhi. fold N in Hle, Hhi.
  induction m as [| m IH]; intros j st fuel Hj Hm Hfuel;
    (destruct fuel as [| fuel]; [lia |]);
    cbn [neighbors_loop end_ next NeighborListPerPointIterator_ops per_point_end
           m_returned_point_index m_query_point_idx pp_finished seq map fold_body];
    unfold per_point_end;
    cbn [m_returned_point_index m_query_point_idx pp_finished];
    rewrite Nat.eqb_refl; cbn [negb orb];
    (destruct (body (bond_at nl (j - 1)) st) as [st1 | e |]; cbn [obind];
       [| reflexivity | reflexivity]).
  - destruct (Nat.eq_dec j N) as [HjN | HjN].
    + unfold per_point_next.
      cbn [m_nlist m_current_index m_query_point_idx m_returned_point_index
             pp_finished].
      fold N. rewrite HjN, Nat.eqb_refl.
      destruct fuel as [| fuel]; [lia |]. cbn [neighbors_loop end_
        NeighborListPerPointIterator_ops]. unfold per_point_end.
      cbn [pp_finished]. now rewrite orb_true_r.
    + rewrite per_point_next_in by lia.
      destruct fuel as [| fuel]; [lia |]. cbn [neighbors_loop end_
        NeighborListPerPointIterator_ops]. unfold per_point_end.
      cbn [pp_finished m_returned_point_index m_query_point_idx].
      rewrite id_bond_at.
      specialize (Hhi j ltac:(lia)).
      destruct (Nat.eqb_spec (nth j (ids nl) 0%nat) i); [lia |]. reflexivity.
  - assert (HjN : (j < N)%nat) by lia.
    rewrite per_point_next_in by lia. rewrite id_bond_at.
    assert (Hrun : nth j (ids nl) 0%nat = i).
    { apply (sorted_run i _ Hsorted); rewrite ?length_ids; fold N; lia. }
    rewrite Hrun.
    replace j with (S j - 1)%nat at 1 by lia.
    rewrite (IH (S j) st1 fuel) by lia.
    replace (S j - 1)%nat with j by lia.
    replace (S (j - 1)) with j by lia. reflexivity.
Qed.

Lemma filter_seq_none (P : nat -> bool) (s n : nat) :
  (forall j, (s <= j < s + n)%nat -> P j = false) -> List.filter P (seq s n) = [].
Proof.
  revert s. induction n as [| n IH]; intros s HP; [reflexivity |].
  cbn [seq List.filter]. rewrite (HP s) by lia. apply IH.
  intros j Hj. apply HP. lia.
Qed.

Lemma filter_seq_range (P : nat -> bool) (c : nat) :
  forall b s n, (s <= b)%nat -> (b + c <= s + n)%nat ->
    (forall j, (s <= j < s + n)%nat -> P j = true <-> (b <= j < b + c)%nat) ->
    List.filter P (seq s n) = seq b c.
Proof.
  induction c as [| c IHc]; intros b s n Hs Hn HP.
  - cbn [seq]. apply filter_seq_none. intros j Hj.
    apply not_true_iff_false. rewrite (HP j Hj). lia.
  - revert s Hs Hn HP. induction n as [| n IHn]; intros s Hs Hn HP; [lia |].
    cbn [seq List.filter].
    destruct (Nat.eq_dec s b) as [-> | Hne].
    + rewrite (proj2 (HP b ltac:(lia))) by lia. f_equal.
      apply (IHc (S b) (S b) n); [lia | lia |].
      intros j Hj. rewrite (HP j) by lia. lia.
    + destruct (P s) eqn:HPs; [apply (HP s ltac:(lia)) in HPs; lia |].
      apply IHn; [lia | lia |]. intros j Hj. apply HP. lia.
Qed.

(** The bonds of query point [i] in a sorted list are one run. *)
Lemma bonds_of_point (i : nat) :
  List.filter (fun b => (id b =? i)%nat) (bonds nl)
  = map (bond_at nl) (seq (below i (ids nl)) (count i (ids nl))).
Proof.
  unfold bonds.
  assert (Hmf : forall (l : list nat),
            List.filter (fun b => (id b =? i)%nat) (map (bond_at nl) l)
            = map (bond_at nl)
                (List.filter (fun j => (nth j (ids nl) 0 =? i)%nat) l)).
  { induction l as [| x l IH]; [reflexivity |]. cbn [map List.filter].
    rewrite id_bond_at. destruct (nth x (ids nl) 0 =? i)%nat; cbn [map];
      now rewrite IH. }
  rewrite Hmf. f_equal.
  pose proof (below_sorted_split (S i) (ids nl) Hsorted) as (Hle & _ & _).
  rewrite below_S, length_ids in Hle.
  apply filter_seq_range; [lia | cbn; lia |].
  intros j Hj. rewrite Nat.eqb_eq.
  apply (sorted_run i _ Hsorted). rewrite length_ids. fold N. cbn in Hj. lia.
Qed.

(** The constructor and the loop idiom over a sorted list, for any
    loop body: the body runs on the bonds of query point [i], in the
    order of the list. *)
Lemma per_point_loop {St : Type} (body : NeighborBond -> St -> outcome St)
    (i : nat) :
  (Z.of_nat N <= 2147483648)%Z -> (Z.of_nat i <= UINT_MAX)%Z -> startable outside nl i ->
  exists it0 nb it1,
    (forall fuel, (N <= fuel)%nat ->
       NeighborListPerPointIterator_new outside fuel nl i = Some (Returns it0))
    /\ per_point_next outside T it0 = Returns (nb, it1)
    /\ forall (st : St) (fuel : nat), (N + 2 <= fuel)%nat ->
         neighbors_loop (H := NeighborListPerPointIterator_ops outside T) body fuel
           nb it1 st
         = Some (fold_body body
                   (List.filter (fun b => (id b =? i)%nat) (bonds nl)) st).
Proof.
  intros Hsize Hi Hstart.
  assert (Hu : to_unsigned (Z.of_nat i) = i).
  { unfold to_unsigned. rewrite Z.mod_small by (unfold UINT_MAX in *; lia).
    apply Nat2Z.id. }
  pose proof (below_sorted_split i (ids nl) Hsorted) as (Hble & Hlo & Hhi).
  pose proof (below_sorted_split (S i) (ids nl) Hsorted) as (Hle' & Hlo' & Hhi').
  rewrite below_S in Hle', Hlo', Hhi'.
  rewrite length_ids in Hble, Hhi, Hle', Hhi'. fold N in Hble, Hhi, Hle', Hhi'.
  set (b := below i (ids nl)) in *. set (c := count i (ids nl)) in *.
  assert (Hnew : forall ret, forall fuel, (N <= fuel)%nat ->
            NeighborList_cc.at2 outside (m_neighbors nl) b 0 = Returns ret ->
            NeighborListPerPointIterator_new outside fuel nl i
            = Some (Returns (mkNeighborListPerPointIterator nl i b ret (b =? N)%nat))).
  { intros ret fuel Hfuel Hret. unfold NeighborListPerPointIterator_new.
    rewrite Hu, (find_first_index_run outside nl i Hsorted Hsize fuel Hfuel).
    fold b. rewrite Hret. reflexivity. }
  rewrite bonds_of_point. fold b c.
  destruct (Nat.eq_dec b N) as [HbN | HbN].
  - (* no bond at or after [i] *)
    destruct Hstart as [(j & Hj & Hij) | [g Hg]].
    { specialize (Hlo j ltac:(lia)). lia. }
    assert (Hret : NeighborList_cc.at2 outside (m_neighbors nl) b 0 = Returns g).
    { unfold at2. rewrite lookup_ge_None_2 by (unfold N, getNumBonds in *; lia).
      exact Hg. }
    eexists _, _, _. split; [intros fuel Hfuel; apply (Hnew g fuel Hfuel Hret) |].
    split.
    + unfold per_point_next.
      cbn [m_nlist m_current_index m_query_point_idx m_returned_point_index
             pp_finished]. fold N. rewrite HbN, Nat.eqb_refl. reflexivity.
    + intros st fuel Hfuel. destruct fuel as [| fuel]; [lia |].
      cbn [neighbors_loop end_ NeighborListPerPointIterator_ops].
      unfold per_point_end. cbn [pp_finished]. rewrite orb_true_r.
      replace c with 0%nat by lia. reflexivity.
  - assert (Hret : NeighborList_cc.at2 outside (m_neighbors nl) b 0
                   = Returns (nth b (ids nl) 0%nat))
      by (apply at2_ids; fold N; lia).
    eexists _, _, _. split; [intros fuel Hfuel; apply (Hnew _ fuel Hfuel Hret) |].
    split; [apply per_point_next_in; lia |].
    intros st fuel Hfuel. rewrite id_bond_at.
    rewrite (proj2 (Nat.eqb_neq b N) HbN).
    destruct (Nat.eq_dec c 0) as [Hc0 | Hc0].
    + (* the first bond at or after [i] belongs to a later query point *)
      destruct fuel as [| fuel]; [lia |].
      cbn [neighbors_loop end_ NeighborListPerPointIterator_ops].
      unfold per_point_end.
      cbn [pp_finished m_returned_point_index m_query_point_idx].
      specialize (Hhi' b ltac:(lia)).
      destruct (Nat.eqb_spec (nth b (ids nl) 0%nat) i); [lia |].
      rewrite Hc0. reflexivity.
    + assert (Hrun : nth b (ids nl) 0%nat = i).
      { apply (sorted_run i _ Hsorted); rewrite ?length_ids; fold N b c; lia. }
      rewrite Hrun.
      pose proof (per_point_run body i (c - 1) (S b) st fuel ltac:(fold b; lia)
                    ltac:(fold b c; lia) ltac:(lia)) as Hloop.
      replace (S b - 1)%nat with b in Hloop by lia.
      replace (S (c - 1)) with c in Hloop by lia.
      exact Hloop.
Qed.

End per_point.

(** The per-pair loop over the iterator of query point [i]. *)
Lemma per_point_drive
    (outside : forall A : Type, outcome A) (T : NeighborBond) (nl : NeighborList)
    (i : nat)
    (Hc : consistent nl)
    (Hsorted : nondecreasing (ids nl) = true)
    (Hsize : (Z.of_nat (getNumBonds nl) <= 2147483648)%Z)
    (Hi : (Z.of_nat i <= UINT_MAX)%Z)
    (Hstart : startable outside nl i) :
  exists it0 nb it1,
    (forall fuel, (getNumBonds nl <= fuel)%nat ->
       NeighborListPerPointIterator_new outside fuel nl i = Some (Returns it0))
    /\ per_point_next outside T it0 = Returns (nb, it1)
    /\ forall (seen : list NeighborBond) (fuel : nat),
         (getNumBonds nl + 2 <= fuel)%nat ->
         drive (H := NeighborListPerPointIterator_ops outside T) fuel nb it1 seen
         = Some (Returns (seen ++ List.filter (fun b => (id b =? i)%nat) (bonds nl))).
Proof.
  destruct (per_point_loop outside T nl Hc Hsorted
              (fun nb seen => Returns (seen ++ [nb])) i Hsize Hi Hstart)
    as (it0 & nb & it1 & Hnew & Hnext & Hloop).
  exists it0, nb, it1. split; [exact Hnew |]. split; [exact Hnext |].
  intros seen fuel Hfuel.
  rewrite (drive_as_loop (H := NeighborListPerPointIterator_ops outside T)).
  rewrite (Hloop seen fuel Hfuel), fold_body_append. reflexivity.
Qed.

(** X15. Iterating over a bond list per query point.  On a list that
    is sorted by query index (arrays of one length, at most 2^31
    bonds), for a query point [i] that some bond reaches (a bond with
    a query index of at least [i] exists) or when a read outside the
    array returns a value: the constructor succeeds, and the loop
    [nb = next(); while (!end()) { cf(nb); nb = next(); }] hands to
    [cf] exactly the bonds of query point [i], in the order of the
    list, and then stops. *)
Theorem per_point_iterator_visits_bonds_of_point
    (outside : forall A : Type, outcome A) (T : NeighborBond) (nl : NeighborList)
    (i : nat)
    (Hc : consistent nl)
    (Hsorted : nondecreasing (ids nl) = true)
    (Hsize : (Z.of_nat (getNumBonds nl) <= 2147483648)%Z)
    (Hi : (Z.of_nat i <= UINT_MAX)%Z)
    (Hstart : startable outside nl i) :
  exists it0 nb it1,
    (forall fuel, (getNumBonds nl <= fuel)%nat ->
       NeighborListPerPointIterator_new outside fuel nl i = Some (Returns it0))
    /\ per_point_next outside T it0 = Returns (nb, it1)
    /\ forall (seen : list NeighborBond) (fuel : nat),
         (getNumBonds nl + 2 <= fuel)%nat ->
         drive (H := NeighborListPerPointIterator_ops outside T) fuel nb it1 seen
         = Some (Returns (seen ++ List.filter (fun b => (id b =? i)%nat) (bonds nl))).
Proof. exact (per_point_drive outside T nl i Hc Hsorted Hsize Hi Hstart). Qed.

Lemma per_point_iterator_visits_bonds_of_point_witness :
  let nl := mkNeighborList 4 4 [(0, 1); (0, 2); (2, 0); (2, 3); (3, 0)]%nat
              [1; 1; 1; 1; 1]%Q [1; 2; 3; 4; 5]%Q [0; 0; 0; 0]%nat [0; 0; 0; 0]%nat in
  let T := mkNeighborBond 9 9 0 0 in
  exists it0 nb it1,
    NeighborListPerPointIterator_new (fun _ => Undefined) 5 nl 2 = Some (Returns it0)
    /\ per_point_next (fun _ => Undefined) T it0 = Returns (nb, it1)
    /\ drive (H := NeighborListPerPointIterator_ops (fun _ => Undefined) T) 7 nb it1 []
       = Some (Returns [mkNeighborBond 2 0 3 1; mkNeighborBond 2 3 4 1]).
Proof.
  intros nl T.
  destruct (per_point_iterator_visits_bonds_of_point (fun _ => Undefined) T nl 2)
    as (it0 & nb & it1 & Hnew & Hnext & Hdrive).
  - split; reflexivity.
  - reflexivity.
  - cbn. lia.
  - unfold UINT_MAX. lia.
  - left. exists 2%nat. cbn. lia.
  - exists it0, nb, it1. split; [apply Hnew; cbn; lia |]. split; [exact Hnext |].
    apply (Hdrive [] 7%nat). cbn. lia.
Defined.

(** The constructor for a query point that no bond reaches. *)
Lemma per_point_new_past_end
    (outside : forall A : Type, outcome A) (nl : NeighborList) (i : nat)
    (Hsorted : nondecreasing (ids nl) = true)
    (Hsize : (Z.of_nat (getNumBonds nl) <= 2147483648)%Z)
    (Hi : (Z.of_nat i <= UINT_MAX)%Z)
    (Hpast : forall j, (j < getNumBonds nl)%nat -> (nth j (ids nl) 0 < i)%nat) :
  forall fuel, (getNumBonds nl <= fuel)%nat ->
    m_neighbors nl !! getNumBonds nl = None
    /\ NeighborListPerPointIterator_new outside fuel nl i
       = Some (g <-- outside nat ;;
               Returns (mkNeighborListPerPointIterator nl i (getNumBonds nl) g true)).
Proof.
  intros fuel Hfuel.
  assert (Hnone : m_neighbors nl !! getNumBonds nl = None)
    by (apply lookup_ge_None_2; unfold getNumBonds; lia).
  split; [exact Hnone |].
  assert (Hu : to_unsigned (Z.of_nat i) = i).
  { unfold to_unsigned. rewrite Z.mod_small by (unfold UINT_MAX in *; lia).
    apply Nat2Z.id. }
  unfold NeighborListPerPointIterator_new.
  rewrite Hu, (find_first_index_run outside nl i Hsorted Hsize fuel Hfuel).
  assert (Hb : below i (ids nl) = getNumBonds nl).
  { rewrite <- length_ids. apply below_all. intros y Hy.
    apply (In_nth _ _ 0%nat) in Hy. destruct Hy as (j & Hj & <-).
    apply Hpast. rewrite <- length_ids. exact Hj. }
  rewrite Hb. unfold at2. rewrite Hnone, Nat.eqb_refl. reflexivity.
Qed.

(** X16. A query point that no bond reaches: on a sorted list in which
    every bond has a query index below [i] (an empty list, or a query
    point after the last one that has bonds), the constructor finds
    the number of bonds as its start and then reads [m_neighbors] at
    that row, one row past the end of the array; what the constructor
    gives is what that read gives. *)
Theorem per_point_constructor_reads_past_end
    (outside : forall A : Type, outcome A) (nl : NeighborList) (i : nat)
    (Hsorted : nondecreasing (ids nl) = true)
    (Hsize : (Z.of_nat (getNumBonds nl) <= 2147483648)%Z)
    (Hi : (Z.of_nat i <= UINT_MAX)%Z)
    (Hpast : forall j, (j < getNumBonds nl)%nat -> (nth j (ids nl) 0 < i)%nat) :
  forall fuel, (getNumBonds nl <= fuel)%nat ->
    m_neighbors nl !! getNumBonds nl = None
    /\ NeighborListPerPointIterator_new outside fuel nl i
       = Some (g <-- outside nat ;;
               Returns (mkNeighborListPerPointIterator nl i (getNumBonds nl) g true)).
Proof. exact (per_point_new_past_end outside nl i Hsorted Hsize Hi Hpast). Qed.

Lemma per_point_constructor_reads_past_end_witness :
  NeighborListPerPointIterator_new (fun _ => Undefined) 0 NeighborList_default 0
    = Some Undefined
  /\ NeighborListPerPointIterator_new
       (fun _ => Throws (runtime_error "out of bounds")) 0 NeighborList_default 0
     = Some (Throws (runtime_error "out of bounds")).
Proof.
  destruct (per_point_constructor_reads_past_end (fun _ => Undefined)
              NeighborList_default 0 eq_refl ltac:(cbn; lia)
              ltac:(unfold UINT_MAX; lia) ltac:(intros j Hj; cbn in Hj; lia)
              0%nat ltac:(cbn; lia)) as [_ H1].
  destruct (per_point_constructor_reads_past_end
              (fun _ => Throws (runtime_error "out of bounds"))
              NeighborList_default 0 eq_refl ltac:(cbn; lia)
              ltac:(unfold UINT_MAX; lia) ltac:(intros j Hj; cbn in Hj; lia)
              0%nat ltac:(cbn; lia)) as [_ H2].
  split; [exact H1 | exact H2].
Defined.

Lemma filter_nil_intro {A : Type} (P : A -> bool) (l : list A) :
  (forall x, In x l -> P x = false) -> List.filter P l = [].
Proof.
  induction l as [| x l IH]; intros HP; [reflexivity |]. cbn [List.filter].
  rewrite (HP x) by (left; reflexivity). apply IH.
  intros y Hy. apply HP. right. exact Hy.
Qed.

Lemma filter_all_intro {A : Type} (P : A -> bool) (l : list A) :
  (forall x, In x l -> P x = true) -> List.filter P l = l.
Proof.
  induction l as [| x l IH]; intros HP; [reflexivity |]. cbn [List.filter].
  rewrite (HP x) by (left; reflexivity). f_equal. apply IH.
  intros y Hy. apply HP. right. exact Hy.
Qed.

Lemma filter_below_S (n : nat) (l : list NeighborBond) :
  nondecreasing (map id l) = true ->
  List.filter (fun b => (id b <? n)%nat) l
  ++ List.filter (fun b => (id b =? n)%nat) l
  = List.filter (fun b => (id b <? S n)%nat) l.
Proof.
  induction l as [| x l IH]; intros Hs; [reflexivity |].
  cbn [map] in Hs. destruct (nondecreasing_tail _ _ Hs) as [Hl Hx].
  cbn [List.filter].
  destruct (Nat.lt_trichotomy (id x) n) as [Hlt | [Heq | Hgt]].
  - destruct (Nat.ltb_spec (id x) n); [| lia].
    destruct (Nat.eqb_spec (id x) n); [lia |].
    destruct (Nat.ltb_spec (id x) (S n)); [| lia].
    cbn [app]. f_equal. apply IH. exact Hl.
  - destruct (Nat.ltb_spec (id x) n); [lia |].
    destruct (Nat.eqb_spec (id x) n); [| lia].
    destruct (Nat.ltb_spec (id x) (S n)); [| lia].
    assert (Hnone : List.filter (fun b => (id b <? n)%nat) l = []).
    { apply filter_nil_intro. intros y Hy.
      specialize (Hx (id y) (in_map id _ _ Hy)).
      apply Nat.ltb_ge. lia. }
    rewrite Hnone. cbn [app]. f_equal. rewrite <- (IH Hl), Hnone. reflexivity.
  - destruct (Nat.ltb_spec (id x) n); [lia |].
    destruct (Nat.eqb_spec (id x) n); [lia |].
    destruct (Nat.ltb_spec (id x) (S n)); [lia |].
    apply IH. exact Hl.
Qed.

Lemma flat_map_by_point (n : nat) (l : list NeighborBond) :
  nondecreasing (map id l) = true ->
  flat_map (fun i => List.filter (fun b => (id b =? i)%nat) l) (seq 0 n)
  = List.filter (fun b => (id b <? n)%nat) l.
Proof.
  intros Hs. induction n as [| n IH].
  - cbn. symmetry. apply filter_nil_intro.
    intros y _. reflexivity.
  - rewrite seq_S, flat_map_app, IH. cbn [flat_map Nat.add].
    rewrite app_nil_r. apply filter_below_S. exact Hs.
Qed.

(** The per-point loop with the compute function [per_pair], over
    query points in any order: the bonds of each point, point after
    point. *)
Lemma run_points_per_pair (outside : forall A : Type, outcome A) (T : NeighborBond)
    (nl : NeighborList) (fuel : nat) :
  consistent nl -> nondecreasing (ids nl) = true ->
  (Z.of_nat (getNumBonds nl) <= 2147483648)%Z ->
  (getNumBonds nl + 2 <= fuel)%nat ->
  forall idxs seen,
    (forall j, In j idxs -> (Z.of_nat j <= UINT_MAX)%Z /\ startable outside nl j) ->
    run_indices
      (Schedule_facts.point_step (NeighborListPerPointIterator_new outside fuel nl)
         (per_pair fuel NeighborListPerPointIterator
            (NeighborListPerPointIterator_ops outside T)))
      idxs seen
    = Some (Returns (seen
                     ++ flat_map (fun j =>
                          List.filter (fun b => (id b =? j)%nat) (bonds nl))
                          idxs)).
Proof.
  intros Hc Hsorted Hsize Hfuel.
  induction idxs as [| i idxs IH]; intros seen Hidx; cbn [run_indices flat_map].
  - now rewrite app_nil_r.
  - destruct (Hidx i ltac:(left; reflexivity)) as [Hi Hstart].
    destruct (per_point_drive outside T nl i Hc Hsorted Hsize Hi Hstart)
      as (it0 & nb & it1 & Hnew & Hnext & Hdrive).
    unfold Schedule_facts.point_step at 1.
    rewrite (Hnew fuel ltac:(lia)). unfold per_pair at 1.
    cbn [next NeighborListPerPointIterator_ops]. rewrite Hnext.
    rewrite (Hdrive seen fuel Hfuel).
    rewrite IH by (intros j Hj; apply Hidx; right; exact Hj).
    now rewrite <- app_assoc.
Qed.

(** X17. Per-point and per-bond traversal agree.  On a bond list that
    is sorted by query index, with every query index below
    [n_query_points] and every query point able to start its
    iterator, [loopOverNeighborsIterator] with a compute function that
    hands each bond of its query point to a per-pair function, and
    [loopOverNeighbors], both return and visit every bond of the list
    exactly once.  Run with [parallel = false] both visit the bonds in
    the order of the list; run in parallel the order follows the
    schedule of the blocks. *)
Theorem per_point_traversal_visits_every_bond {S : Type} `{NeighborIterator S}
    (outside : forall A : Type, outcome A) (T : NeighborBond) (tbb : schedule)
    (parallel : bool) (query_idx : nat -> outcome S) (n_query_points : nat)
    (nl : NeighborList) (fuel : nat)
    (Hc : consistent nl)
    (Hsorted : nondecreasing (ids nl) = true)
    (Hsize : (Z.of_nat (getNumBonds nl) <= 2147483648)%Z)
    (Hfuel : (getNumBonds nl + 2 <= fuel)%nat)
    (Hn : (Z.of_nat n_query_points <= UINT_MAX + 1)%Z)
    (Hids : forall b, In b (bonds nl) -> (id b < n_query_points)%nat)
    (Hstart : forall i, (i < n_query_points)%nat -> startable outside nl i) :
  exists per_point per_bond,
    loopOverNeighborsIterator outside T tbb query_idx n_query_points (Some nl)
      (per_pair fuel) parallel fuel []
    = Some (Returns per_point)
    /\ loopOverNeighbors tbb query_idx n_query_points (Some nl) parallel fuel
       = Some (Returns per_bond)
    /\ Permutation per_point (bonds nl)
    /\ Permutation per_bond (bonds nl)
    /\ (parallel = false -> per_point = bonds nl /\ per_bond = bonds nl).
Proof.
  set (order := if parallel then scheduled tbb 0 n_query_points
                else seq 0 n_query_points).
  assert (Horder : Permutation order (seq 0 n_query_points))
    by apply Schedule_facts.run_order_perm.
  assert (Hall : flat_map (fun j => List.filter (fun b => (id b =? j)%nat) (bonds nl))
                   (seq 0 n_query_points) = bonds nl).
  { rewrite flat_map_by_point by (rewrite NeighborQuery_more_facts.ids_bonds;
                                   exact Hsorted).
    apply filter_all_intro. intros b Hb. apply Nat.ltb_lt. apply Hids. exact Hb. }
  exists (flat_map (fun j => List.filter (fun b => (id b =? j)%nat) (bonds nl)) order),
    (map (bond_at nl) (if parallel then scheduled tbb 0 (getNumBonds nl)
                       else seq 0 (getNumBonds nl))).
  split; [| split; [| split; [| split]]].
  - unfold loopOverNeighborsIterator.
    rewrite (Schedule_facts.forLoopWrapper_indices tbb _
               (Schedule_facts.point_step
                  (NeighborListPerPointIterator_new outside fuel nl)
                  (per_pair fuel NeighborListPerPointIterator
                     (NeighborListPerPointIterator_ops outside T))))
      by (intros b e st; apply Schedule_facts.loop_points_indices).
    fold order.
    rewrite (run_points_per_pair outside T nl fuel Hc Hsorted Hsize Hfuel order []).
    + reflexivity.
    + intros j Hj. apply (Permutation_in _ Horder) in Hj. apply in_seq in Hj.
      split; [unfold UINT_MAX in *; lia | apply Hstart; lia].
  - apply Schedule_facts.loopOverNeighbors_list.
  - rewrite (Permutation_flat_map _ Horder). now rewrite Hall.
  - rewrite (Permutation_map _ (Schedule_facts.run_order_perm tbb _ parallel)).
    reflexivity.
  - intros ->. subst order. cbn iota. split; [exact Hall | reflexivity].
Qed.

Lemma per_point_traversal_visits_every_bond_witness :
  let nl := mkNeighborList 4 4 [(0, 1); (0, 2); (2, 0); (2, 3); (3, 0)]%nat
              [1; 1; 1; 1; 1]%Q [1; 2; 3; 4; 5]%Q [0; 0; 0; 0]%nat [0; 0; 0; 0]%nat in
  let tbb := mkSchedule [1; 0]%nat [0; 1; 0]%nat in
  (loopOverNeighborsIterator (fun _ => Undefined) (mkNeighborBond 9 9 0 0) tbb
     (Scenes.base_query_idx 0) 4 (Some nl) (per_pair 7) false 7 []
   = Some (Returns (bonds nl)))
  /\ exists per_point,
       loopOverNeighborsIterator (fun _ => Undefined) (mkNeighborBond 9 9 0 0) tbb
         (Scenes.base_query_idx 0) 4 (Some nl) (per_pair 7) true 7 []
       = Some (Returns per_point)
       /\ Permutation per_point (bonds nl)
       /\ map id per_point = [0; 0; 3; 2; 2]%nat.
Proof.
  intros nl tbb.
  assert (Hids : forall b, In b (bonds nl) -> (id b < 4)%nat).
  { intros b Hb. cbn in Hb.
    repeat (destruct Hb as [<- | Hb]; [cbn; lia |]). contradiction. }
  assert (Hstart : forall i, (i < 4)%nat -> startable (fun _ => Undefined) nl i).
  { intros i Hi. left. exists 4%nat. cbn. lia. }
  split.
  - destruct (per_point_traversal_visits_every_bond (fun _ => Undefined)
                (mkNeighborBond 9 9 0 0) tbb false (Scenes.base_query_idx 0) 4 nl 7
                ltac:(split; reflexivity) eq_refl ltac:(cbn; lia) ltac:(cbn; lia)
                ltac:(unfold UINT_MAX; lia) Hids Hstart)
      as (v1 & v2 & H1 & _ & _ & _ & Hseq).
    rewrite H1. destruct (Hseq eq_refl) as [-> _]. reflexivity.
  - destruct (per_point_traversal_visits_every_bond (fun _ => Undefined)
                (mkNeighborBond 9 9 0 0) tbb true (Scenes.base_query_idx 0) 4 nl 7
                ltac:(split; reflexivity) eq_refl ltac:(cbn; lia) ltac:(cbn; lia)
                ltac:(unfold UINT_MAX; lia) Hids Hstart)
      as (v1 & v2 & H1 & _ & Hp & _).
    exists v1. split; [exact H1 |]. split; [exact Hp |].
    vm_compute in H1. inversion H1. reflexivity.
Defined.

End PerPoint_facts.

(** * Properties of AABBQuery.cc: termination protocol, order, flat boxes *)

Module AABBQuery_more_facts.
Import AABBQuery_cc BallSpec Scenes Numeric_facts.

(** ** After the terminator *)

Lemma image_loop_exhausted (F : FloatOps) (sqrt : float -> float) (data : AABBQuery)
    (it : AABBQueryBallIterator) (r_cutsq : float) (pos_i : vec3) (fuel : nat) :
  forall image node p image' node' p',
    (b_n_images it - image <= fuel)%nat ->
    image_loop F sqrt data fuel it r_cutsq pos_i image node p
      = inr (image', node', p') ->
    (b_n_images it <= image')%nat.
Proof.
  induction fuel as [| fuel IH]; intros image node p image' node' p' Hfuel Hrun;
    cbn [image_loop] in Hrun.
  - inversion Hrun; subst. lia.
  - destruct (Nat.ltb_spec image (b_n_images it)) as [Hlt | Hge].
    + destruct (node_loop _ _ _ _ _ _ _ _) as [[np [n1 p1]] | [n1 p1]];
        [discriminate |].
      eapply IH; [| exact Hrun]. lia.
    + inversion Hrun; subst. lia.
Qed.

Lemma ball_next_exhausted (F : FloatOps) (sqrt : float -> float) (T : NeighborPoint)
    (data : AABBQuery) (it : AABBQueryBallIterator) :
  (b_n_images it <= cur_image it)%nat -> b_finished it = true ->
  ball_next F sqrt T data it = (T, it).
Proof.
  intros Himage Hfin. unfold ball_next.
  replace (b_n_images it - cur_image it)%nat with 0%nat by lia.
  cbn [image_loop]. destruct it; cbn in *. now subst.
Qed.

Lemma ball_next_sets_finished (F : FloatOps) (sqrt : float -> float) (T : NeighborPoint)
    (data : AABBQuery) (it : AABBQueryBallIterator) :
  b_finished it = false ->
  b_finished (ball_next F sqrt T data it).2 = true ->
  (ball_next F sqrt T data it).1 = T
  /\ (b_n_images (ball_next F sqrt T data it).2
      <= cur_image (ball_next F sqrt T data it).2)%nat.
Proof.
  intros Hlive. unfold ball_next.
  set (pos_i := if is2D (m_box data) then set_z (b_point it) 0 else b_point it).
  destruct (image_loop F sqrt data (b_n_images it - cur_image it) it
              (fmul F (b_r it) (b_r it)) pos_i
              (cur_image it) (cur_node_idx it) (cur_p it))
    as [[np [[image node] p]] | [[image node] p]] eqn:Hloop;
    cbn [fst snd b_finished b_n_images cur_image]; intros Hend.
  - congruence.
  - split; [reflexivity |].
    apply (image_loop_exhausted F sqrt data it _ pos_i _ _ _ _ _ _ _
             (Nat.le_refl _) Hloop).
Qed.

(** X18. The terminator is final.  When a call of [next] on a ball
    iterator that was not finished sets [m_finished], that call has
    returned the terminator, and every later call returns the
    terminator again and leaves the iterator as it is. *)
Theorem ball_next_terminator_is_final (F : FloatOps) (sqrt : float -> float) (T : NeighborPoint)
    (data : AABBQuery) (it : AABBQueryBallIterator)
    (Hlive : b_finished it = false)
    (Hend : b_finished (ball_next F sqrt T data it).2 = true) :
  (ball_next F sqrt T data it).1 = T
  /\ forall n,
       let later := Nat.iter n (fun s => (ball_next F sqrt T data s).2)
                      (ball_next F sqrt T data it).2 in
       later = (ball_next F sqrt T data it).2
       /\ ball_next F sqrt T data later = (T, later).
Proof.
  destruct (ball_next_sets_finished F sqrt T data it Hlive Hend) as [HT Himage].
  split; [exact HT |].
  set (it' := (ball_next F sqrt T data it).2) in *.
  pose proof (ball_next_exhausted F sqrt T data it' Himage Hend) as Hfix.
  intros n. cbn zeta. induction n as [| n IH].
  - split; [reflexivity | exact Hfix].
  - destruct IH as [IH1 IH2]. rewrite Nat.iter_succ, IH1, Hfix. cbn [snd].
    split; [reflexivity | exact Hfix].
Qed.

Lemma ball_next_terminator_is_final_witness :
  let data := mkAABBQuery (open_cube 10) [] 0 [] in
  let it := mkBallIterator s1_query 3 1 [vzero] 0 0 0 false in
  (ball_next binary32 isqrt scene_terminator data it).1 = scene_terminator
  /\ ball_next binary32 isqrt scene_terminator data (ball_next binary32 isqrt scene_terminator data it).2
     = (scene_terminator, (ball_next binary32 isqrt scene_terminator data it).2).
Proof.
  intros data it.
  destruct (ball_next_terminator_is_final binary32 isqrt scene_terminator data it eq_refl eq_refl)
    as [H1 H2].
  split; [exact H1 |]. exact (proj2 (H2 0%nat)).
Defined.

(** ** The order of the k-nearest neighbors *)

(** [a] is not after [b] in the order of [NeighborPoint]. *)
Definition np_not_after (a b : NeighborPoint) : Prop :=
  NeighborPoint_less b a = false.

Lemma np_not_after_spec (a b : NeighborPoint) :
  np_not_after a b <->
  (point_distance a < point_distance b)%Q
  \/ ((point_distance a == point_distance b)%Q /\ (point_id a <= point_id b)%nat).
Proof.
  unfold np_not_after, NeighborPoint_less.
  rewrite <- not_true_iff_false, orb_true_iff, andb_true_iff, Qltb_lt,
    Qeq_bool_iff, Nat.ltb_lt.
  destruct (Q_dec (point_distance a) (point_distance b)) as [[Hd | Hd] | Hd];
    destruct (Nat.le_gt_cases (point_id a) (point_id b)) as [Hr | Hr];
    split; intros Hx;
    try (left; lra);
    try (right; split; [lra | lia]);
    try (intros [Hy | [Hy Hz]]; try lra; try lia;
         destruct Hx as [Hx | [Hx Hv]]; try lra; try lia);
    try (exfalso; apply Hx; first [left; lra | right; split; [lra | lia]]).
Qed.

Lemma np_not_after_of_less (a b : NeighborPoint) :
  NeighborPoint_less a b = true -> np_not_after a b.
Proof.
  rewrite np_not_after_spec. unfold NeighborPoint_less.
  rewrite orb_true_iff, andb_true_iff, Qltb_lt, Qeq_bool_iff, Nat.ltb_lt.
  intros [H | [H1 H2]]; [left; exact H | right; split; [exact H1 | lia]].
Qed.

Lemma np_not_after_trans (a b c : NeighborPoint) :
  np_not_after a b -> np_not_after b c -> np_not_after a c.
Proof.
  rewrite !np_not_after_spec.
  intros [H1 | [H1 Hr1]] [H2 | [H2 Hr2]];
    first [left; lra | right; split; [lra | lia]].
Qed.

Lemma np_insert_sorted (x : NeighborPoint) (l : list NeighborPoint) :
  StronglySorted np_not_after l ->
  StronglySorted np_not_after (insert_by NeighborPoint_less x l).
Proof.
  induction l as [| y l IH]; intros Hs; cbn [insert_by].
  - constructor; constructor.
  - apply StronglySorted_inv in Hs. destruct Hs as [Hl Hy].
    destruct (NeighborPoint_less y x) eqn:Hyx.
    + constructor; [apply IH; exact Hl |].
      apply (Permutation_Forall (Permutation_sym (insert_by_perm _ x l))).
      constructor; [apply np_not_after_of_less; exact Hyx | exact Hy].
    + constructor; [constructor; assumption |].
      constructor; [exact Hyx |].
      eapply Forall_impl; [exact Hy |].
      intros z Hz. apply (np_not_after_trans x y z); [exact Hyx | exact Hz].
Qed.

Lemma np_sort_sorted (l : list NeighborPoint) :
  StronglySorted np_not_after (sort_by NeighborPoint_less l).
Proof.
  induction l as [| x l IH]; cbn [sort_by]; [constructor |].
  apply np_insert_sorted. exact IH.
Qed.

Section nearest_first.
Variable F : FloatOps.
Variable sqrt : float -> float.
Variable T : NeighborPoint.
Variable data : AABBQuery.

(** Popping from a filled buffer returns a neighbor that none of the
    neighbors kept precedes. *)
Lemma knn_next_min (fuel steps : nat) (it : AABBQueryIterator) :
  q_finished it = false -> m_current_neighbors it <> [] ->
  exists np rest,
    knn_next F sqrt T data fuel steps it
      = Some (Returns np,
              mkQueryIterator (q_point it) (m_k it) (m_r it) (m_scale it) rest
                (length rest =? 0)%nat)
    /\ Permutation (np :: rest) (m_current_neighbors it)
    /\ Forall (np_not_after np) rest.
Proof.
  intros Hfin Hne. unfold knn_next. rewrite Hfin.
  destruct (m_current_neighbors it) as [| x buf] eqn:Hbuf; [congruence |].
  cbn [length Nat.eqb negb].
  rewrite Hbuf. cbn [length Nat.eqb negb].
  pose proof (np_sort_sorted (x :: buf)) as Hsorted.
  pose proof (sort_by_perm NeighborPoint_less (x :: buf)) as Hperm.
  destruct (sort_by NeighborPoint_less (x :: buf)) as [| h t] eqn:Hs.
  { apply Permutation_nil in Hperm. discriminate. }
  cbn [rev]. rewrite last_last, removelast_last.
  exists h, (rev t). split; [| split].
  - unfold set_current_neighbors, set_finished.
    cbn [m_current_neighbors q_point m_k m_r m_scale q_finished].
    destruct (length (rev t) =? 0)%nat;
      cbn [m_current_neighbors q_point m_k m_r m_scale q_finished];
      rewrite ?Hfin; reflexivity.
  - rewrite <- Hperm. constructor. symmetry. apply Permutation_rev.
  - apply StronglySorted_inv in Hsorted. destruct Hsorted as [_ Hh].
    apply (Permutation_Forall (Permutation_rev t)). exact Hh.
Qed.

(** Draining a filled buffer returns its neighbors nearest first. *)
Lemma knn_collect_sorted (fuel steps : nat) (n : nat) :
  forall (it : AABBQueryIterator) (v : list NeighborPoint) (calls : nat),
    q_finished it = false -> m_current_neighbors it <> [] ->
    length (m_current_neighbors it) = n -> (n + 1 <= calls)%nat ->
    exists bonds it',
      knn_collect F sqrt T data calls fuel steps it v = Some (Returns (v ++ bonds), it')
      /\ Permutation bonds (m_current_neighbors it)
      /\ StronglySorted np_not_after bonds
      /\ q_finished it' = true.
Proof.
  induction n as [| n IH]; intros it v calls Hfin Hne Hlen Hcalls.
  - destruct (m_current_neighbors it); [congruence | discriminate].
  - destruct calls as [| calls]; [lia |]. cbn [knn_collect]. rewrite Hfin.
    destruct (knn_next_min fuel steps it Hfin Hne) as (np & rest & Hnext & Hperm & Hmin).
    rewrite Hnext.
    assert (Hrest : length rest = n).
    { apply Permutation_length in Hperm. cbn in Hperm. lia. }
    destruct rest as [| y rest].
    + destruct calls as [| calls]; [lia |]. cbn.
      eexists [np], _. repeat split; [exact Hperm |].
      constructor; constructor.
    + set (it1 := mkQueryIterator _ _ _ _ _ _).
      destruct (IH it1 (v ++ [np]) calls eq_refl ltac:(discriminate) Hrest
                  ltac:(lia)) as (bonds & it' & Hc & Hp & Hs & Hf).
      exists (np :: bonds), it'. repeat split.
      * rewrite Hc, <- app_assoc. reflexivity.
      * rewrite <- Hperm. constructor. exact Hp.
      * constructor; [exact Hs |].
        apply (Permutation_Forall (Permutation_sym Hp)). exact Hmin.
      * exact Hf.
Qed.

End nearest_first.

(** X19. Nearest first.  A fresh k-nearest iterator whose radius loop
    ends with a non-empty buffer returns the neighbors in the buffer
    in ascending order: no neighbor is returned after one that is
    farther away, and among neighbors at the same distance none is
    returned after one with a larger point index. *)
Theorem knn_yields_nearest_first (F : FloatOps) (sqrt : float -> float) (T : NeighborPoint)
    (data : AABBQuery) (fuel steps : nat) (it0 it1 : AABBQueryIterator)
    (Hfresh : q_finished it0 = false)
    (Hempty : m_current_neighbors it0 = [])
    (Hloop : expand F sqrt T data fuel steps (min_plane_distance data) it0
             = Some (Returns tt, it1))
    (Hhits : m_current_neighbors it1 <> []) :
  exists bonds it',
    knn_collect F sqrt T data (S (length (m_current_neighbors it1))) fuel steps it0 []
      = Some (Returns bonds, it')
    /\ Permutation bonds (m_current_neighbors it1)
    /\ StronglySorted np_not_after bonds
    /\ (forall a b, (a < b < length bonds)%nat ->
          (point_distance (nth a bonds T) <= point_distance (nth b bonds T))%Q)
    /\ q_finished it' = true.
Proof.
  destruct (AABBQuery_facts.expand_keeps F sqrt T data steps _ fuel it0 it1 Hloop)
    as (Hfin1 & _).
  rewrite Hfresh in Hfin1.
  destruct (knn_collect_sorted F sqrt T data fuel steps
              (length (m_current_neighbors it1)) it1 []
              (S (length (m_current_neighbors it1))) Hfin1 Hhits eq_refl
              ltac:(lia)) as (bonds & it' & Hc & Hp & Hs & Hf).
  exists bonds, it'.
  rewrite (AABBQuery_facts.knn_collect_fill F sqrt T data _ fuel steps it0 it1 []
             Hfresh Hempty Hloop Hhits).
  repeat split; try assumption.
  intros a b Hab.
  pose proof (NeighborQuery_more_facts.StronglySorted_nth_lt _ _ T Hs a b Hab) as Hle.
  apply np_not_after_spec in Hle. destruct Hle as [Hlt | [Heq _]]; lra.
Qed.

Lemma knn_yields_nearest_first_witness :
  let data := mkAABBQuery (open_cube 100) s1_points 3 s1_tree in
  let it0 := mkQueryIterator s1_query 3 10 2 [] false in
  exists bonds it',
    knn_collect binary32 isqrt scene_terminator data 4 8 5 it0 [] = Some (Returns bonds, it')
    /\ map point_distance bonds = [2; 3; 6]%Q.
Proof.
  intros data it0.
  assert (Hloop : exists it1,
            expand binary32 isqrt scene_terminator data 8 5
              (min_plane_distance data) it0 = Some (Returns tt, it1)
            /\ length (m_current_neighbors it1) = 3%nat).
  { eexists. split; [vm_compute; reflexivity | reflexivity]. }
  destruct Hloop as (it1 & Hloop & Hlen).
  destruct (knn_yields_nearest_first binary32 isqrt scene_terminator data 8 5 it0 it1
              eq_refl eq_refl Hloop) as (bonds & it' & Hrun & _).
  - intros Hnil. rewrite Hnil in Hlen. discriminate.
  - rewrite Hlen in Hrun. exists bonds, it'. split; [exact Hrun |].
    vm_compute in Hrun. inversion Hrun. reflexivity.
Defined.

(** ** Two-dimensional boxes *)

(** The iterator of the same query from another query point. *)
Definition with_point (it : AABBQueryBallIterator) (q : vec3) : AABBQueryBallIterator :=
  mkBallIterator q (b_r it) (b_n_images it) (b_image_list it)
    (cur_image it) (cur_node_idx it) (cur_p it) (b_finished it).

Section flat.
Variable F : FloatOps.
Variable sqrt : float -> float.
Variable T : NeighborPoint.
Variable data : AABBQuery.
Hypothesis H2D : is2D (m_box data) = true.

Lemma image_loop_with_point (it : AABBQueryBallIterator) (r_cutsq : float)
    (q pos_i : vec3) (fuel : nat) :
  forall image node p,
    image_loop F sqrt data fuel (with_point it q) r_cutsq pos_i image node p
    = image_loop F sqrt data fuel it r_cutsq pos_i image node p.
Proof.
  induction fuel as [| fuel IH]; intros image node p; cbn [image_loop];
    [reflexivity |].
  cbn [with_point b_n_images b_image_list b_r].
  destruct (image <? b_n_images it)%nat; [| reflexivity].
  destruct (node_loop _ _ _ _ _ _ _ _) as [[np [n1 p1]] | [n1 p1]];
    [reflexivity | apply IH].
Qed.

Lemma ball_next_with_point (it : AABBQueryBallIterator) (z : float) :
  ball_next F sqrt T data (with_point it (set_z (b_point it) z))
  = ((ball_next F sqrt T data it).1,
     with_point (ball_next F sqrt T data it).2
       (set_z (b_point (ball_next F sqrt T data it).2) z)).
Proof.
  unfold ball_next. rewrite H2D.
  cbn [with_point b_point b_n_images cur_image cur_node_idx cur_p b_r
         b_image_list b_finished].
  change (set_z (set_z (b_point it) z) 0) with (set_z (b_point it) 0).
  pose proof (image_loop_with_point it (fmul F (b_r it) (b_r it))
                (set_z (b_point it) z)
                (set_z (b_point it) 0) (b_n_images it - cur_image it)
                (cur_image it) (cur_node_idx it) (cur_p it)) as Hloop.
  rewrite Hloop.
  destruct (image_loop F sqrt data (b_n_images it - cur_image it) it
              (fmul F (b_r it) (b_r it))
              (set_z (b_point it) 0) (cur_image it) (cur_node_idx it) (cur_p it))
    as [[np [[image node] p]] | [[image node] p]]; reflexivity.
Qed.

Lemma ball_collect_with_point (z : float) (fuel : nat) :
  forall (it : AABBQueryBallIterator) (v : list NeighborPoint),
    ball_collect F sqrt T data fuel (with_point it (set_z (b_point it) z)) v
    = ball_collect F sqrt T data fuel it v.
Proof.
  induction fuel as [| fuel IH]; intros it v; cbn [ball_collect]; [reflexivity |].
  cbn [with_point b_finished]. fold (with_point it (set_z (b_point it) z)).
  destruct (b_finished it); [reflexivity |].
  rewrite ball_next_with_point.
  destruct (ball_next F sqrt T data it) as [np it'] eqn:Hnext. cbn [fst snd].
  apply IH.
Qed.

End flat.

(** X20. In a two-dimensional box the z coordinate of the query point
    plays no part: a ball query from a point and from the same point
    at any other height are refused together, and otherwise yield the
    same neighbors with the same distances in the same order. *)
Theorem ball_query_ignores_z_in_2D (F : FloatOps) (sqrt : float -> float) (T : NeighborPoint)
    (data : AABBQuery) (q : vec3) (z r : float)
    (H2D : is2D (m_box data) = true) :
  (forall e, queryBall data q r = Throws e ->
     queryBall data (set_z q z) r = Throws e)
  /\ (forall it, queryBall data q r = Returns it ->
        exists it',
          queryBall data (set_z q z) r = Returns it'
          /\ forall fuel,
               ball_yield F sqrt T data fuel it' = ball_yield F sqrt T data fuel it).
Proof.
  unfold queryBall.
  destruct (updateImageVectors (m_box data) [] r) as [imgs | e |]; cbn [obind].
  - split; [discriminate |].
    intros it Hit. inversion Hit; subst; clear Hit.
    eexists. split; [reflexivity |]. intros fuel. unfold ball_yield.
    pose proof (ball_collect_with_point F sqrt T data H2D z fuel
                  (mkBallIterator q r imgs.1 imgs.2 0 0 0 false) []) as Hc.
    unfold with_point in Hc. cbn in Hc. cbn. rewrite Hc. reflexivity.
  - split; [intros e' He; exact He | discriminate].
  - split; discriminate.
Qed.

Lemma ball_query_ignores_z_in_2D_witness :
  let box := mkBox (getLatticeVector (open_cube 10)) (mkvec3 10 10 10)
               false false false true in
  let data := mkAABBQuery box [mkvec3 0 0 7; mkvec3 5 0 1; mkvec3 9 0 4] 3 s1_tree in
  exists it it',
    queryBall data (mkvec3 3 0 0) 4 = Returns it
    /\ queryBall data (mkvec3 3 0 8) 4 = Returns it'
    /\ ball_yield binary32 isqrt scene_terminator data 5 it'
       = ball_yield binary32 isqrt scene_terminator data 5 it
    /\ ball_yield binary32 isqrt scene_terminator data 5 it
       = Some [mkNeighborPoint 0 3; mkNeighborPoint 1 2].
Proof.
  intros box data.
  destruct (ball_query_ignores_z_in_2D binary32 isqrt scene_terminator data (mkvec3 3 0 0) 8 4
              eq_refl) as [_ H].
  destruct (H _ eq_refl) as (it' & Hq & Hy).
  eexists _, it'. split; [reflexivity |]. split; [exact Hq |].
  split; [apply Hy | reflexivity].
Defined.

End AABBQuery_more_facts.

(** * Properties of HexaticTranslational.cc *)

Module HexaticTranslational_facts.
Import NeighborList_cc NeighborQuery_h NeighborComputeFunctional_h HexaticTranslational_cc.
Import ListSpec IndexSpec TraversalSpec OrderSpec Scenes Numeric_facts.

Lemma index_op_in (points : NeighborQuery) (j : nat) :
  length (m_points points) = m_n_points points ->
  (j < m_n_points points)%nat ->
  index_op points j = Returns (nth j (m_points points) vzero).
Proof.
  intros Hview Hj. unfold index_op.
  destruct (Nat.leb_spec (m_n_points points) j); [lia |].
  destruct (lookup_lt_is_Some_2 (m_points points) j ltac:(lia)) as [p Hp].
  rewrite Hp. f_equal. symmetry. apply nth_lookup_Some with (d := vzero). exact Hp.
Qed.

Section body.
Variable outside : forall A : Type, outcome A.
Variable wrap : Box -> vec3 -> vec3.
Variable points : NeighborQuery.
Variable func : vec3 -> complex.
Variable weighted : bool.
Hypothesis Hview : length (m_points points) = m_n_points points.

(** The loop body over the bonds [bs]: slot [i] of the array gathers
    the weighted sum, [total_weight] the sum of the weights. *)
Lemma psi_body_fold (i : nat) (bs : list NeighborBond) :
  (forall b, In b bs -> (ref_id b < m_n_points points)%nat) ->
  forall (arr : list psi) (z : complex) (t : float),
    arr !! i = Some (Some z) ->
    fold_body (psi_body outside wrap points func weighted i
                 (nth i (m_points points) vzero)) bs (arr, t)
    = Returns (<[i := Some (psi_sum wrap points func weighted i bs z)]> arr,
               weight_sum weighted bs t).
Proof.
  induction bs as [| b bs IH]; intros Hrefs arr z t Hz; cbn [fold_body].
  - cbn. now rewrite list_insert_id.
  - unfold psi_body at 1. cbn [fst snd].
    rewrite (index_op_in points (ref_id b) Hview)
      by (apply Hrefs; left; reflexivity).
    cbn [obind]. unfold at_, put. unfold psi in *. rewrite Hz. cbn [obind].
    destruct (Nat.ltb_spec i (length arr)) as [_ | Hge];
      [| apply lookup_lt_Some in Hz; lia].
    cbn [obind psi_add].
    rewrite (IH ltac:(intros b' Hb'; apply Hrefs; right; exact Hb') _
               (cadd z (cscale (bond_weight weighted b) (func (bond_delta wrap points i b))))
               _ ltac:(apply list_lookup_insert_eq; apply lookup_lt_Some in Hz; exact Hz)).
    rewrite list_insert_insert_eq. reflexivity.
Qed.

End body.

Section point.
Variable outside : forall A : Type, outcome A.
Variable wrap : Box -> vec3 -> vec3.
Context {K : Type}.
Variable k_to_float : K -> float.
Variable obj : HexaticTranslational K.
Variable points : NeighborQuery.
Variable func : vec3 -> complex.
Hypothesis Hview : length (m_points points) = m_n_points points.

(** The compute function on an iterator whose loop runs over the
    bonds [bs]: slot [i] becomes the order parameter of these bonds. *)
Lemma compute_point_run {S : Type} `{NeighborIterator S} (fuel : nat) (i : nat)
    (ppiter it : S) (nb : NeighborBond) (bs : list NeighborBond) (arr : list psi) :
  (i < m_n_points points)%nat ->
  (forall b, In b bs -> (ref_id b < m_n_points points)%nat) ->
  arr !! i = Some (Some czero) ->
  next ppiter = Returns (nb, it) ->
  (forall st,
     neighbors_loop (psi_body outside wrap points func (m_weighted obj) i
                       (nth i (m_points points) vzero)) fuel nb it st
     = Some (fold_body (psi_body outside wrap points func (m_weighted obj) i
                          (nth i (m_points points) vzero)) bs st)) ->
  compute_point outside wrap k_to_float obj points func fuel S _ i ppiter arr
  = Some (Returns (<[i := order_parameter wrap k_to_float obj points func i bs]> arr)).
Proof.
  intros Hi Hrefs Hz Hnext Hloop. unfold compute_point.
  rewrite (index_op_in points i Hview Hi), Hnext, Hloop.
  pose proof (psi_body_fold outside wrap points func (m_weighted obj) Hview i bs Hrefs
                arr czero 0%Q Hz) as Hfold.
  unfold float in *. rewrite Hfold.
  unfold at_, put. unfold psi in *.
  rewrite list_lookup_insert_eq by (apply lookup_lt_Some in Hz; exact Hz).
  cbn [obind]. rewrite length_insert.
  destruct (Nat.ltb_spec i (length arr)) as [_ | Hge];
    [| apply lookup_lt_Some in Hz; lia].
  rewrite list_insert_insert_eq. unfold order_parameter.
  destruct (m_weighted obj); reflexivity.
Qed.

End point.

(** Writing [f j] into the slots [idxs], in any order. *)
Lemma fold_insert_length {A : Type} (f : nat -> A) (idxs : list nat) :
  forall l : list A, length (fold_left (fun a j => <[j := f j]> a) idxs l) = length l.
Proof.
  induction idxs as [| i idxs IH]; intros l; cbn [fold_left]; [reflexivity |].
  rewrite IH. apply length_insert.
Qed.

Lemma fold_insert_other {A : Type} (f : nat -> A) (idxs : list nat) (j : nat) :
  ~ In j idxs ->
  forall l : list A, fold_left (fun a j => <[j := f j]> a) idxs l !! j = l !! j.
Proof.
  induction idxs as [| i idxs IH]; intros Hj l; cbn [fold_left]; [reflexivity |].
  rewrite IH by (intros Hin; apply Hj; right; exact Hin).
  apply list_lookup_insert_ne. intros ->. apply Hj. left. reflexivity.
Qed.

Lemma fold_insert_written {A : Type} (f : nat -> A) (idxs : list nat) (j : nat) :
  In j idxs ->
  forall l : list A, (j < length l)%nat ->
    fold_left (fun a j => <[j := f j]> a) idxs l !! j = Some (f j).
Proof.
  induction idxs as [| i idxs IH]; intros Hj l Hl; cbn [fold_left]; [destruct Hj |].
  destruct (in_dec Nat.eq_dec j idxs) as [Hin | Hout].
  - apply IH; [exact Hin | now rewrite length_insert].
  - destruct Hj as [-> | Hin]; [| contradiction].
    rewrite (fold_insert_other f idxs j Hout).
    apply list_lookup_insert_eq. exact Hl.
Qed.

Lemma fold_insert_all {A : Type} (f : nat -> A) (idxs : list nat) (l : list A) :
  Permutation idxs (seq 0 (length l)) ->
  fold_left (fun a j => <[j := f j]> a) idxs l = map f (seq 0 (length l)).
Proof.
  intros Hperm. apply list_eq. intros j.
  destruct (Nat.lt_ge_cases j (length l)) as [Hlt | Hge].
  - rewrite fold_insert_written;
      [| apply (Permutation_in _ (Permutation_sym Hperm)); apply in_seq; lia | exact Hlt].
    rewrite list_lookup_fmap, lookup_seq_lt by exact Hlt. reflexivity.
  - rewrite !lookup_ge_None_2;
      [reflexivity | rewrite length_map, length_seq; exact Hge
      | rewrite fold_insert_length; exact Hge].
Qed.

Section list_path.
Variable outside : forall A : Type, outcome A.
Variable wrap : Box -> vec3 -> vec3.
Variable T : NeighborBond.
Context {K : Type}.
Variable k_to_float : K -> float.
Variable obj : HexaticTranslational K.
Variable points : NeighborQuery.
Variable func : vec3 -> complex.
Variable nl : NeighborList.
Variable fuel : nat.
Hypothesis Hfits : fits points nl.
Hypothesis Hfuel : (getNumBonds nl + 2 <= fuel)%nat.

(** One step of the loop of [loopOverNeighborsIterator]: the iterator
    of query point [i] and the compute function on it. *)
Definition order_step : nat -> list psi -> option (outcome (list psi)) :=
  Schedule_facts.point_step (NeighborListPerPointIterator_new outside fuel nl)
    (compute_point outside wrap k_to_float obj points func fuel
       NeighborListPerPointIterator (NeighborListPerPointIterator_ops outside T)).

Lemma order_step_startable (i : nat) (arr : list psi) :
  (i < m_n_points points)%nat -> startable outside nl i ->
  arr !! i = Some (Some czero) ->
  order_step i arr
  = Some (Returns
            (<[i := order_parameter wrap k_to_float obj points func i (bonds_of nl i)]>
               arr)).
Proof.
  destruct Hfits as (Hview & Hc & Hsorted & Hsize & Hmax & Hrefs).
  intros Hi Hstart Hz. unfold order_step, Schedule_facts.point_step.
  destruct (PerPoint_facts.per_point_loop outside T nl Hc Hsorted
              (psi_body outside wrap points func (m_weighted obj) i
                 (nth i (m_points points) vzero))
              i Hsize ltac:(unfold UINT_MAX in *; lia) Hstart)
    as (it0 & nb & it1 & Hnew & Hnext & Hloop).
  rewrite (Hnew fuel ltac:(lia)).
  apply (compute_point_run outside wrap k_to_float obj points func Hview
           (H := NeighborListPerPointIterator_ops outside T)
           fuel i it0 it1 nb (bonds_of nl i) arr Hi).
  - intros b Hb. apply Hrefs. unfold bonds_of in Hb. apply filter_In in Hb. apply Hb.
  - exact Hz.
  - exact Hnext.
  - intros st. apply Hloop. exact Hfuel.
Qed.

(** A query point is reached by a bond, or lies past every bond. *)
Lemma reached_or_past (i : nat) :
  (exists j, (j < getNumBonds nl)%nat /\ (i <= nth j (ids nl) 0)%nat)
  \/ (forall j, (j < getNumBonds nl)%nat -> (nth j (ids nl) 0 < i)%nat).
Proof.
  destruct Hfits as (_ & _ & Hsorted & _).
  pose proof (NeighborList_index_facts.below_sorted_split i (ids nl) Hsorted)
    as (Hle & Hlo & Hhi).
  rewrite NeighborList_index_facts.length_ids in Hle, Hhi.
  destruct (Nat.eq_dec (below i (ids nl)) (getNumBonds nl)) as [Heq | Hne].
  - right. intros j Hj. apply Hlo. lia.
  - left. exists (below i (ids nl)). split; [lia |]. apply Hhi. lia.
Qed.

Lemma order_step_past (i : nat) (arr : list psi) :
  (i < m_n_points points)%nat ->
  (forall j, (j < getNumBonds nl)%nat -> (nth j (ids nl) 0 < i)%nat) ->
  (forall g, outside nat <> Returns g) ->
  order_step i arr = Some (outcome_of_read outside).
Proof.
  destruct Hfits as (_ & _ & Hsorted & Hsize & Hmax & _).
  intros Hi Hpast Hout. unfold order_step, Schedule_facts.point_step.
  destruct (PerPoint_facts.per_point_new_past_end outside nl i Hsorted Hsize
              ltac:(unfold UINT_MAX in *; lia) Hpast fuel ltac:(lia)) as [_ Hnew].
  rewrite Hnew. unfold outcome_of_read.
  destruct (outside nat) as [g | e |] eqn:Hread; cbn [obind];
    [exfalso; apply (Hout g); reflexivity | reflexivity | reflexivity].
Qed.

(** The loop over query points in any order, each of which can start
    its iterator. *)
Lemma run_points_compute (idxs : list nat) :
  forall arr,
    List.NoDup idxs ->
    (forall j, In j idxs ->
       (j < m_n_points points)%nat /\ startable outside nl j
       /\ arr !! j = Some (Some czero)) ->
    run_indices order_step idxs arr
    = Some (Returns
              (fold_left (fun a j =>
                 <[j := order_parameter wrap k_to_float obj points func j (bonds_of nl j)]> a)
                 idxs arr)).
Proof.
  induction idxs as [| i idxs IH]; intros arr Hnd Hidx; cbn [run_indices fold_left];
    [reflexivity |].
  apply NoDup_cons_iff in Hnd. destruct Hnd as [Hi Hnd].
  destruct (Hidx i ltac:(left; reflexivity)) as (Hlt & Hstart & Hz).
  rewrite (order_step_startable i arr Hlt Hstart Hz).
  apply IH; [exact Hnd |].
  intros j Hj. destruct (Hidx j ltac:(right; exact Hj)) as (Hjlt & Hjs & Hjz).
  split; [exact Hjlt |]. split; [exact Hjs |].
  rewrite list_lookup_insert_ne by (intros ->; contradiction). exact Hjz.
Qed.

(** The loop over query points in any order, one of which lies past
    every bond, when a read outside the array does not return. *)
Lemma run_points_past (idxs : list nat) :
  forall arr,
    List.NoDup idxs ->
    (forall j, In j idxs ->
       (j < m_n_points points)%nat /\ arr !! j = Some (Some czero)) ->
    (exists i, In i idxs
               /\ forall j, (j < getNumBonds nl)%nat -> (nth j (ids nl) 0 < i)%nat) ->
    (forall g, outside nat <> Returns g) ->
    run_indices order_step idxs arr = Some (outcome_of_read outside).
Proof.
  induction idxs as [| i idxs IH]; intros arr Hnd Hidx (i0 & Hi0 & Hpast) Hout;
    [destruct Hi0 |].
  cbn [run_indices].
  apply NoDup_cons_iff in Hnd. destruct Hnd as [Hi Hnd].
  destruct (Hidx i ltac:(left; reflexivity)) as (Hlt & Hz).
  destruct (reached_or_past i) as [Hreach | Hipast].
  - rewrite (order_step_startable i arr Hlt ltac:(left; exact Hreach) Hz).
    apply IH; [exact Hnd | | | exact Hout].
    + intros j Hj. destruct (Hidx j ltac:(right; exact Hj)) as (Hjlt & Hjz).
      split; [exact Hjlt |].
      rewrite list_lookup_insert_ne by (intros ->; contradiction). exact Hjz.
    + exists i0. split; [| exact Hpast].
      destruct Hi0 as [<- | Hin]; [| exact Hin].
      destruct Hreach as (j & Hj & Hij). specialize (Hpast j Hj). lia.
  - rewrite (order_step_past i arr Hlt Hipast Hout). unfold outcome_of_read.
    destruct (outside nat) as [g | e |]; reflexivity.
Qed.

End list_path.

(** What [prepare] gives when the array is cleared: a fresh object, or
    a [prepare] that clears by default. *)
Lemma prepare_cleared {A : Type} (zero : A) (n : nat) (reset : bool) (arr : list A) :
  reset = true \/ arr = [] -> prepare zero n reset arr = replicate n zero.
Proof.
  intros [-> | ->]; unfold prepare; [reflexivity |].
  destruct reset; [reflexivity |]. rewrite take_nil. cbn [length app].
  now rewrite Nat.sub_0_r.
Qed.

(** [computeGeneral] over a bond list, up to the loop over the query
    points in the order of the schedule. *)
Lemma computeGeneral_steps {S : Type} `{NeighborIterator S} {K : Type}
    (tbb : schedule) (outside : forall A : Type, outcome A) (default_reset : bool)
    (enforce2D : Box -> outcome unit) (wrap : Box -> vec3 -> vec3) (T : NeighborBond)
    (k_to_float : K -> float) (func : vec3 -> complex) (nl : NeighborList)
    (points : NeighborQuery) (query_idx : nat -> outcome S) (fuel : nat)
    (obj : HexaticTranslational K) :
  enforce2D (m_box points) = Returns tt ->
  default_reset = true \/ m_psi_array obj = [] ->
  computeGeneral tbb outside default_reset enforce2D wrap T k_to_float func (Some nl)
    points query_idx fuel obj
  = match run_indices (order_step outside wrap T k_to_float obj points func nl fuel)
            (scheduled tbb 0 (m_n_points points))
            (replicate (m_n_points points) (Some czero)) with
    | Some (Returns arr) =>
        Some (Returns (mkHexaticTranslational (m_k obj) (m_weighted obj) arr))
    | Some (Throws e) => Some (Throws e)
    | Some Undefined => Some Undefined
    | None => None
    end.
Proof.
  intros H2D Hfresh. unfold computeGeneral, getNPoints. rewrite H2D.
  rewrite (prepare_cleared _ _ _ _ Hfresh).
  unfold loopOverNeighborsIterator.
  rewrite (Schedule_facts.forLoopWrapper_indices tbb _
             (order_step outside wrap T k_to_float obj points func nl fuel))
    by (intros b e st; apply Schedule_facts.loop_points_indices).
  reflexivity.
Qed.

(** [computeGeneral] over a bond list: the closed form of the array it
    leaves. *)
Lemma computeGeneral_run {S : Type} `{NeighborIterator S} {K : Type}
    (tbb : schedule) (outside : forall A : Type, outcome A) (default_reset : bool)
    (enforce2D : Box -> outcome unit) (wrap : Box -> vec3 -> vec3) (T : NeighborBond)
    (k_to_float : K -> float) (func : vec3 -> complex) (nl : NeighborList)
    (points : NeighborQuery) (query_idx : nat -> outcome S) (fuel : nat)
    (obj : HexaticTranslational K) :
  enforce2D (m_box points) = Returns tt ->
  well_formed outside points nl ->
  (getNumBonds nl + 2 <= fuel)%nat ->
  default_reset = true \/ m_psi_array obj = [] ->
  computeGeneral tbb outside default_reset enforce2D wrap T k_to_float func (Some nl)
    points query_idx fuel obj
  = Some (Returns
            (mkHexaticTranslational (m_k obj) (m_weighted obj)
               (map (fun i => order_parameter wrap k_to_float obj points func i
                                (bonds_of nl i))
                  (seq 0 (m_n_points points))))).
Proof.
  intros H2D [Hfits Hstart] Hfuel Hfresh.
  rewrite (computeGeneral_steps tbb outside default_reset enforce2D wrap T k_to_float
             func nl points query_idx fuel obj H2D Hfresh).
  rewrite (run_points_compute outside wrap T k_to_float obj points func nl fuel
             Hfits Hfuel).
  - rewrite <- (length_replicate (m_n_points points) (Some czero)) at 3.
    rewrite fold_insert_all;
      [reflexivity
      | rewrite length_replicate;
        rewrite (Schedule_facts.scheduled_perm tbb 0 _ ltac:(lia));
        now rewrite Nat.sub_0_r].
  - apply Schedule_facts.scheduled_NoDup. lia.
  - intros j Hj. apply Schedule_facts.scheduled_In in Hj.
    split; [exact Hj |]. split; [apply Hstart; exact Hj |].
    apply lookup_replicate_2. exact Hj.
Qed.

(** [computeGeneral] over a bond list that leaves a query point past
    every bond, when a read outside the array does not return. *)
Lemma computeGeneral_past {S : Type} `{NeighborIterator S} {K : Type}
    (tbb : schedule) (outside : forall A : Type, outcome A) (default_reset : bool)
    (enforce2D : Box -> outcome unit) (wrap : Box -> vec3 -> vec3) (T : NeighborBond)
    (k_to_float : K -> float) (func : vec3 -> complex) (nl : NeighborList)
    (points : NeighborQuery) (query_idx : nat -> outcome S) (fuel : nat)
    (obj : HexaticTranslational K) (i : nat) :
  enforce2D (m_box points) = Returns tt ->
  fits points nl ->
  (getNumBonds nl + 2 <= fuel)%nat ->
  default_reset = true \/ m_psi_array obj = [] ->
  (i < m_n_points points)%nat ->
  (forall b, In b (bonds nl) -> (id b < i)%nat) ->
  (forall g, outside nat <> Returns g) ->
  computeGeneral tbb outside default_reset enforce2D wrap T k_to_float func (Some nl)
    points query_idx fuel obj
  = Some (outcome_of_read outside).
Proof.
  intros H2D Hfits Hfuel Hfresh Hi Hpast Hout.
  rewrite (computeGeneral_steps tbb outside default_reset enforce2D wrap T k_to_float
             func nl points query_idx fuel obj H2D Hfresh).
  rewrite (run_points_past outside wrap T k_to_float obj points func nl fuel
             Hfits Hfuel).
  - unfold outcome_of_read. destruct (outside nat) as [g | e |]; reflexivity.
  - apply Schedule_facts.scheduled_NoDup. lia.
  - intros j Hj. apply Schedule_facts.scheduled_In in Hj.
    split; [exact Hj |]. apply lookup_replicate_2. exact Hj.
  - exists i. split; [apply Schedule_facts.scheduled_In; exact Hi |].
    intros j Hj. rewrite <- PerPoint_facts.id_bond_at. apply Hpast.
    unfold bonds. apply in_map. apply in_seq. lia.
  - exact Hout.
Qed.

(** X21. The order parameter from a bond list.  For points in a box
    that passes [enforce2D], a bond list that fits the points (sorted
    by query index, arrays of one length, valid point indices) and in
    which the iterator of every point can start (for every point a
    bond with a query index at least as large exists, or reads outside
    the array return), and an object whose array [prepare] clears:
    [computeGeneral] returns under every schedule of its parallel
    loop, and slot [i] of [m_psi_array] holds, for every point [i],
    the sum of [weight * func(wrap(p_j - p_i))] over the bonds
    ([i], [j]) of the list, divided by the sum of their weights when
    the object is weighted and by [m_k] when it is not (the weights
    being 1 then), in arithmetic without rounding.  For
    [Translational::compute] the summand is the complex number (x, y)
    of the wrapped vector, for [Hexatic::compute] it is
    [exp(i * m_k * atan2(y, x))]. *)
Theorem computeGeneral_over_bond_list {S : Type} `{NeighborIterator S}
    (tbb : schedule) (outside : forall A : Type, outcome A) (default_reset : bool)
    (enforce2D : Box -> outcome unit) (wrap : Box -> vec3 -> vec3) (T : NeighborBond)
    (nl : NeighborList) (points : NeighborQuery) (query_idx : nat -> outcome S)
    (fuel : nat)
    (H2D : enforce2D (m_box points) = Returns tt)
    (Hwf : well_formed outside points nl)
    (Hfuel : (getNumBonds nl + 2 <= fuel)%nat) :
  (forall (K : Type) (k_to_float : K -> float) (func : vec3 -> complex)
          (obj : HexaticTranslational K),
     default_reset = true \/ m_psi_array obj = [] ->
     computeGeneral tbb outside default_reset enforce2D wrap T k_to_float func (Some nl)
       points query_idx fuel obj
     = Some (Returns
               (mkHexaticTranslational (m_k obj) (m_weighted obj)
                  (map (fun i => order_parameter wrap k_to_float obj points func i
                                   (bonds_of nl i))
                     (seq 0 (m_n_points points))))))
  /\ (forall t : HexaticTranslational float,
        default_reset = true \/ m_psi_array t = [] ->
        Translational_compute tbb outside default_reset enforce2D wrap T (Some nl)
          points query_idx fuel t
        = Some (Returns
                  (mkHexaticTranslational (m_k t) (m_weighted t)
                     (map (fun i =>
                             order_parameter wrap (fun k => k) t points
                               (fun delta => mkcomplex (vx delta) (vy delta)) i
                               (bonds_of nl i))
                        (seq 0 (m_n_points points))))))
  /\ (forall (atan2 : float -> float -> float) (cexp : complex -> complex)
             (h : HexaticTranslational nat),
        default_reset = true \/ m_psi_array h = [] ->
        Hexatic_compute tbb outside default_reset enforce2D wrap T atan2 cexp (Some nl)
          points query_idx fuel h
        = Some (Returns
                  (mkHexaticTranslational (m_k h) (m_weighted h)
                     (map (fun i =>
                             order_parameter wrap (fun k => inject_Z (Z.of_nat k)) h
                               points
                               (fun delta =>
                                  cexp (mkcomplex 0
                                          (inject_Z (Z.of_nat (m_k h))
                                           * atan2 (vy delta) (vx delta)))) i
                               (bonds_of nl i))
                        (seq 0 (m_n_points points)))))).
Proof.
  split; [| split].
  - intros K k_to_float func obj Hfresh. apply computeGeneral_run; assumption.
  - intros t Hfresh. unfold Translational_compute.
    apply computeGeneral_run; assumption.
  - intros atan2 cexp h Hfresh. unfold Hexatic_compute.
    apply computeGeneral_run; assumption.
Qed.

Lemma corner_fits : fits corner_points corner_bonds.
Proof.
  repeat split; try reflexivity.
  - cbn. lia.
  - cbn. unfold UINT_MAX. lia.
  - intros b Hb. cbn in Hb.
    repeat (destruct Hb as [<- | Hb]; [cbn; lia |]). contradiction.
Qed.

Lemma corner_well_formed : well_formed (fun _ => Undefined) corner_points corner_bonds.
Proof.
  split; [exact corner_fits |].
  intros i Hi. left. exists 3%nat. cbn in *. lia.
Qed.

Lemma computeGeneral_over_bond_list_witness :
  exists t',
    Translational_compute (mkSchedule [0%nat] [1%nat]) (fun _ => Undefined) true
      (fun _ => Returns tt) (fun _ v => v)
      (mkNeighborBond 9 9 0 0) (Some corner_bonds) corner_points
      (Scenes.base_query_idx 0) 6 (mkHexaticTranslational 1%Q true [])
    = Some (Returns t')
    /\ psi_equiv (nth 0 (m_psi_array t') None) (Some (mkcomplex (1 # 4) (3 # 2))).
Proof.
  destruct (computeGeneral_over_bond_list (mkSchedule [0%nat] [1%nat])
              (fun _ => Undefined) true
              (fun _ => Returns tt) (fun _ v => v) (mkNeighborBond 9 9 0 0)
              corner_bonds corner_points (Scenes.base_query_idx 0) 6 eq_refl
              corner_well_formed ltac:(cbn; lia)) as (_ & Ht & _).
  eexists. split; [apply Ht; left; reflexivity |].
  cbn. split; reflexivity.
Defined.

(** X22. Points without neighbors.  Let the box pass [enforce2D], the
    bond list fit the points and [prepare] clear the array.
    - When the iterator of every point can start, a point [i] that has
      no bond in the list (some bond of a later point follows, or
      reads outside the array return) gets, under every schedule: in a
      weighted object the empty sum divided by the total weight 0, a
      value that is not finite; in an object that is not weighted
      0 / [m_k], which is 0 unless [m_k] is 0.
    - When some point lies past the query index of every bond (the
      last point has no bond, or the list is empty) and a read outside
      the array does not return, [computeGeneral] returns no array at
      all: under every schedule it ends as that read does, with its
      exception or with undefined behaviour. *)
Theorem point_without_neighbors {S : Type} `{NeighborIterator S} {K : Type}
    (tbb : schedule) (outside : forall A : Type, outcome A) (default_reset : bool)
    (enforce2D : Box -> outcome unit) (wrap : Box -> vec3 -> vec3) (T : NeighborBond)
    (k_to_float : K -> float) (func : vec3 -> complex)
    (nl : NeighborList) (points : NeighborQuery) (query_idx : nat -> outcome S)
    (fuel : nat) (obj : HexaticTranslational K) (i : nat)
    (H2D : enforce2D (m_box points) = Returns tt)
    (Hfits : fits points nl)
    (Hfuel : (getNumBonds nl + 2 <= fuel)%nat)
    (Hfresh : default_reset = true \/ m_psi_array obj = [])
    (Hi : (i < m_n_points points)%nat) :
  (all_startable outside points nl ->
   (forall b, In b (bonds nl) -> id b <> i) ->
   exists obj',
     computeGeneral tbb outside default_reset enforce2D wrap T k_to_float func (Some nl)
       points query_idx fuel obj = Some (Returns obj')
     /\ (m_weighted obj = true -> m_psi_array obj' !! i = Some None)
     /\ (m_weighted obj = false ->
         (k_to_float (m_k obj) == 0)%Q -> m_psi_array obj' !! i = Some None)
     /\ (m_weighted obj = false ->
         ~ (k_to_float (m_k obj) == 0)%Q ->
         exists z, m_psi_array obj' !! i = Some (Some z)
                   /\ (re z == 0)%Q /\ (im z == 0)%Q))
  /\ ((forall b, In b (bonds nl) -> (id b < i)%nat) ->
      (forall g, outside nat <> Returns g) ->
      computeGeneral tbb outside default_reset enforce2D wrap T k_to_float func (Some nl)
        points query_idx fuel obj
      = Some (outcome_of_read outside)
      /\ forall obj', @outcome_of_read (HexaticTranslational K) outside <> Returns obj').
Proof.
  split.
  - intros Hstart Hnone.
    eexists. split; [apply computeGeneral_run; [| split |..]; assumption |].
    cbn [m_psi_array].
    assert (Hbs : bonds_of nl i = []).
    { unfold bonds_of. apply PerPoint_facts.filter_nil_intro.
      intros b Hb. apply Nat.eqb_neq. apply Hnone. exact Hb. }
    assert (Hslot : forall f : nat -> psi,
              map f (seq 0 (m_n_points points)) !! i = Some (f i)).
    { intros f. rewrite list_lookup_fmap, lookup_seq_lt by exact Hi. reflexivity. }
    rewrite Hslot, Hbs. unfold order_parameter. cbn [psi_sum weight_sum fold_left].
    split; [| split].
    + intros ->. reflexivity.
    + intros -> Hk. cbn [psi_div]. apply Qeq_bool_iff in Hk. now rewrite Hk.
    + intros -> Hk. cbn [psi_div].
      destruct (Qeq_bool (k_to_float (m_k obj)) 0) eqn:E;
        [apply Qeq_bool_iff in E; contradiction |].
      eexists. split; [reflexivity |]. cbn [re im czero].
      split; field; exact Hk.
  - intros Hpast Hout. split.
    + apply (computeGeneral_past tbb outside default_reset enforce2D wrap T k_to_float
               func nl points query_idx fuel obj i); assumption.
    + intros obj'. unfold outcome_of_read.
      destruct (outside nat) as [g | e |]; discriminate.
Qed.

Lemma point_without_neighbors_witness :
  let nl := mkNeighborList 3 3 [(0, 1); (0, 2); (2, 0)]%nat [1; 3; 1]%Q [1; 2; 2]%Q
              [0; 0; 0]%nat [0; 0; 0]%nat in
  let tbb := mkSchedule [0%nat] [1%nat] in
  let compute := fun nl =>
    computeGeneral tbb (fun _ => Undefined) true (fun _ => Returns tt) (fun _ v => v)
      (mkNeighborBond 9 9 0 0) (fun k : float => k)
      (fun delta => mkcomplex (vx delta) (vy delta)) (Some nl) corner_points
      (Scenes.base_query_idx 0) 5 (mkHexaticTranslational 1%Q true []) in
  (exists obj',
     compute nl = Some (Returns obj') /\ m_psi_array obj' !! 1%nat = Some None)
  /\ compute (mkNeighborList 3 3 [(0, 1); (0, 2)]%nat [1; 3]%Q [1; 2]%Q
                [0; 0; 0]%nat [0; 0; 0]%nat)
     = Some Undefined.
Proof.
  intros nl tbb compute.
  assert (Hfits : forall nl', m_weights nl' = take (getNumBonds nl') [1; 3; 1]%Q ->
            m_distances nl' = take (getNumBonds nl') [1; 2; 2]%Q ->
            m_neighbors nl' = take (getNumBonds nl') [(0, 1); (0, 2); (2, 0)]%nat ->
            (getNumBonds nl' <= 3)%nat ->
            fits corner_points nl').
  { intros nl' Hw Hd Hn Hlen. unfold fits, consistent.
    rewrite Hw, Hd, !length_take. cbn [length corner_points m_points m_n_points].
    assert (Hcases : getNumBonds nl' = 0%nat \/ getNumBonds nl' = 1%nat
                     \/ getNumBonds nl' = 2%nat \/ getNumBonds nl' = 3%nat) by lia.
    unfold bonds, ids, bond_at, get2. rewrite Hw, Hd, Hn.
    destruct Hcases as [-> | [-> | [-> | ->]]];
      (repeat split; try reflexivity; try (cbn; unfold UINT_MAX; lia);
       intros b Hb; cbn in Hb;
       repeat (destruct Hb as [<- | Hb]; [cbn; lia |]); contradiction). }
  split.
  - destruct (point_without_neighbors tbb (fun _ => Undefined) true
                (fun _ => Returns tt)
                (fun _ v => v) (mkNeighborBond 9 9 0 0) (fun k : float => k)
                (fun delta => mkcomplex (vx delta) (vy delta)) nl corner_points
                (Scenes.base_query_idx 0) 5 (mkHexaticTranslational 1%Q true []) 1
                eq_refl
                ltac:(apply Hfits; [reflexivity.. | cbn; lia])
                ltac:(cbn; lia) ltac:(left; reflexivity) ltac:(cbn; lia))
      as [Hsome _].
    destruct Hsome as (obj' & Hrun & Hw & _).
    + intros i Hi. left. exists 2%nat. cbn in *. lia.
    + intros b Hb. cbn in Hb.
      repeat (destruct Hb as [<- | Hb]; [cbn; lia |]). contradiction.
    + exists obj'. split; [exact Hrun | apply Hw; reflexivity].
  - destruct (point_without_neighbors tbb (fun _ => Undefined) true
                (fun _ => Returns tt)
                (fun _ v => v) (mkNeighborBond 9 9 0 0) (fun k : float => k)
                (fun delta => mkcomplex (vx delta) (vy delta))
                (mkNeighborList 3 3 [(0, 1); (0, 2)]%nat [1; 3]%Q [1; 2]%Q
                   [0; 0; 0]%nat [0; 0; 0]%nat)
                corner_points
                (Scenes.base_query_idx 0) 5 (mkHexaticTranslational 1%Q true []) 2
                eq_refl
                ltac:(apply Hfits; [reflexivity.. | cbn; lia])
                ltac:(cbn; lia) ltac:(left; reflexivity) ltac:(cbn; lia))
      as [_ Hpast].
    destruct Hpast as [Hrun _].
    + intros b Hb. cbn in Hb.
      repeat (destruct Hb as [<- | Hb]; [cbn; lia |]). contradiction.
    + intros g. discriminate.
    + exact Hrun.
Defined.

Lemma sums_by_key (wrap : Box -> vec3 -> vec3) (points : NeighborQuery)
    (func : vec3 -> complex) (weighted : bool) (i : nat)
    (bs bs' : list NeighborBond) :
  map (fun b => (ref_id b, bond_weight weighted b)) bs
  = map (fun b => (ref_id b, bond_weight weighted b)) bs' ->
  (forall z, psi_sum wrap points func weighted i bs z
             = psi_sum wrap points func weighted i bs' z)
  /\ (forall t, weight_sum weighted bs t = weight_sum weighted bs' t).
Proof.
  revert bs'. induction bs as [| b bs IH]; intros [| b' bs'] Hmap;
    try discriminate; [split; reflexivity |].
  cbn [map] in Hmap. injection Hmap as Hr Hw Hrest.
  destruct (IH bs' Hrest) as [IHp IHw].
  split; intros x; cbn [psi_sum weight_sum fold_left].
  - unfold bond_delta. rewrite Hr, Hw. apply IHp.
  - rewrite Hw. apply IHw.
Qed.

Lemma keys_of_bonds (nl nl' : NeighborList) (weighted : bool) (i : nat) :
  m_neighbors nl' = m_neighbors nl ->
  (weighted = true -> m_weights nl' = m_weights nl) ->
  map (fun b => (ref_id b, bond_weight weighted b)) (bonds_of nl i)
  = map (fun b => (ref_id b, bond_weight weighted b)) (bonds_of nl' i).
Proof.
  intros Hn Hw. unfold bonds_of, bonds, getNumBonds. rewrite Hn.
  induction (seq 0 (length (m_neighbors nl))) as [| j l IH]; [reflexivity |].
  cbn [map List.filter].
  assert (Hid : id (bond_at nl' j) = id (bond_at nl j))
    by (unfold bond_at; cbn [id]; now rewrite Hn).
  rewrite Hid. destruct (id (bond_at nl j) =? i)%nat; [| exact IH].
  cbn [map]. rewrite IH. f_equal.
  unfold bond_at, bond_weight. cbn [ref_id weight]. rewrite Hn.
  destruct weighted; [| reflexivity]. now rewrite (Hw eq_refl).
Qed.

(** X23. What the result depends on.  Of two bond lists that both
    fit the points and let every iterator start, [computeGeneral]
    makes the same array under every schedule when the lists hold the
    same pairs and the object is not weighted, whatever the values of
    their weights and distances are; a weighted object needs the
    values of the weights to agree as well, and never those of the
    distances. *)
Theorem computeGeneral_same_pairs_same_result {S : Type} `{NeighborIterator S}
    {K : Type}
    (tbb tbb' : schedule) (outside : forall A : Type, outcome A) (default_reset : bool)
    (enforce2D : Box -> outcome unit) (wrap : Box -> vec3 -> vec3) (T : NeighborBond)
    (k_to_float : K -> float) (func : vec3 -> complex)
    (nl nl' : NeighborList) (points : NeighborQuery) (query_idx : nat -> outcome S)
    (fuel : nat) (obj : HexaticTranslational K)
    (H2D : enforce2D (m_box points) = Returns tt)
    (Hwf : well_formed outside points nl)
    (Hwf' : well_formed outside points nl')
    (Hfuel : (getNumBonds nl + 2 <= fuel)%nat)
    (Hfresh : default_reset = true \/ m_psi_array obj = [])
    (Hpairs : m_neighbors nl' = m_neighbors nl)
    (Hweights : m_weighted obj = true -> m_weights nl' = m_weights nl) :
  computeGeneral tbb' outside default_reset enforce2D wrap T k_to_float func (Some nl')
    points query_idx fuel obj
  = computeGeneral tbb outside default_reset enforce2D wrap T k_to_float func (Some nl)
      points query_idx fuel obj
  /\ exists obj',
       computeGeneral tbb outside default_reset enforce2D wrap T k_to_float func (Some nl)
         points query_idx fuel obj = Some (Returns obj').
Proof.
  assert (Hfuel' : (getNumBonds nl' + 2 <= fuel)%nat)
    by (unfold getNumBonds in *; now rewrite Hpairs).
  rewrite (computeGeneral_run tbb outside default_reset enforce2D wrap T k_to_float func
             nl points query_idx fuel obj) by assumption.
  rewrite (computeGeneral_run tbb' outside default_reset enforce2D wrap T k_to_float func
             nl' points query_idx fuel obj) by assumption.
  split; [| eexists; reflexivity].
  do 3 f_equal. apply map_ext. intros i.
  destruct (sums_by_key wrap points func (m_weighted obj) i (bonds_of nl' i) (bonds_of nl i))
    as [Hp Hw].
  { symmetry. apply keys_of_bonds; assumption. }
  unfold order_parameter. rewrite Hp.
  destruct (m_weighted obj) eqn:E; [| reflexivity].
  now rewrite Hw.
Qed.

Lemma corner_well_formed_other :
  well_formed (fun _ => Undefined) corner_points
    (set_distances (set_weights corner_bonds [5; 6; 7; 8]%Q) [9; 9; 9; 9]%Q).
Proof.
  split.
  - repeat split; try reflexivity.
    + cbn. lia.
    + cbn. unfold UINT_MAX. lia.
    + intros b Hb. cbn in Hb.
      repeat (destruct Hb as [<- | Hb]; [cbn; lia |]). contradiction.
  - intros i Hi. left. exists 3%nat. cbn in *. lia.
Qed.

Lemma computeGeneral_same_pairs_same_result_witness :
  let compute tbb nl :=
    computeGeneral tbb (fun _ => Undefined) true (fun _ => Returns tt) (fun _ v => v)
      (mkNeighborBond 9 9 0 0) (fun k : float => k)
      (fun delta => mkcomplex (vx delta) (vy delta)) (Some nl) corner_points
      (Scenes.base_query_idx 0) 6 (mkHexaticTranslational 1%Q false []) in
  compute (mkSchedule [0%nat] [1%nat])
    (set_distances (set_weights corner_bonds [5; 6; 7; 8]%Q) [9; 9; 9; 9]%Q)
  = compute (mkSchedule [] []) corner_bonds.
Proof.
  intros compute.
  apply (computeGeneral_same_pairs_same_result (mkSchedule [] [])
           (mkSchedule [0%nat] [1%nat]) (fun _ => Undefined) true
           (fun _ => Returns tt) (fun _ v => v) (mkNeighborBond 9 9 0 0)
           (fun k : float => k) (fun delta => mkcomplex (vx delta) (vy delta))
           corner_bonds _ corner_points (Scenes.base_query_idx 0) 6
           (mkHexaticTranslational 1%Q false []) eq_refl
           corner_well_formed corner_well_formed_other).
  - cbn. lia.
  - left. reflexivity.
  - reflexivity.
  - cbn. discriminate.
Defined.

End HexaticTranslational_facts.
